(** * CASCADE Living OS: the AURA evaluator and the streak analyzer

    A shallow embedding of the two pure cores of the repository,
    [lib/aura/index.ts] (validateAURA, vectorInversion, filterDecision,
    calculateTES, calculateVTR) and [lib/utils.ts] (getDateKey,
    getDaysBetween, calculateStreak), with the properties the
    specification states about them.

    Conventions of the embedding.
    - A metric, a threshold or a parameter of a calculator is written as
      the rational [Q] of its numeral ([0.7] is 7/10) and stands for the
      double nearest to it. The numerals of two doubles are ordered as the
      doubles are, so [<] and [===] on them are those of [Q].
    - Arithmetic is that of IEEE 754 binary64, rounding to nearest with
      ties to even ([Double]): a computed number is a finite double, given
      by the rational it is, an infinity or NaN. The sign of a zero is
      not kept. NaN and the infinities as inputs are outside the model.
    - A millisecond timestamp is an integer [Z].
    - [Date.now()] is a clock reading handed to the function by its caller.
    - A thrown exception (RangeError, TypeError) is the result [None].
    - Strings are [string]; the only characters the code inspects are ASCII.
    - The host time zone, which [setDate] and [getDate] read, is a
      [TimeZone]: the offset from UTC in force at each instant, constant
      on some hosts and changing with daylight saving on others. *)

From Stdlib Require Import ZArith QArith Qround Qabs Qpower.
From Stdlib Require Import List String Ascii Bool Lia Lqa.
From Stdlib Require Import Sorting.Sorted Sorting.Permutation.
Import ListNotations.

Local Open Scope string_scope.
Local Open Scope list_scope.

(** ** Numbers: IEEE 754 binary64 *)

Module Double.

Local Open Scope Q_scope.

(** A number: a finite double, given by the rational it is, an infinity
    or NaN. *)
Inductive number := finite (q : Q) | infinity (negative : bool) | NaN.

Definition negative (q : Q) : bool := (Qnum q <? 0)%Z.

(** The integer part of the binary logarithm of a positive rational. *)
Definition exponent (q : Q) : Z :=
  let k := (Z.log2 (Qnum q) - Z.log2 (Zpos (Qden q)))%Z in
  if Qle_bool (2 ^ k) q then k else (k - 1)%Z.

(** The nearest integer, a half going to the even neighbour. *)
Definition nearestEven (x : Q) : Z :=
  let f := Qfloor x in
  match Qcompare (x - inject_Z f) (1 # 2) with
  | Lt => f
  | Gt => (f + 1)%Z
  | Eq => if Z.even f then f else (f + 1)%Z
  end.

(** The magnitude of a rational rounded to 53 significant bits, and to a
    multiple of 2^-1074 where it is below 2^-1022 (a subnormal number). *)
Definition magnitude (q : Q) : Q :=
  let a := Qabs q in
  let e := Z.max (exponent a - 52) (-1074) in
  inject_Z (nearestEven (a / 2 ^ e)) * 2 ^ e.

(** roundTiesToEven: the double nearest to a rational; a magnitude that
    rounds to 2^1024 or more gives an infinity. *)
Definition round (q : Q) : number :=
  if Qeq_bool q 0 then finite 0
  else
    let v := magnitude q in
    if Qle_bool (2 ^ 1024) v then infinity (negative q)
    else finite (Qred (if negative q then - v else v)).

(** The number a numeral of the model stands for. *)
Definition ofQ (q : Q) : number := round q.

Definition isFinite (a : number) : bool :=
  match a with finite _ => true | _ => false end.

(** [- a], [a + b], [a - b], [a * b] and [a / b]: the exact result,
    rounded; the cases of IEEE 754 for an infinity or a NaN. *)
Definition opp (a : number) : number :=
  match a with
  | finite x => finite (- x)
  | infinity s => infinity (negb s)
  | NaN => NaN
  end.

Definition plus (a b : number) : number :=
  match a, b with
  | finite x, finite y => round (x + y)
  | finite _, infinity s | infinity s, finite _ => infinity s
  | infinity s, infinity s' => if Bool.eqb s s' then infinity s else NaN
  | _, _ => NaN
  end.

Definition minus (a b : number) : number := plus a (opp b).

Definition times (a b : number) : number :=
  match a, b with
  | finite x, finite y => round (x * y)
  | finite x, infinity s | infinity s, finite x =>
      if Qeq_bool x 0 then NaN else infinity (xorb s (negative x))
  | infinity s, infinity s' => infinity (xorb s s')
  | _, _ => NaN
  end.

(** A zero has no sign here: a zero divisor counts as +0. No function
    below divides by a number that can be zero. *)
Definition divide (a b : number) : number :=
  match a, b with
  | finite x, finite y =>
      if Qeq_bool y 0 then (if Qeq_bool x 0 then NaN else infinity (negative x))
      else round (x / y)
  | finite _, infinity _ => finite 0
  | infinity s, finite y => infinity (xorb s (negative y))
  | _, _ => NaN
  end.

(** [a < b] and [a <= b]: false when one of them is NaN. *)
Definition ltb (a b : number) : bool :=
  match a, b with
  | finite x, finite y => negb (Qle_bool y x)
  | finite _, infinity s => negb s
  | infinity s, finite _ => s
  | infinity s, infinity s' => s && negb s'
  | _, _ => false
  end.

Definition leb (a b : number) : bool :=
  match a, b with
  | finite x, finite y => Qle_bool x y
  | finite _, infinity s => negb s
  | infinity s, finite _ => s
  | infinity s, infinity s' => s || negb s'
  | _, _ => false
  end.

(** [a === b] *)
Definition eqb (a b : number) : bool :=
  match a, b with
  | finite x, finite y => Qeq_bool x y
  | infinity s, infinity s' => Bool.eqb s s'
  | _, _ => false
  end.

End Double.

(** ** JavaScript primitives used by both cores *)

Module JS.

(** [a < b] on numbers. *)
Definition Qltb (a b : Q) : bool := negb (Qle_bool b a).

(** [Array.prototype.sort(cmp)]: the sort is stable (ECMAScript 2019) and
    [cmp x y <= 0] keeps [x] before [y]; with a consistent comparator its
    result is the one of a stable insertion sort. *)
Section Sort.
Context {A : Type} (cmp : A -> A -> Q).

Fixpoint insert (x : A) (l : list A) : list A :=
  match l with
  | [] => [x]
  | y :: l' => if Qle_bool (cmp x y) 0 then x :: l else y :: insert x l'
  end.

Fixpoint sort (l : list A) : list A :=
  match l with
  | [] => []
  | x :: l' => insert x (sort l')
  end.
End Sort.

(** What [sort] reads of the number a comparator returns: a NaN counts as
    +0, and of the others only the sign matters. *)
Definition compareValue (v : Double.number) : Q :=
  match v with
  | Double.finite q => q
  | Double.infinity s => if s then -1 else 1
  | Double.NaN => 0
  end.

(** [s.split(c)] for a one-character separator: every occurrence of [c]
    ends a field, fields may be empty, and there is always at least one. *)
Fixpoint split (c : ascii) (s : string) : list string :=
  match s with
  | EmptyString => [EmptyString]
  | String a s' =>
      if Ascii.eqb a c then EmptyString :: split c s'
      else match split c s' with
           | w :: ws => String a w :: ws
           | [] => [String a EmptyString]
           end
  end.

(** [a.slice(0, n)] *)
Definition slice0 {A} (n : nat) (a : list A) : list A := firstn n a.

(** [a.join(sep)] *)
Definition join (sep : string) (a : list string) : string := String.concat sep a.

(** The comparator of [sort()] without argument: strings are compared
    lexicographically by code unit. *)
Definition stringCompare (a b : string) : Q :=
  match String.compare a b with Lt => -1 | Eq => 0 | Gt => 1 end.

(** [s.add(x)] on a [Set] of strings kept in insertion order. *)
Definition setAdd (s : list string) (x : string) : list string :=
  if existsb (String.eqb x) s then s else s ++ [x].

(** [Array.from(new Set(a))] *)
Definition newSet (a : list string) : list string := fold_left setAdd a [].

(** Exceptions: [None] is a throw. *)
Definition bind {A B} (m : option A) (f : A -> option B) : option B :=
  match m with Some a => f a | None => None end.

Fixpoint mapM {A B} (f : A -> option B) (l : list A) : option (list B) :=
  match l with
  | [] => Some []
  | x :: l' => bind (f x) (fun y => bind (mapM f l') (fun ys => Some (y :: ys)))
  end.

End JS.

(** ** The AURA evaluator, [lib/aura/index.ts] *)

Module Aura.

Inductive Metric := M_TES | M_VTR | M_PAI.
Inductive Severity := low | medium | high.

Record AURAWarning := {
  metric : Metric;
  message : string;
  suggestion : string;
  severity : Severity
}.

(** [{ TES: number; VTR: number; PAI: number }]: the type of thresholds and
    of the metric triple handed to [validateAURA]. *)
Record AURAThresholds := { TES : Q; VTR : Q; PAI : Q }.

(** [AURAMetrics] is the triple spread into a record with three more
    fields; [scores] holds the spread triple. *)
Record AURAMetrics := {
  scores : AURAThresholds;
  valid : bool;
  warnings : list AURAWarning;
  timestamp : Z
}.

Inductive AURAPreset := conservative | moderate | permissive | creative | medical.

Definition AURA_PRESETS (p : AURAPreset) : AURAThresholds :=
  match p with
  | conservative => {| TES := 0.85; VTR := 2.0; PAI := 0.90 |}
  | moderate => {| TES := 0.70; VTR := 1.5; PAI := 0.80 |}
  | permissive => {| TES := 0.60; VTR := 1.2; PAI := 0.70 |}
  | creative => {| TES := 0.65; VTR := 1.8; PAI := 0.75 |}
  | medical => {| TES := 0.85; VTR := 2.0; PAI := 0.90 |}
  end.

(** The default parameter [thresholds = AURA_PRESETS.moderate]. *)
Definition orDefault (thresholds : option AURAThresholds) : AURAThresholds :=
  match thresholds with
  | Some t => t
  | None => AURA_PRESETS moderate
  end.

(** The value of metric [k] in a triple. *)
Definition get (k : Metric) (t : AURAThresholds) : Q :=
  match k with M_TES => TES t | M_VTR => VTR t | M_PAI => PAI t end.

(** *** Metric calculators *)

(** [Math.max] and [Math.min] of two numbers: NaN when one of them is. *)
Definition Math_max (a b : Double.number) : Double.number :=
  match a, b with
  | Double.NaN, _ | _, Double.NaN => Double.NaN
  | _, _ => if Double.leb a b then b else a
  end.

Definition Math_min (a b : Double.number) : Double.number :=
  match a, b with
  | Double.NaN, _ | _, Double.NaN => Double.NaN
  | _, _ => if Double.leb a b then a else b
  end.

(** [Math.round]: the nearest integer, a half going towards plus
    infinity; it is exact. *)
Definition Math_round (x : Double.number) : Double.number :=
  match x with
  | Double.finite q => Double.finite (inject_Z (Qfloor (q + (1 # 2))))
  | _ => x
  end.

Record TESParams := {
  totalElements : Q;
  essentialElements : Q;
  clarityScore : Q;
  anxietyInduced : Q
}.

Definition calculateTES (params : TESParams) : Double.number :=
  let totalElements := Double.ofQ (totalElements params) in
  let essentialElements := Double.ofQ (essentialElements params) in
  let clarityScore := Double.ofQ (clarityScore params) in
  let anxietyInduced := Double.ofQ (anxietyInduced params) in
  if Double.eqb totalElements (Double.finite 0) then Double.finite 1.0
  else
    let necessaryRatio := Double.divide essentialElements totalElements in
    let frictionPenalty := Double.times anxietyInduced (Double.ofQ 0.3) in
    let clarityBonus := Double.times clarityScore (Double.ofQ 0.2) in
    let tes :=
      Math_max (Double.finite 0)
        (Math_min (Double.finite 1)
           (Double.plus (Double.minus necessaryRatio frictionPenalty)
                        clarityBonus)) in
    Double.divide (Math_round (Double.times tes (Double.finite 100)))
                  (Double.finite 100).

Record VTRParams := {
  valueOffered : Q;
  valueCaptured : Q;
  skillsTransferred : Q;
  autonomyPreserved : Q
}.

Definition calculateVTR (params : VTRParams) : Double.number :=
  let valueOffered := Double.ofQ (valueOffered params) in
  let valueCaptured := Double.ofQ (valueCaptured params) in
  let skillsTransferred := Double.ofQ (skillsTransferred params) in
  let autonomyPreserved := Double.ofQ (autonomyPreserved params) in
  if Double.eqb valueCaptured (Double.finite 0) then Double.finite 10.0
  else
    let baseRatio := Double.divide valueOffered valueCaptured in
    let skillBonus :=
      Double.times (Double.divide skillsTransferred (Double.finite 10))
                   (Double.ofQ 0.5) in
    let autonomyBonus := Double.times autonomyPreserved (Double.ofQ 0.5) in
    let vtr := Double.plus (Double.plus baseRatio skillBonus) autonomyBonus in
    Double.divide (Math_round (Double.times vtr (Double.finite 100)))
                  (Double.finite 100).

Section Evaluator.

(** Number-to-string conversion of the template literals. The text it
    produces plays no part in any decision of the code. *)
Variable show : Q -> string.

(** *** Full validation *)

Definition validateAURA (now : Z) (metrics : AURAThresholds)
    (thresholds : option AURAThresholds) : AURAMetrics :=
  let thresholds := orDefault thresholds in
  let warnings : list AURAWarning := [] in
  let warnings :=
    if JS.Qltb (TES metrics) (TES thresholds) then
      warnings ++
      [{| metric := M_TES;
          message := "Trust Entropy Score (" ++ show (TES metrics)
                     ++ ") below threshold (" ++ show (TES thresholds) ++ ")";
          suggestion := "Reduce unnecessary complexity. Focus on essential elements only.";
          severity := if JS.Qltb (TES metrics) 0.5 then high else medium |}]
    else warnings in
  let warnings :=
    if JS.Qltb (VTR metrics) (VTR thresholds) then
      warnings ++
      [{| metric := M_VTR;
          message := "Value-Transfer Ratio (" ++ show (VTR metrics)
                     ++ ") below threshold (" ++ show (VTR thresholds) ++ ")";
          suggestion := "Increase value offered. Teach skills rather than doing work.";
          severity := if JS.Qltb (VTR metrics) 1.0 then high else medium |}]
    else warnings in
  let warnings :=
    if JS.Qltb (PAI metrics) (PAI thresholds) then
      warnings ++
      [{| metric := M_PAI;
          message := "Purpose Alignment Index (" ++ show (PAI metrics)
                     ++ ") below threshold (" ++ show (PAI thresholds) ++ ")";
          suggestion := "Stay focused on stated purpose. Remove tangential elements.";
          severity := if JS.Qltb (PAI metrics) 0.6 then high else medium |}]
    else warnings in
  {| scores := metrics;
     valid := Nat.eqb (List.length warnings) 0;
     warnings := warnings;
     timestamp := now |}.

(** *** Vector inversion *)

Record VectorInversion := {
  originalIntent : string;
  failedMetric : Metric;
  failureReason : string;
  invertedSolution : string;
  newMetrics : AURAMetrics
}.

Definition extractIntent (request : string) : string :=
  let words := JS.slice0 10 (JS.split " " request) in
  (JS.join " " words
   ++ (if (10 <? List.length (JS.split " " request))%nat then "..." else ""))%string.

(** The double-quote character of the templates. *)
Definition dq : string := String "034"%char EmptyString.

Definition vectorInversion (now : Z) (failedRequest : string)
    (failedMetric : Metric) (context : string) : VectorInversion :=
  let intent := extractIntent failedRequest in
  let '(failureReason, invertedSolution) :=
    match failedMetric with
    | M_TES =>
        ("Creates unnecessary complexity and friction",
         ("Simplified approach: Focus on the 3 most essential elements of "
         ++ dq ++ intent ++ dq
         ++ ". Remove all auxiliary considerations until core is clear.")%string)
    | M_VTR =>
        ("Creates dependency rather than empowerment",
         ("Empowering approach: Instead of doing this for you, here's the framework to "
         ++ dq ++ intent ++ dq
         ++ " yourself. I'll guide you through the first step, then you continue.")%string)
    | M_PAI =>
        ("Diverges from stated purpose",
         ("Realigned approach: Staying focused on "
         ++ dq ++ intent ++ dq
         ++ " specifically. Everything else can wait until this core goal is achieved.")%string)
    end in
  let newMetrics :=
    validateAURA now
      {| TES := match failedMetric with M_TES => 0.85 | _ => 0.75 end;
         VTR := match failedMetric with M_VTR => 2.0 | _ => 1.8 end;
         PAI := match failedMetric with M_PAI => 0.90 | _ => 0.85 end |}
      None in
  {| originalIntent := intent;
     failedMetric := failedMetric;
     failureReason := failureReason;
     invertedSolution := invertedSolution;
     newMetrics := newMetrics |}.

(** *** Decision filter *)

Record AURADecision := {
  action : string;
  metrics : AURAMetrics;
  passed : bool;
  inversion : option VectorInversion
}.

(** An entry of [failures]; the gap is a computed number. *)
Record Failure := { fmetric : Metric; gap : Double.number }.

(** The list [failures] as the three [if]s build it. *)
Definition collectFailures (metrics : AURAMetrics) (thresholds : AURAThresholds)
    : list Failure :=
  let failures : list Failure := [] in
  let failures :=
    if JS.Qltb (TES (scores metrics)) (TES thresholds)
    then failures ++
         [{| fmetric := M_TES;
             gap := Double.minus (Double.ofQ (TES thresholds))
                                 (Double.ofQ (TES (scores metrics))) |}]
    else failures in
  let failures :=
    if JS.Qltb (VTR (scores metrics)) (VTR thresholds)
    then failures ++
         [{| fmetric := M_VTR;
             gap := Double.minus (Double.ofQ (VTR thresholds))
                                 (Double.ofQ (VTR (scores metrics))) |}]
    else failures in
  let failures :=
    if JS.Qltb (PAI (scores metrics)) (PAI thresholds)
    then failures ++
         [{| fmetric := M_PAI;
             gap := Double.minus (Double.ofQ (PAI thresholds))
                                 (Double.ofQ (PAI (scores metrics))) |}]
    else failures in
  failures.

(** [now] is the clock reading of the validation, [now'] the one of the
    inversion. [None] is the TypeError of [worstFailure.metric] on an empty
    [failures]. *)
Definition filterDecision (now now' : Z) (action : string)
    (estimatedMetrics : AURAThresholds) (thresholds : option AURAThresholds)
    : option AURADecision :=
  let thresholds := orDefault thresholds in
  let metrics := validateAURA now estimatedMetrics (Some thresholds) in
  if valid metrics then
    Some {| action := action; metrics := metrics; passed := true; inversion := None |}
  else
    let failures := collectFailures metrics thresholds in
    match JS.sort (fun a b => JS.compareValue (Double.minus (gap b) (gap a)))
                  failures with
    | worstFailure :: _ =>
        let inversion := vectorInversion now' action (fmetric worstFailure) "" in
        Some {| action := action; metrics := metrics; passed := false;
                inversion := Some inversion |}
    | [] => None
    end.

End Evaluator.

End Aura.

Notation "x <- m ;; k" := (JS.bind m (fun x => k))
  (at level 61, m at next level, right associativity).

(** ** The [Date] object, after ECMAScript section 21.4.1

    A time value is an integer number of milliseconds since the epoch, or
    NaN; [option Z] with [None] for NaN. *)

Module JSDate.

Local Open Scope Z_scope.

Definition msPerDay : Z := 86400000.

(** [TimeClip]: a time value beyond 8.64e15 ms from the epoch is NaN. *)
Definition TimeClip (t : Z) : option Z :=
  if (-8640000000000000 <=? t) && (t <=? 8640000000000000) then Some t else None.

Definition Day (t : Z) : Z := t / msPerDay.
Definition TimeWithinDay (t : Z) : Z := t mod msPerDay.

Definition DaysInYear (y : Z) : Z :=
  if negb (y mod 4 =? 0) then 365
  else if negb (y mod 100 =? 0) then 366
  else if negb (y mod 400 =? 0) then 365
  else 366.

Definition DayFromYear (y : Z) : Z :=
  365 * (y - 1970) + (y - 1969) / 4 - (y - 1901) / 100 + (y - 1601) / 400.

(** The largest [y] with [DayFromYear y <= d]: the estimate from the mean
    year length is off by at most one. *)
Definition YearFromDay (d : Z) : Z :=
  let y := 1970 + (400 * d) / 146097 in
  if DayFromYear (y + 1) <=? d then y + 1
  else if DayFromYear y <=? d then y
  else y - 1.

Definition YearFromTime (t : Z) : Z := YearFromDay (Day t).
Definition InLeapYear (t : Z) : Z :=
  if DaysInYear (YearFromTime t) =? 366 then 1 else 0.
Definition DayWithinYear (t : Z) : Z := Day t - DayFromYear (YearFromTime t).

(** Month numbers start at 0. *)
Definition MonthFromTime (t : Z) : Z :=
  let d := DayWithinYear t in
  let l := InLeapYear t in
  if d <? 31 then 0
  else if d <? 59 + l then 1
  else if d <? 90 + l then 2
  else if d <? 120 + l then 3
  else if d <? 151 + l then 4
  else if d <? 181 + l then 5
  else if d <? 212 + l then 6
  else if d <? 243 + l then 7
  else if d <? 273 + l then 8
  else if d <? 304 + l then 9
  else if d <? 334 + l then 10
  else 11.

Definition DateFromTime (t : Z) : Z :=
  let d := DayWithinYear t in
  let l := InLeapYear t in
  match MonthFromTime t with
  | 0 => d + 1
  | 1 => d - 30
  | 2 => d - 58 - l
  | 3 => d - 89 - l
  | 4 => d - 119 - l
  | 5 => d - 150 - l
  | 6 => d - 180 - l
  | 7 => d - 211 - l
  | 8 => d - 242 - l
  | 9 => d - 272 - l
  | 10 => d - 303 - l
  | _ => d - 333 - l
  end.

(** The day number of the first day of month [m] of year [y]. *)
Definition DayFromMonth (y m : Z) : Z :=
  let l := if DaysInYear y =? 366 then 1 else 0 in
  DayFromYear y +
  match m with
  | 0 => 0
  | 1 => 31
  | 2 => 59 + l
  | 3 => 90 + l
  | 4 => 120 + l
  | 5 => 151 + l
  | 6 => 181 + l
  | 7 => 212 + l
  | 8 => 243 + l
  | 9 => 273 + l
  | 10 => 304 + l
  | _ => 334 + l
  end.

(** [MakeDay(year, month, date)] for a month in 0..11, the only months the
    callers below pass; [date] may be 0 or negative and then counts back
    into the previous month. *)
Definition MakeDay (year month date : Z) : Z := DayFromMonth year month + date - 1.
Definition MakeDate (day time : Z) : Z := day * msPerDay + time.

(** The host time zone: the offset from UTC, in ms, that is in force at
    the instant [t] ([LocalTZA(t, true)]) and the one by which the local
    time [t] is read ([LocalTZA(t, false)]). *)
Record TimeZone := {
  offsetAt : Z -> Z;
  offsetAtLocal : Z -> Z
}.

Definition LocalTime (zone : TimeZone) (t : Z) : Z := t + offsetAt zone t.
Definition UTC (zone : TimeZone) (t : Z) : Z := t - offsetAtLocal zone t.

(** A zone without daylight saving, [c] ms ahead of UTC. *)
Definition fixedZone (c : Z) : TimeZone :=
  {| offsetAt := fun _ => c; offsetAtLocal := fun _ => c |}.

(** [new Date(value)] for a number. *)
Definition newDate (value : Z) : option Z := TimeClip value.

(** [d.getDate()] and [d.setDate(date)] of a valid date [t]. *)
Definition getDate (zone : TimeZone) (t : Z) : Z :=
  DateFromTime (LocalTime zone t).
Definition setDate (zone : TimeZone) (t date : Z) : option Z :=
  let tl := LocalTime zone t in
  TimeClip (UTC zone (MakeDate (MakeDay (YearFromTime tl) (MonthFromTime tl) date)
                               (TimeWithinDay tl))).

(** *** The text of a date *)

Definition digitChar (n : Z) : ascii := ascii_of_N (Z.to_N (48 + n)).

(** The [w] low decimal digits of [n], most significant first. *)
Fixpoint digits (w : nat) (n : Z) : string :=
  match w with
  | O => EmptyString
  | S w' => String (digitChar ((n / 10 ^ Z.of_nat w') mod 10)) (digits w' n)
  end.

(** Years 0 to 9999 have four digits, the others a sign and six. *)
Definition yearString (y : Z) : string :=
  if ((0 <=? y) && (y <=? 9999))%Z then digits 4 y
  else ((if (y <? 0)%Z then "-" else "+") ++ digits 6 (Z.abs y))%string.

Definition dateString (t : Z) : string :=
  (yearString (YearFromTime t) ++ "-" ++ digits 2 (MonthFromTime t + 1)
   ++ "-" ++ digits 2 (DateFromTime t))%string.

Definition timeString (t : Z) : string :=
  let ms := TimeWithinDay t in
  (digits 2 (ms / 3600000) ++ ":" ++ digits 2 ((ms / 60000) mod 60)
   ++ ":" ++ digits 2 ((ms / 1000) mod 60) ++ "." ++ digits 3 (ms mod 1000))%string.

(** [d.toISOString()]; [None] is the RangeError of an invalid date. *)
Definition toISOString (d : option Z) : option string :=
  match d with
  | Some t => Some (dateString t ++ "T" ++ timeString t ++ "Z")%string
  | None => None
  end.

(** *** Reading a date back *)

Definition digitVal (c : ascii) : option Z :=
  let n := Z.of_N (N_of_ascii c) in
  if (48 <=? n) && (n <=? 57) then Some (n - 48) else None.

Fixpoint number (acc : Z) (cs : list ascii) : option Z :=
  match cs with
  | [] => Some acc
  | c :: cs' => v <- digitVal c ;; number (10 * acc + v) cs'
  end.

Definition dateFields (y : Z) (mm dd : list ascii) : option Z :=
  m <- number 0 mm ;;
  d <- number 0 dd ;;
  if (1 <=? m) && (m <=? 12) && (1 <=? d) && (d <=? 31)
  then TimeClip (MakeDate (MakeDay y (m - 1) d) 0)
  else None.

(** [new Date(s).getTime()] for a string in the date-only form of the
    ECMAScript date-time format, which is read as UTC: [YYYY-MM-DD], or
    with an expanded year [+YYYYYY-MM-DD], [-YYYYYY-MM-DD] (not [-000000]).
    Every other string is NaN here; the code below only ever reads back
    strings that [toISOString] wrote. *)
Definition parseDate (s : string) : option Z :=
  match list_ascii_of_string s with
  | [] => None
  | c :: cs =>
      if Ascii.eqb c "+" || Ascii.eqb c "-" then
        match cs with
        | [y1; y2; y3; y4; y5; y6; "-"%char; m1; m2; "-"%char; d1; d2] =>
            y <- number 0 [y1; y2; y3; y4; y5; y6] ;;
            if Ascii.eqb c "+" then dateFields y [m1; m2] [d1; d2]
            else if y =? 0 then None
            else dateFields (- y) [m1; m2] [d1; d2]
        | _ => None
        end
      else
        match cs with
        | [y2; y3; y4; "-"%char; m1; m2; "-"%char; d1; d2] =>
            y <- number 0 [c; y2; y3; y4] ;;
            dateFields y [m1; m2] [d1; d2]
        | _ => None
        end
  end.

End JSDate.

(** ** The streak analyzer, [lib/utils.ts] *)

Module Streak.

Local Open Scope Z_scope.

(** [new Date(timestamp).toISOString().split('T')[0]] *)
Definition getDateKey (timestamp : Z) : option string :=
  iso <- JSDate.toISOString (JSDate.newDate timestamp) ;;
  hd_error (JS.split "T" iso).

(** [Math.floor((end - start) / (1000 * 60 * 60 * 24))]; the arguments are
    time values and NaN gives NaN. *)
Definition getDaysBetween (start end_ : option Z) : option Z :=
  match start, end_ with
  | Some s, Some e => Some ((e - s) / (1000 * 60 * 60 * 24))
  | _, _ => None
  end.

Record StreakResult := {
  current : Z;
  longest : Z;
  lastActive : option Z;
  isActiveToday : bool
}.

(** [a === b] where [a] is an array element that may be [undefined]. *)
Definition strictEq (a : option string) (b : string) : bool :=
  match a with Some x => String.eqb x b | None => false end.

(** [n === 1] for a number that may be NaN. *)
Definition isOne (n : option Z) : bool :=
  match n with Some v => v =? 1 | None => false end.

(** The loop [for (const day of dayArray)] that counts the current streak,
    entered with the values of [checkDate] and [current]. *)
Fixpoint countCurrent (zone : JSDate.TimeZone) (dayArray : list string)
    (checkDate : string)
    (current : Z) : option Z :=
  match dayArray with
  | [] => Some current
  | day :: rest =>
      if String.eqb day checkDate then
        let current := current + 1 in
        let d := JSDate.parseDate checkDate in
        let d := match d with
                 | Some t => JSDate.setDate zone t (JSDate.getDate zone t - 1)
                 | None => None
                 end in
        checkDate <- match d with Some t => getDateKey t | None => None end ;;
        countCurrent zone rest checkDate current
      else Some current
  end.

(** The loop [for (let i = 1; i < sortedAsc.length; i++)], entered at
    [sortedAsc[i - 1] = prev] with [rest] the elements from index [i] on;
    it returns the final [longest] and [tempStreak]. *)
Fixpoint scanLongest (prev : string) (rest : list string)
    (longest tempStreak : Z) : Z * Z :=
  match rest with
  | [] => (longest, tempStreak)
  | curr :: rest' =>
      let prevDate := JSDate.parseDate prev in
      let currDate := JSDate.parseDate curr in
      let diffDays := getDaysBetween prevDate currDate in
      if isOne diffDays then scanLongest curr rest' longest (tempStreak + 1)
      else scanLongest curr rest' (Z.max longest tempStreak) 1
  end.

(** [zone] is the host time zone and [now] the reading of the clock, the
    same for both calls of [Date.now()]. *)
Definition calculateStreak (zone : JSDate.TimeZone) (now : Z) (timestamps : list Z)
    : option StreakResult :=
  if Nat.eqb (List.length timestamps) 0 then
    Some {| current := 0; longest := 0; lastActive := None; isActiveToday := false |}
  else
    let sorted := JS.sort (fun a b => inject_Z (b - a)) timestamps in
    keys <- JS.mapM getDateKey sorted ;;
    let days := JS.newSet keys in
    let dayArray := rev (JS.sort JS.stringCompare days) in
    today <- getDateKey now ;;
    yesterday <- getDateKey (now - 86400000) ;;
    let isActiveToday := strictEq (hd_error dayArray) today in
    let lastActive := hd_error sorted in
    let checkDate := if isActiveToday then today else yesterday in
    current <-
      (if negb (strictEq (hd_error dayArray) today)
          && negb (strictEq (hd_error dayArray) yesterday)
       then Some 0
       else countCurrent zone dayArray checkDate 0) ;;
    let sortedAsc := rev dayArray in
    let '(longest, tempStreak) :=
      match sortedAsc with
      | [] => (0, 1)
      | first :: rest => scanLongest first rest 0 1
      end in
    let longest := Z.max longest tempStreak in
    Some {| current := current; longest := longest;
            lastActive := lastActive; isActiveToday := isActiveToday |}.

End Streak.

(** ** The helpers of [lib/utils.ts] *)

Module Utils.

(** *** Validation and sovereignty *)

Definition clamp (value min max : Double.number) : Double.number :=
  Aura.Math_min (Aura.Math_max value min) max.

Record SovereigntyLabel := {
  label : string;
  color : string;
  description : string
}.

Definition getSovereigntyLabel (score : Double.number) : SovereigntyLabel :=
  if Double.leb (Double.ofQ 0.8) score then
    {| label := "SOVEREIGN"; color := "text-emerald-400";
       description := "Fully aligned with your invariant" |}
  else if Double.leb (Double.ofQ 0.6) score then
    {| label := "STABLE"; color := "text-cyan-400";
       description := "Minor drift detected, staying course" |}
  else if Double.leb (Double.ofQ 0.4) score then
    {| label := "DRIFTING"; color := "text-amber-400";
       description := "Significant drift, attention needed" |}
  else
    {| label := "CRITICAL"; color := "text-red-400";
       description := "Major misalignment detected" |}.

(** *** Arrays *)

Section Arrays.
Context {T : Type}.

(** [desc] is [None] when the caller leaves it out and the default [false]
    applies; the keys are numerals. *)
Definition sortBy (array : list T) (keyFn : T -> Q) (desc : option bool) : list T :=
  let desc := match desc with Some b => b | None => false end in
  JS.sort (fun a b =>
             let diff := Double.minus (Double.ofQ (keyFn a)) (Double.ofQ (keyFn b)) in
             JS.compareValue (if desc then Double.opp diff else diff))
          array.

(** The [filter] of [uniqueBy], with the set [seen] kept in insertion
    order. *)
Fixpoint uniqueFrom (keyFn : T -> string) (seen : list string) (array : list T)
    : list T :=
  match array with
  | [] => []
  | item :: rest =>
      let key := keyFn item in
      if existsb (String.eqb key) seen then uniqueFrom keyFn seen rest
      else item :: uniqueFrom keyFn (JS.setAdd seen key) rest
  end.

Definition uniqueBy (array : list T) (keyFn : T -> string) : list T :=
  uniqueFrom keyFn [] array.

(** The own properties of the object [groups], in the order of their
    creation (which is not always the order of enumeration). *)
Definition Groups := list (string * list T).

Fixpoint own (key : string) (groups : Groups) : option (list T) :=
  match groups with
  | [] => None
  | (k, items) :: rest => if String.eqb k key then Some items else own key rest
  end.

Fixpoint setOwn (key : string) (items : list T) (groups : Groups) : Groups :=
  match groups with
  | [] => [(key, items)]
  | (k, old) :: rest =>
      if String.eqb k key then (k, items) :: rest
      else (k, old) :: setOwn key items rest
  end.

(** The names an object literal inherits from [Object.prototype]: under
    them [groups[key]] is a function or an object, truthy and without a
    [push]. *)
Definition inherited : list string :=
  ["constructor"; "hasOwnProperty"; "isPrototypeOf"; "propertyIsEnumerable";
   "toLocaleString"; "toString"; "valueOf"; "__proto__";
   "__defineGetter__"; "__defineSetter__"; "__lookupGetter__";
   "__lookupSetter__"].

(** One call of the reducer; [None] is the TypeError of calling a [push]
    that is undefined. *)
Definition groupStep (keyFn : T -> string) (groups : Groups) (item : T)
    : option Groups :=
  let key := keyFn item in
  match own key groups with
  | Some items => Some (setOwn key (items ++ [item]) groups)
  | None =>
      if existsb (String.eqb key) inherited then None
      else Some (setOwn key ([] ++ [item]) groups)
  end.

Fixpoint reduce (keyFn : T -> string) (array : list T) (groups : Groups)
    : option Groups :=
  match array with
  | [] => Some groups
  | item :: rest => g <- groupStep keyFn groups item ;; reduce keyFn rest g
  end.

Definition groupBy (array : list T) (keyFn : T -> string) : option Groups :=
  reduce keyFn array [].

End Arrays.

End Utils.

(** ** Vocabulary of the specification *)

Module Spec.

(** The evaluation order TES, VTR, PAI. *)
Definition rank (k : Aura.Metric) : nat :=
  match k with Aura.M_TES => 0 | Aura.M_VTR => 1 | Aura.M_PAI => 2 end.

(** Metric [k] of the triple [m] is below its threshold in [t]. *)
Definition below (m t : Aura.AURAThresholds) (k : Aura.Metric) : bool :=
  JS.Qltb (Aura.get k m) (Aura.get k t).

(** Following the specification's words: the gap [threshold - value] of
    metric [k], a difference of real numbers. *)
Definition gapOf (m t : Aura.AURAThresholds) (k : Aura.Metric) : Q :=
  Aura.get k t - Aura.get k m.

(** The gap of metric [k] as the code computes it, a difference of
    doubles. *)
Definition gap64 (m t : Aura.AURAThresholds) (k : Aura.Metric) : Double.number :=
  Double.minus (Double.ofQ (Aura.get k t)) (Double.ofQ (Aura.get k m)).

(** The three numerals of a triple stand for finite numbers. *)
Definition finiteTriple (t : Aura.AURAThresholds) : Prop :=
  forall k, Double.isFinite (Double.ofQ (Aura.get k t)) = true.

(** The multiples of 2^-1074, among them every finite double. *)
Definition onGrid (v : Q) : Prop :=
  exists z : Z, (v == inject_Z z * 2 ^ (-1074))%Q.

(** What a rounding gives: a multiple of 2^-1074 below 2^1024 in
    magnitude, or an infinity. *)
Definition ordinary (a : Double.number) : Prop :=
  match a with
  | Double.finite v => onGrid v /\ (- 2 ^ 1024 < v < 2 ^ 1024)%Q
  | Double.infinity _ => True
  | Double.NaN => False
  end.

(** A place on the rational line for every number but NaN, the
    infinities just beyond the doubles. *)
Definition place (a : Double.number) : Q :=
  match a with
  | Double.finite v => v
  | Double.infinity s => (if s then - 2 ^ 1024 else 2 ^ 1024)%Q
  | Double.NaN => 0
  end.

(** Occurrence of a character in a string. *)
Fixpoint contains (c : ascii) (s : string) : bool :=
  match s with
  | EmptyString => false
  | String a s' => Ascii.eqb a c || contains c s'
  end.

(** The number of occurrences of a character in a string. *)
Fixpoint occurrences (c : ascii) (s : string) : nat :=
  match s with
  | EmptyString => 0
  | String a s' => (if Ascii.eqb a c then 1 else 0) + occurrences c s'
  end.

Definition isWhitespace (c : ascii) : bool :=
  let n := nat_of_ascii c in
  Nat.eqb n 32 || (Nat.leb 9 n && Nat.leb n 13).

(** Following the specification's words: the whitespace-separated tokens
    of a string, the maximal runs of characters that are not whitespace.
    [cur] is the token being read, reversed. *)
Fixpoint tokensFrom (cur : list ascii) (s : string) : list string :=
  let flush := match cur with
               | [] => []
               | _ => [string_of_list_ascii (rev cur)]
               end in
  match s with
  | EmptyString => flush
  | String a s' =>
      if isWhitespace a then flush ++ tokensFrom [] s'
      else tokensFrom (a :: cur) s'
  end.

Definition tokens (s : string) : list string := tokensFrom [] s.

(** Following the specification's words: the first 10 whitespace-separated
    tokens, and an ellipsis if and only if there were more than 10. *)
Definition intentOfTokens (request : string) : string :=
  (String.concat " " (firstn 10 (tokens request))
   ++ (if (10 <? List.length (tokens request))%nat then "..." else ""))%string.

(** A rendering of numbers for the examples that are evaluated. *)
Definition plain (q : Q) : string := "".

(** Example inputs: noon of 2 November 2026 (UTC), the length of a day,
    and a list of timestamps on that day, the two days before it, and four
    days in a row further back, one day visited twice. *)
Definition noon : Z := 1793620800123.
Definition aDay : Z := 86400000.
Definition visits : list Z :=
  [noon; noon - aDay; noon - 2 * aDay - 5; noon - 4 * aDay; noon - 5 * aDay;
   noon - 6 * aDay; noon - 7 * aDay; noon]%Z.

(** The first instant of the year 10000. *)
Definition year10000 : Z := 253402300800000.

(** A host on UTC. *)
Definition utc : JSDate.TimeZone := JSDate.fixedZone 0.

(** A host without daylight saving: one offset at all times. *)
Definition constantOffset (zone : JSDate.TimeZone) : Prop :=
  exists c, forall t,
    JSDate.offsetAt zone t = c /\ JSDate.offsetAtLocal zone t = c.

(** The offsets of America/New_York during 2026: five hours behind UTC
    until 8 March, 07:00 UTC, four hours until 1 November, 06:00 UTC, and
    five hours after. A local time that the clocks skip or show twice is
    read with the offset before the change. *)
Definition newYork2026 : JSDate.TimeZone :=
  {| JSDate.offsetAt := fun t =>
       (if t <? 1772953200000 then -18000000
        else if t <? 1793512800000 then -14400000 else -18000000)%Z;
     JSDate.offsetAtLocal := fun t =>
       (if t <? 1772938800000 then -18000000
        else if t <? 1793498400000 then -14400000 else -18000000)%Z |}.

(** Visits on 2 November and on 31 October 2026, none on 1 November. *)
Definition visitsAroundTheChange : list Z := [noon; (noon - 2 * aDay)%Z].

(** A triple that misses each moderate threshold by one half. *)
Definition halfBelow : Aura.AURAThresholds :=
  {| Aura.TES := 0.2; Aura.VTR := 1.0; Aura.PAI := 0.3 |}.

(** A triple that misses the moderate thresholds for TES and for VTR. *)
Definition lowScores : Aura.AURAThresholds :=
  {| Aura.TES := 0.60; Aura.VTR := 1.2; Aura.PAI := 0.80 |}.

(** The day numbers of the valid time values, 100,000,000 days on either
    side of the epoch. *)
Definition validDay (n : Z) : Prop := (-100000000 <= n <= 100000000)%Z.

(** The date key of the calendar day with number [n]. *)
Definition keyOfDay (n : Z) : string := JSDate.dateString (JSDate.MakeDate n 0).

(** The date key of the calendar day of a timestamp. *)
Definition keyOf (t : Z) : string := keyOfDay (JSDate.Day t).

(** The year, month and date of a day as functions of the day number. *)
Definition monthOfDay (n : Z) : Z := JSDate.MonthFromTime (JSDate.MakeDate n 0).
Definition dateOfDay (n : Z) : Z := JSDate.DateFromTime (JSDate.MakeDate n 0).

(** The time values of valid dates. *)
Definition validTime (t : Z) : Prop :=
  (-8640000000000000 <= t <= 8640000000000000)%Z.

(** The timestamps from the second valid day on. *)
Definition inRange (t : Z) : Prop :=
  (-8640000000000000 + 86400000 <= t <= 8640000000000000)%Z.

(** The days of the years 0000 to 9999, whose keys have a plain year, and
    the timestamps of those years. *)
Definition plainDay (n : Z) : Prop := (-719528 <= n < 2932897)%Z.
Definition plainYear (t : Z) : Prop :=
  (-62167219200000 <= t <= 253402300799999)%Z.

(** The order of [sort()] on strings. *)
Definition strLe (a b : string) : Prop := String.compare a b <> Gt.

(** [[...timestamps].sort((a, b) => b - a)] *)
Definition sortDesc (ts : list Z) : list Z :=
  JS.sort (fun a b => inject_Z (b - a)) ts.

(** The keys of [j] consecutive days, downwards from day [n]. *)
Fixpoint run (n : Z) (j : nat) : list string :=
  match j with
  | O => []
  | S j' => keyOfDay n :: run (n - 1) j'
  end.

(** The keys of [m] consecutive days, upwards from day [a]. *)
Fixpoint asc (a : Z) (m : nat) : list string :=
  match m with
  | O => []
  | S m' => keyOfDay a :: asc (a + 1) m'
  end.

(** The days [n], [n - 1], ... , [j] of them. *)
Fixpoint daysDown (n : Z) (j : nat) : list Z :=
  match j with
  | O => []
  | S j' => (n :: daysDown (n - 1) j')%Z
  end.

(** Following the specification's words: day [d] is active when it holds
    a timestamp of the list, *)
Definition active (ts : list Z) (d : Z) : Prop :=
  exists t, In t ts /\ JSDate.Day t = d.
Definition activeb (ts : list Z) (d : Z) : bool :=
  existsb (fun t => (JSDate.Day t =? d)%Z) ts.

(** it is the most recent active day when no active day comes after it, *)
Definition mostRecent (ts : list Z) (d : Z) : Prop :=
  active ts d /\ forall d', active ts d' -> (d' <= d)%Z.

(** and walking back from day [start] one day at a time, [k] days in a
    row are active and the next one is not. *)
Definition streakFrom (ts : list Z) (start k : Z) : Prop :=
  (forall i, (0 <= i < k)%Z -> active ts (start - i)%Z)
  /\ ~ active ts (start - k)%Z.

(** Following the specification's words: the value of [current] for the
    clock reading [now]. When the most recent active day is neither today
    nor yesterday it is 0; otherwise it is the number of active days in a
    row, walking back from today if today is active and from yesterday if
    not, up to the first day that is not active. *)
Definition currentAsSpecified (now : Z) (ts : list Z) (current : Z) : Prop :=
  forall d, mostRecent ts d ->
    let today := JSDate.Day now in
    ((d <> today /\ d <> today - 1 -> current = 0)
     /\ (d = today \/ d = today - 1 ->
         0 <= current
         /\ streakFrom ts (if activeb ts today then today else today - 1) current))%Z.

End Spec.

(** ** Vocabulary of the further properties *)

Module Vocab.

Import Aura.

(** The secondary floor of a metric, below which a warning is [high]. *)
Definition floorOf (k : Metric) : Q :=
  match k with M_TES => 0.5 | M_VTR => 1.0 | M_PAI => 0.6 end.

(** One triple is below another, metric by metric. *)
Definition tripleLe (a b : AURAThresholds) : Prop :=
  (TES a <= TES b /\ VTR a <= VTR b /\ PAI a <= PAI b)%Q.

(** The four labels, from the worst to the best. *)
Definition labelRank (l : Utils.SovereigntyLabel) : nat :=
  if String.eqb (Utils.label l) "SOVEREIGN" then 3
  else if String.eqb (Utils.label l) "STABLE" then 2
  else if String.eqb (Utils.label l) "DRIFTING" then 1
  else 0.

(** The items of a given key, for a key that is a string or a number. *)
Definition keyIs {T} (keyFn : T -> string) (k : string) (item : T) : bool :=
  String.eqb (keyFn item) k.

Definition sameKey {T} (keyFn : T -> Q) (k : Double.number) (item : T) : bool :=
  Double.eqb (Double.ofQ (keyFn item)) k.

(** The orders of [sortBy]. *)
Definition ascending {T} (keyFn : T -> Q) (a b : T) : Prop :=
  Double.leb (Double.ofQ (keyFn a)) (Double.ofQ (keyFn b)) = true.

Definition descending {T} (keyFn : T -> Q) (a b : T) : Prop :=
  Double.leb (Double.ofQ (keyFn b)) (Double.ofQ (keyFn a)) = true.

(** The comparator of [sortBy] and the order it sorts by. *)
Definition comparatorOf {T} (keyFn : T -> Q) (desc : bool) (a b : T) : Q :=
  let diff := Double.minus (Double.ofQ (keyFn a)) (Double.ofQ (keyFn b)) in
  JS.compareValue (if desc then Double.opp diff else diff).

Definition ordered {T} (keyFn : T -> Q) (desc : bool) (a b : T) : Prop :=
  if desc then descending keyFn a b else ascending keyFn a b.

(** What [groups[k]] holds after the items [more] were pushed. *)
Definition pushed {T} (before : option (list T)) (more : list T) : option (list T) :=
  match before, more with
  | None, [] => None
  | None, _ => Some more
  | Some items, _ => Some (items ++ more)
  end.

Local Open Scope Z_scope.

(** The result for an empty list. *)
Definition noActivity : Streak.StreakResult :=
  {| Streak.current := 0; Streak.longest := 0;
     Streak.lastActive := None; Streak.isActiveToday := false |}.

(** The days [a], [a + 1], ..., [m] of them, are all active. *)
Definition activeRun (ts : list Z) (a m : Z) : Prop :=
  forall i, 0 <= i < m -> Spec.active ts (a + i).

(** The scan of the longest streak on day numbers. *)
Fixpoint scanDays (prev : Z) (rest : list Z) (longest tempStreak : Z) : Z * Z :=
  match rest with
  | [] => (longest, tempStreak)
  | curr :: rest' =>
      if curr - prev =? 1 then scanDays curr rest' longest (tempStreak + 1)
      else scanDays curr rest' (Z.max longest tempStreak) 1
  end.

(** The days [a], ..., [a + m - 1] are all in the list [seen]. *)
Definition runOf (seen : list Z) (a m : Z) : Prop :=
  forall i, 0 <= i < m -> In (a + i) seen.

(** What the scan knows at [prev], having seen the days [seen]: the run
    that ends at [prev] has [t] days, no run is longer than [l] or [t],
    and [l] is the length of a run when it is not 0. *)
Definition scanned (seen : list Z) (prev l t : Z) : Prop :=
  1 <= t /\ 0 <= l
  /\ In prev seen /\ (forall x, In x seen -> x <= prev)
  /\ runOf seen (prev - t + 1) t /\ ~ In (prev - t) seen
  /\ (forall a m, runOf seen a m -> m <= Z.max l t)
  /\ (l = 0 \/ exists a, runOf seen a l).

End Vocab.

(** ** The other calculators of [lib/aura/index.ts] and [lib/utils.ts] *)

Module AuraCalc.

Import Aura.

Record PAIParams := {
  statedPurpose : string;
  actionElements : list string;
  alignedElements : list string
}.

(** [a.length], a number. *)
Definition length {A} (a : list A) : Double.number :=
  Double.finite (inject_Z (Z.of_nat (List.length a))).

Definition calculatePAI (params : PAIParams) : Double.number :=
  if Nat.eqb (List.length (actionElements params)) 0 then Double.finite 1.0
  else
    let pai := Double.divide (length (alignedElements params))
                             (length (actionElements params)) in
    Double.divide (Math_round (Double.times pai (Double.finite 100)))
                  (Double.finite 100).

Inductive Layer := FOUNDATION | THEORY | EDGE.

Record Compression := { score : Double.number; layer : Layer }.

Definition calculateCompressionScore (evidence explanatoryPower entropy : Q)
    : Compression :=
  let evidence := Double.ofQ evidence in
  let explanatoryPower := Double.ofQ explanatoryPower in
  let entropy := Double.ofQ entropy in
  let Pi :=
    if Double.ltb (Double.finite 0) entropy
    then Double.divide (Double.times evidence explanatoryPower) entropy
    else Double.times (Double.times evidence explanatoryPower) (Double.finite 10) in
  let layer :=
    if Double.ltb (Double.ofQ 1.2) Pi then FOUNDATION
    else if Double.ltb (Double.ofQ 0.5) Pi then THEORY
    else EDGE in
  {| score := Double.divide (Math_round (Double.times Pi (Double.finite 100)))
                            (Double.finite 100);
     layer := layer |}.

(** [calculateSovereigntyScore] of [lib/utils.ts]. *)
Definition calculateSovereigntyScore (drift coherence alignment : Q) : Double.number :=
  let drift := Double.ofQ drift in
  let coherence := Double.ofQ coherence in
  let alignment := Double.ofQ alignment in
  Double.times (Double.times (Double.minus (Double.finite 1) drift) coherence)
               alignment.

(** [calculateEarnedLight]. A [tau] left out ([None]) takes the default
    of the destructuring, 0.1. *)
Record Actions := { succeeded : Q; total : Q }.

Record EarnedLightParams := {
  recentActions : Actions;
  historicalActions : Actions;
  influence : Q;
  consent : Q;
  tau : option Q
}.

(** The result; its last two fields repeat the parameters of the same
    names. *)
Record EarnedLight := {
  shortTermReliability : Double.number;
  longTermReliability : Double.number;
  earnedLight : Double.number;
  governanceCapacity : Double.number;
  influenceOf : Q;
  consentOf : Q
}.

Definition calculateEarnedLight (params : EarnedLightParams) : EarnedLight :=
  let tau := Double.ofQ (match tau params with Some t => t | None => 0.1 end) in
  let SRS :=
    if Double.ltb (Double.finite 0) (Double.ofQ (total (recentActions params)))
    then Double.divide (Double.ofQ (succeeded (recentActions params)))
                       (Double.ofQ (total (recentActions params)))
    else Double.ofQ 0.5 in
  let LRS :=
    if Double.ltb (Double.finite 0) (Double.ofQ (total (historicalActions params)))
    then Double.divide (Double.ofQ (succeeded (historicalActions params)))
                       (Double.ofQ (total (historicalActions params)))
    else Double.ofQ 0.5 in
  let EL := Double.divide (Double.plus SRS LRS) (Double.finite 2) in
  let maxGovernance := Math_max (Double.finite 0) (Double.minus EL tau) in
  let eta := Double.ofQ 1.0 in
  let theta := Double.ofQ 0.8 in
  let G :=
    Math_min maxGovernance
      (Double.minus
         (Double.times eta (Double.ofQ (influence params)))
         (Double.times theta
            (Double.minus (Double.finite 1) (Double.ofQ (consent params))))) in
  {| shortTermReliability :=
       Double.divide (Math_round (Double.times SRS (Double.finite 100)))
                     (Double.finite 100);
     longTermReliability :=
       Double.divide (Math_round (Double.times LRS (Double.finite 100)))
                     (Double.finite 100);
     earnedLight :=
       Double.divide (Math_round (Double.times EL (Double.finite 100)))
                     (Double.finite 100);
     governanceCapacity :=
       Double.divide
         (Math_round (Double.times (Math_max (Double.finite 0) G)
                                   (Double.finite 100)))
         (Double.finite 100);
     influenceOf := influence params;
     consentOf := consent params |}.

End AuraCalc.

Module CalcVocab.

(** The numeral stands for a finite number. *)
Definition finiteNumeral (q : Q) : Prop :=
  Double.isFinite (Double.ofQ q) = true.

(** The layers from the weakest to the strongest. *)
Definition layerRank (l : AuraCalc.Layer) : nat :=
  match l with
  | AuraCalc.EDGE => 0
  | AuraCalc.THEORY => 1
  | AuraCalc.FOUNDATION => 2
  end.

(** The hundredth [k / 100], as a number. *)
Definition hundredth (k : Z) : Double.number :=
  Double.ofQ (inject_Z k / 100).


(** Counts of actions that make sense: no more successes than actions,
    none negative. *)
Definition counted (a : AuraCalc.Actions) : Prop :=
  finiteNumeral (AuraCalc.total a)
  /\ (0 <= AuraCalc.succeeded a <= AuraCalc.total a)%Q.

(** The buffer is finite and not negative. *)
Definition buffer (t : option Q) : Prop :=
  match t with
  | Some t => finiteNumeral t /\ (0 <= t)%Q
  | None => True
  end.

End CalcVocab.

(** ** The validation of [lib/utils.ts] *)

Module Validation.

(** A string is its sequence of UTF-16 code units; a regular expression
    without the [u] flag reads it so. *)
Definition codeUnits := list N.

(** The regular expressions [isValidEmail] needs: a character class, a
    sequence, an alternative, a repetition. *)
Inductive RegExp :=
| never
| empty
| class (members : N -> bool)
| seq (a b : RegExp)
| alt (a b : RegExp)
| star (a : RegExp).

(** [x+] *)
Definition plus (x : RegExp) : RegExp := seq x (star x).

(** Does the expression match the empty string, and what is left of it
    after the code unit [c]. *)
Fixpoint nullable (r : RegExp) : bool :=
  match r with
  | never => false
  | empty => true
  | class _ => false
  | seq a b => nullable a && nullable b
  | alt a b => nullable a || nullable b
  | star _ => true
  end.

Fixpoint after (c : N) (r : RegExp) : RegExp :=
  match r with
  | never => never
  | empty => never
  | class members => if members c then empty else never
  | seq a b =>
      if nullable a then alt (seq (after c a) b) (after c b)
      else seq (after c a) b
  | alt a b => alt (after c a) (after c b)
  | star a => seq (after c a) (star a)
  end.

(** [/^r$/.test(s)]: the whole of [s] matches [r]. *)
Fixpoint test (r : RegExp) (s : codeUnits) : bool :=
  match s with
  | [] => nullable r
  | c :: s => test (after c r) s
  end.

(** [\s]: the white space and the line terminators of ECMAScript. *)
Definition whiteSpace (c : N) : bool :=
  ((9 <=? c) && (c <=? 13) || (c =? 32) || (c =? 160) || (c =? 5760)
   || (8192 <=? c) && (c <=? 8202) || (c =? 8232) || (c =? 8233)
   || (c =? 8239) || (c =? 8287) || (c =? 12288) || (c =? 65279))%N.

Definition atSign : N := 64.
Definition fullStop : N := 46.

(** [[^\s@]] *)
Definition plain (c : N) : bool := negb (whiteSpace c || (c =? atSign)%N).

(** [/^[^\s@]+@[^\s@]+\.[^\s@]+$/] *)
Definition emailPattern : RegExp :=
  seq (plus (class plain))
      (seq (class (N.eqb atSign))
           (seq (plus (class plain))
                (seq (class (N.eqb fullStop)) (plus (class plain))))).

Definition isValidEmail (email : codeUnits) : bool := test emailPattern email.

End Validation.

Module ValidationVocab.
Import Validation.

(** The strings an expression stands for. *)
Inductive matches : RegExp -> codeUnits -> Prop :=
| m_empty : matches empty []
| m_class members c : members c = true -> matches (class members) [c]
| m_seq a b s t : matches a s -> matches b t -> matches (seq a b) (s ++ t)
| m_alt_l a b s : matches a s -> matches (alt a b) s
| m_alt_r a b s : matches b s -> matches (alt a b) s
| m_star_nil a : matches (star a) []
| m_star_cons a s t : matches a s -> matches (star a) t -> matches (star a) (s ++ t).

(** The code units of a string of ASCII characters. *)
Definition unitsOf (s : string) : codeUnits :=
  map (fun c => N_of_ascii c) (list_ascii_of_string s).

End ValidationVocab.

(** * Properties *)

Module DoubleFacts.
Import Double Spec.
Local Open Scope Q_scope.

Lemma pow2_pos e : 0 < 2 ^ e.
Proof. apply Qpower_0_lt. reflexivity. Qed.

Lemma pow2_le a b : (a <= b)%Z -> 2 ^ a <= 2 ^ b.
Proof. intro H. apply Qpower_le_compat_l; [exact H|]. discriminate. Qed.

Lemma Qle_bool_false a b : Qle_bool a b = false <-> b < a.
Proof.
  split; intro H.
  - apply Qnot_le_lt. intro L. apply Qle_bool_iff in L. congruence.
  - destruct (Qle_bool a b) eqn:E; [|reflexivity].
    apply Qle_bool_iff in E. exfalso. lra.
Qed.

Lemma Qeq_bool_false a b : Qeq_bool a b = false <-> ~ a == b.
Proof.
  split.
  - intros H E. apply Qeq_bool_iff in E. congruence.
  - intro N. destruct (Qeq_bool a b) eqn:E; [|reflexivity].
    apply Qeq_bool_iff in E. contradiction.
Qed.

(** [exponent] is not above the binary logarithm. *)
Lemma exponent_le a : 0 < a -> 2 ^ exponent a <= a.
Proof.
  intros P. unfold exponent.
  set (n := Qnum a). set (d := Zpos (Qden a)).
  destruct (Qle_bool (2 ^ (Z.log2 n - Z.log2 d)) a) eqn:E.
  - now apply Qle_bool_iff.
  - assert (Pn : (0 < n)%Z).
    { unfold Qlt in P. cbn in P. subst n. lia. }
    assert (Pd : (0 < d)%Z) by (subst d; lia).
    destruct (Z.log2_spec n Pn) as [Ln _].
    destruct (Z.log2_spec d Pd) as [_ Ud].
    pose proof (Z.log2_nonneg n) as Nn. pose proof (Z.log2_nonneg d) as Nd.
    replace (Z.log2 n - Z.log2 d - 1)%Z with (Z.log2 n - Z.succ (Z.log2 d))%Z by lia.
    rewrite Qpower_minus by discriminate.
    rewrite <- (Zpower_Qpower 2 (Z.log2 n)) by lia.
    rewrite <- (Zpower_Qpower 2 (Z.succ (Z.log2 d))) by lia.
    set (x := (2 ^ Z.log2 n)%Z) in *. set (y := (2 ^ Z.succ (Z.log2 d))%Z) in *.
    assert (A : a == inject_Z n / inject_Z d).
    { destruct a as [an ad]. subst n d. cbn [Qnum Qden].
      unfold Qeq, Qdiv, Qmult, Qinv, inject_Z. cbn. lia. }
    rewrite A.
    assert (Py : 0 < inject_Z y).
    { change 0 with (inject_Z 0). rewrite <- Zlt_Qlt. lia. }
    assert (PdQ : 0 < inject_Z d).
    { change 0 with (inject_Z 0). rewrite <- Zlt_Qlt. lia. }
    apply Qle_shift_div_l; [exact PdQ|].
    assert (Px : 0 < inject_Z x).
    { change 0 with (inject_Z 0). rewrite <- Zlt_Qlt. subst x. lia. }
    assert (Lx : inject_Z x <= inject_Z n) by (rewrite <- Zle_Qle; exact Ln).
    assert (Ly : inject_Z d <= inject_Z y) by (rewrite <- Zle_Qle; lia).
    assert (R : / inject_Z y * inject_Z y == 1) by (field; lra).
    unfold Qdiv. set (r := / inject_Z y) in *.
    assert (Pr : 0 < r) by (subst r; now apply Qinv_lt_0_compat).
    set (X := inject_Z x) in *. set (Y := inject_Z y) in *.
    set (D := inject_Z d) in *. set (N := inject_Z n) in *.
    clearbody X Y D N r.
    assert (H1 : 0 <= X * r) by nra.
    assert (H2 : X * r * D <= X * r * Y) by nra.
    assert (H3 : X * r * Y == X) by (rewrite <- Qmult_assoc, R; ring).
    lra.
Qed.

Lemma nearestEven_ge x : (Qfloor x <= nearestEven x)%Z.
Proof.
  unfold nearestEven. destruct (Qcompare _ _); [destruct (Z.even _)| |]; lia.
Qed.

Lemma Qfloor_ge1 x : 1 <= x -> (1 <= Qfloor x)%Z.
Proof.
  intro H. change 1 with (inject_Z 1) in H.
  apply Qfloor_resp_le in H. now rewrite Qfloor_Z in H.
Qed.

Lemma Qfloor_ge0 x : 0 <= x -> (0 <= Qfloor x)%Z.
Proof.
  intro H. change 0 with (inject_Z 0) in H.
  apply Qfloor_resp_le in H. now rewrite Qfloor_Z in H.
Qed.

Lemma round_unfold q :
  round q
  = if Qeq_bool q 0 then finite 0
    else if Qle_bool (2 ^ 1024) (magnitude q) then infinity (negative q)
    else finite (Qred (if negative q then - magnitude q else magnitude q)).
Proof. reflexivity. Qed.

Lemma magnitude_nonneg q : 0 <= magnitude q.
Proof.
  unfold magnitude. cbv zeta.
  apply Qmult_le_0_compat; [|apply Qlt_le_weak, pow2_pos].
  change 0 with (inject_Z 0). rewrite <- Zle_Qle.
  etransitivity; [|apply nearestEven_ge]. apply Qfloor_ge0.
  apply Qle_shift_div_l; [apply pow2_pos|]. rewrite Qmult_0_l. apply Qabs_nonneg.
Qed.

Lemma magnitude_pos q : 2 ^ (-1074) <= Qabs q -> 0 < magnitude q.
Proof.
  intros H. unfold magnitude. cbv zeta.
  set (a := Qabs q) in *.
  assert (Pa : 0 < a) by (pose proof (pow2_pos (-1074)); lra).
  set (e := Z.max (exponent a - 52) (-1074)).
  assert (E : 2 ^ e <= a).
  { destruct (Z.max_spec (exponent a - 52) (-1074)) as [[_ M]|[_ M]]; fold e in M; rewrite M.
    - exact H.
    - apply Qle_trans with (2 ^ exponent a); [apply pow2_le; lia|now apply exponent_le]. }
  apply Qmult_lt_0_compat; [|apply pow2_pos].
  change 0 with (inject_Z 0). rewrite <- Zlt_Qlt.
  apply Z.lt_le_trans with 1%Z; [lia|].
  etransitivity; [|apply nearestEven_ge]. apply Qfloor_ge1.
  apply Qle_shift_div_l; [apply pow2_pos|]. now rewrite Qmult_1_l.
Qed.

Lemma magnitude_grid q : onGrid (magnitude q).
Proof.
  unfold magnitude. cbv zeta.
  set (a := Qabs q). set (e := Z.max (exponent a - 52) (-1074)).
  exists (nearestEven (a / 2 ^ e) * 2 ^ (e + 1074))%Z.
  rewrite inject_Z_mult, Zpower_Qpower by lia.
  change (inject_Z 2) with 2. rewrite <- Qmult_assoc.
  rewrite <- Qpower_plus by discriminate.
  now replace (e + 1074 + -1074)%Z with e by lia.
Qed.

Lemma negative_spec q : negative q = true <-> q < 0.
Proof.
  unfold negative, Qlt. cbn. rewrite Z.ltb_lt. lia.
Qed.

Lemma negative_false q : negative q = false <-> 0 <= q.
Proof.
  unfold negative, Qle. cbn. rewrite Z.ltb_ge. lia.
Qed.

Lemma onGrid_opp v : onGrid v -> onGrid (- v).
Proof.
  intros (z & E). exists (- z)%Z. rewrite E, inject_Z_opp. ring.
Qed.

Lemma onGrid_plus v w : onGrid v -> onGrid w -> onGrid (v + w).
Proof.
  intros (z & E) (z' & E'). exists (z + z')%Z. rewrite E, E', inject_Z_plus. ring.
Qed.

Lemma onGrid_eq v w : v == w -> onGrid v -> onGrid w.
Proof. intros E (z & H). exists z. now rewrite <- E. Qed.

(** A positive number of the grid is at least 2^-1074. *)
Lemma onGrid_pos v : onGrid v -> 0 < v -> 2 ^ (-1074) <= v.
Proof.
  intros (z & E) P. rewrite E in *.
  pose proof (pow2_pos (-1074)) as G.
  assert (Z1 : (1 <= z)%Z).
  { destruct (Z_le_gt_dec z 0) as [L|L]; [|lia].
    exfalso. rewrite Zle_Qle in L. change (inject_Z 0) with 0 in L. nra. }
  rewrite Zle_Qle in Z1. change (inject_Z 1) with 1 in Z1. nra.
Qed.

(** [round] never gives NaN, and what it gives is ordinary. *)
Lemma round_ordinary q : ordinary (round q).
Proof.
  rewrite round_unfold.
  destruct (Qeq_bool q 0).
  { cbn. split; [exists 0%Z; ring|]. pose proof (pow2_pos 1024). lra. }
  destruct (Qle_bool (2 ^ 1024) (magnitude q)) eqn:B; [exact I|].
  apply Qle_bool_false in B. pose proof (magnitude_nonneg q) as N.
  pose proof (magnitude_grid q) as G. cbn [ordinary].
  split.
  - apply (onGrid_eq _ _ (Qeq_sym _ _ (Qred_correct _))).
    destruct (negative q); [now apply onGrid_opp|exact G].
  - set (w := if negative q then - magnitude q else magnitude q).
    pose proof (Qred_correct w) as R. subst w. destruct (negative q); lra.
Qed.

(** The sign of [round q] is the sign of [q] when [q] is 0 or not below
    2^-1074 in magnitude. *)
Lemma round_nonpos q : q <= 0 -> JS.compareValue (round q) <= 0.
Proof.
  intro H. rewrite round_unfold.
  destruct (Qeq_bool q 0) eqn:Z0; [cbn; lra|].
  apply Qeq_bool_false in Z0.
  assert (N : negative q = true) by (apply negative_spec; lra).
  rewrite N. pose proof (magnitude_nonneg q).
  destruct (Qle_bool _ _); cbn [JS.compareValue]; [lra|].
  pose proof (Qred_correct (- magnitude q)). lra.
Qed.

Lemma round_pos q : 2 ^ (-1074) <= q -> 0 < JS.compareValue (round q).
Proof.
  intro H. pose proof (pow2_pos (-1074)) as G. rewrite round_unfold.
  assert (Z0 : Qeq_bool q 0 = false) by (apply Qeq_bool_false; lra).
  rewrite Z0.
  assert (N : negative q = false) by (apply negative_false; lra).
  rewrite N.
  assert (M : 0 < magnitude q).
  { apply magnitude_pos. rewrite Qabs_pos by lra. exact H. }
  destruct (Qle_bool _ _); cbn [JS.compareValue]; [lra|].
  pose proof (Qred_correct (magnitude q)). lra.
Qed.

Lemma Qle_bool_eq a b c d : (a <= b <-> c <= d) -> Qle_bool a b = Qle_bool c d.
Proof.
  intro H. destruct (Qle_bool c d) eqn:E.
  - apply Qle_bool_iff. apply H. now apply Qle_bool_iff.
  - apply Qle_bool_false. apply Qle_bool_false in E.
    apply Qnot_le_lt. intro L. apply H in L. lra.
Qed.

Lemma Qeq_bool_eq a b c d : (a == b <-> c == d) -> Qeq_bool a b = Qeq_bool c d.
Proof.
  intro H. destruct (Qeq_bool c d) eqn:E.
  - apply Qeq_bool_iff. apply H. now apply Qeq_bool_iff.
  - apply Qeq_bool_false. apply Qeq_bool_false in E. tauto.
Qed.

Local Ltac by_places :=
  unfold ordinary, place;
  set (big := 2 ^ 1024) in *;
  assert (Big : 0 < big) by apply pow2_pos;
  clearbody big; intros.

(** The comparator [b - a] of two ordinary numbers orders them as their
    places are ordered. *)
Lemma compare_minus a b :
  ordinary a -> ordinary b ->
  Qle_bool (JS.compareValue (minus b a)) 0 = Qle_bool (place b) (place a).
Proof.
  destruct a as [va|sa|], b as [vb|sb|]; try (by_places; contradiction).
  - intros [Ga Ba] [Gb Bb]. cbn [minus opp plus place].
    apply Qle_bool_eq. split; intro H.
    + destruct (Qlt_le_dec va vb) as [L|L]; [|exact L]. exfalso.
      assert (P : 0 < JS.compareValue (round (vb + - va))).
      { apply round_pos, onGrid_pos; [|lra].
        apply onGrid_plus; [exact Gb|now apply onGrid_opp]. }
      lra.
    + apply round_nonpos. lra.
  - cbn [minus opp plus JS.compareValue]. by_places.
    apply Qle_bool_eq. destruct sb; split; intro; lra.
  - cbn [minus opp plus JS.compareValue]. by_places.
    apply Qle_bool_eq. destruct sa; cbn [negb]; split; intro; lra.
  - cbn [minus opp plus]. by_places.
    apply Qle_bool_eq.
    destruct sa, sb; cbn [negb Bool.eqb JS.compareValue]; split; intro; lra.
Qed.

Lemma leb_place a b :
  ordinary a -> ordinary b -> leb a b = Qle_bool (place a) (place b).
Proof.
  destruct a as [va|sa|], b as [vb|sb|]; try (by_places; contradiction);
    cbn [leb]; by_places.
  - reflexivity.
  - destruct sb; cbn [negb]; symmetry;
      [apply Qle_bool_false|apply Qle_bool_iff]; lra.
  - destruct sa; symmetry; [apply Qle_bool_iff|apply Qle_bool_false]; lra.
  - destruct sa, sb; cbn [orb negb]; symmetry;
      first [apply Qle_bool_iff; lra | apply Qle_bool_false; lra].
Qed.

Lemma eqb_place a b :
  ordinary a -> ordinary b -> eqb a b = Qeq_bool (place a) (place b).
Proof.
  destruct a as [va|sa|], b as [vb|sb|]; try (by_places; contradiction);
    cbn [eqb]; by_places.
  - reflexivity.
  - symmetry. apply Qeq_bool_false. destruct sb; lra.
  - symmetry. apply Qeq_bool_false. destruct sa; lra.
  - destruct sa, sb; cbn [Bool.eqb]; symmetry;
      first [apply Qeq_bool_iff; lra | apply Qeq_bool_false; lra].
Qed.

(** A difference of two finite numbers is ordinary. *)
Lemma minus_ordinary a b x y :
  a = finite x -> b = finite y -> ordinary (minus a b).
Proof. intros -> ->. apply round_ordinary. Qed.

End DoubleFacts.

(** ** JavaScript primitives *)

Module JSFacts.

Import Spec.

Lemma Qltb_lt a b : JS.Qltb a b = true <-> (a < b)%Q.
Proof.
  unfold JS.Qltb. rewrite negb_true_iff, <- not_true_iff_false, Qle_bool_iff.
  split; [apply Qnot_le_lt | apply Qlt_not_le].
Qed.

Lemma Qltb_ge a b : JS.Qltb a b = false <-> (b <= a)%Q.
Proof. unfold JS.Qltb. rewrite negb_false_iff. apply Qle_bool_iff. Qed.

Lemma split_cons c s : exists w ws, JS.split c s = w :: ws.
Proof.
  destruct s as [|a s]; simpl; [now eauto|].
  destruct (Ascii.eqb a c); [now eauto|].
  destruct (JS.split c s); eauto.
Qed.

Lemma join_cons sep x y l :
  JS.join sep (x :: y :: l) = (x ++ sep ++ JS.join sep (y :: l))%string.
Proof. reflexivity. Qed.

(** Joining the fields with the separator gives the string back. *)
Lemma join_split c s : JS.join (String c EmptyString) (JS.split c s) = s.
Proof.
  induction s as [|a s IH]; [reflexivity|].
  destruct (split_cons c s) as (w & ws & E).
  cbn [JS.split]. rewrite E in *.
  destruct (Ascii.eqb_spec a c) as [->|Hne].
  - rewrite join_cons, IH. reflexivity.
  - destruct ws as [|w' ws].
    + cbn in IH |- *. now rewrite IH.
    + rewrite join_cons in IH |- *. now rewrite <- IH.
Qed.

(** No field contains the separator. *)
Lemma split_fields c s : Forall (fun f => Spec.contains c f = false) (JS.split c s).
Proof.
  induction s as [|a s IH]; simpl.
  - now repeat constructor.
  - destruct (Ascii.eqb a c) eqn:E.
    + now constructor.
    + destruct (JS.split c s) as [|w ws]; [now repeat constructor; simpl; rewrite E|].
      inversion IH; subst. constructor; [simpl; now rewrite E|assumption].
Qed.

(** There is one field more than there are separators. *)
Lemma length_split c s : List.length (JS.split c s) = S (Spec.occurrences c s).
Proof.
  induction s as [|a s IH]; [reflexivity|]. cbn [JS.split Spec.occurrences].
  destruct (Ascii.eqb a c); cbn [List.length]; [now rewrite IH|].
  destruct (JS.split c s); [discriminate|]. exact IH.
Qed.

(** *** Sorting *)

Section AnyComparator.
Context {A : Type} (cmp : A -> A -> Q).

Lemma insert_perm x l : Permutation (JS.insert cmp x l) (x :: l).
Proof.
  induction l as [|y l IH]; cbn [JS.insert]; [reflexivity|].
  destruct (Qle_bool _ _); [reflexivity|].
  rewrite IH. apply perm_swap.
Qed.

Lemma sort_perm l : Permutation (JS.sort cmp l) l.
Proof.
  induction l as [|x l IH]; cbn [JS.sort]; [reflexivity|].
  rewrite insert_perm. now constructor.
Qed.

Lemma sort_In x l : In x (JS.sort cmp l) <-> In x l.
Proof.
  split; apply Permutation_in; [|symmetry]; apply sort_perm.
Qed.

End AnyComparator.

(** *** The order of strings *)

Lemma ascii_compare_refl a : Ascii.compare a a = Eq.
Proof. unfold Ascii.compare. apply N.compare_refl. Qed.

Lemma compare_refl s : String.compare s s = Eq.
Proof. induction s as [|a s IH]; cbn; [reflexivity|]. now rewrite ascii_compare_refl. Qed.

Lemma ascii_compare_trans a b c r :
  Ascii.compare a b = r -> Ascii.compare b c = r -> Ascii.compare a c = r.
Proof.
  unfold Ascii.compare. intros H1 H2.
  destruct r.
  - apply N.compare_eq_iff in H1, H2. apply N.compare_eq_iff. congruence.
  - rewrite N.compare_lt_iff in *. lia.
  - rewrite N.compare_gt_iff in *. lia.
Qed.

Lemma compare_lt_trans s1 s2 s3 :
  String.compare s1 s2 = Lt -> String.compare s2 s3 = Lt -> String.compare s1 s3 = Lt.
Proof.
  revert s2 s3. induction s1 as [|a s1 IH]; intros [|b s2] [|c s3]; cbn; try congruence.
  destruct (Ascii.compare a b) eqn:Eab; try discriminate;
  destruct (Ascii.compare b c) eqn:Ebc; try discriminate; intros H1 H2.
  - rewrite (ascii_compare_trans _ _ _ _ Eab Ebc). eauto.
  - apply Ascii.compare_eq_iff in Eab. subst. now rewrite Ebc.
  - apply Ascii.compare_eq_iff in Ebc. subst. now rewrite Eab.
  - now rewrite (ascii_compare_trans _ _ _ _ Eab Ebc).
Qed.

Lemma compare_gt_lt a b : String.compare a b = Gt <-> String.compare b a = Lt.
Proof.
  rewrite (String.compare_antisym b a). destruct (String.compare a b); cbn; split; congruence.
Qed.

Lemma strLe_trans a b c : strLe a b -> strLe b c -> strLe a c.
Proof.
  unfold strLe. intros H1 H2 H3. apply compare_gt_lt in H3.
  destruct (String.compare a b) eqn:E1; [| |congruence].
  - apply String.compare_eq_iff in E1. subst. apply compare_gt_lt in H3. congruence.
  - destruct (String.compare b c) eqn:E2; [| |congruence].
    + apply String.compare_eq_iff in E2. subst.
      apply compare_gt_lt in H3. congruence.
    + pose proof (compare_lt_trans _ _ _ H3 E1) as H.
      apply compare_gt_lt in H. congruence.
Qed.

Lemma strLe_antisym a b : strLe a b -> strLe b a -> a = b.
Proof.
  unfold strLe. intros H1 H2. destruct (String.compare a b) eqn:E.
  - now apply String.compare_eq_iff.
  - apply compare_gt_lt in E. congruence.
  - congruence.
Qed.

Lemma stringCompare_le a b : Qle_bool (JS.stringCompare a b) 0 = true <-> strLe a b.
Proof.
  unfold JS.stringCompare, strLe. destruct (String.compare a b); cbn; split; congruence.
Qed.

Lemma stringCompare_gt a b : Qle_bool (JS.stringCompare a b) 0 = false -> strLe b a.
Proof.
  unfold JS.stringCompare, strLe. destruct (String.compare a b) eqn:E; cbn; try discriminate.
  intros _. apply compare_gt_lt in E. congruence.
Qed.

Lemma insert_sorted x l :
  StronglySorted strLe l -> StronglySorted strLe (JS.insert JS.stringCompare x l).
Proof.
  induction 1 as [|y l S IH F]; cbn [JS.insert]; [repeat constructor|].
  destruct (Qle_bool _ _) eqn:E.
  - apply stringCompare_le in E. constructor; [now constructor|].
    constructor; [assumption|].
    eapply Forall_impl; [|exact F]. intros z. now apply strLe_trans.
  - apply stringCompare_gt in E. constructor; [assumption|].
    rewrite (insert_perm JS.stringCompare x l). now constructor.
Qed.

Lemma sort_sorted l : StronglySorted strLe (JS.sort JS.stringCompare l).
Proof.
  induction l as [|x l IH]; cbn [JS.sort]; [constructor|]. now apply insert_sorted.
Qed.

(** A sorted arrangement of given strings is unique. *)
Lemma sorted_unique l1 l2 :
  StronglySorted strLe l1 -> StronglySorted strLe l2 -> Permutation l1 l2 -> l1 = l2.
Proof.
  intros S1. revert l2. induction S1 as [|x l1 S1 IH F1]; intros l2 S2 P.
  - apply Permutation_nil in P. now subst.
  - destruct S2 as [|y l2 S2 F2]; [apply Permutation_sym, Permutation_nil in P; discriminate|].
    assert (x = y) as ->.
    { apply strLe_antisym.
      - assert (In y (x :: l1)) as [->|I] by (eapply Permutation_in; [symmetry; exact P|now left]).
        + unfold strLe. now rewrite compare_refl.
        + rewrite Forall_forall in F1. now apply F1.
      - assert (In x (y :: l2)) as [->|I] by (eapply Permutation_in; [exact P|now left]).
        + unfold strLe. now rewrite compare_refl.
        + rewrite Forall_forall in F2. now apply F2. }
    f_equal. apply IH; [assumption|]. eapply Permutation_cons_inv, P.
Qed.

Lemma sort_strings_perm l1 l2 :
  Permutation l1 l2 -> JS.sort JS.stringCompare l1 = JS.sort JS.stringCompare l2.
Proof.
  intros P. apply sorted_unique; try apply sort_sorted.
  now rewrite !sort_perm.
Qed.

(** *** Sets *)

Lemma existsb_eqb_In x s : existsb (String.eqb x) s = true <-> In x s.
Proof.
  rewrite existsb_exists. split.
  - intros (y & I & E). apply String.eqb_eq in E. now subst.
  - intros I. exists x. split; [assumption|apply String.eqb_refl].
Qed.

Lemma setAdd_In s x y : In y (JS.setAdd s x) <-> In y s \/ y = x.
Proof.
  unfold JS.setAdd. destruct (existsb _ _) eqn:E.
  - apply existsb_eqb_In in E. split; [now left|]. intros [H| ->]; assumption.
  - rewrite in_app_iff. cbn. intuition.
Qed.

Lemma setAdd_NoDup s x : NoDup s -> NoDup (JS.setAdd s x).
Proof.
  intros N. unfold JS.setAdd. destruct (existsb _ _) eqn:E; [assumption|].
  apply NoDup_app; [assumption| |].
  - constructor; [intros H; destruct H|constructor].
  - intros y I H. destruct H as [<-|H]; [|destruct H].
    apply existsb_eqb_In in I. congruence.
Qed.

Lemma fold_setAdd a s :
  NoDup s ->
  NoDup (fold_left JS.setAdd a s)
  /\ forall y, In y (fold_left JS.setAdd a s) <-> In y s \/ In y a.
Proof.
  revert s. induction a as [|x a IH]; intros s N; cbn [fold_left].
  - split; [assumption|]. cbn. intuition.
  - destruct (IH (JS.setAdd s x) (setAdd_NoDup s x N)) as [N' I'].
    split; [assumption|]. intros y. rewrite I', setAdd_In. cbn. intuition.
Qed.

Lemma newSet_NoDup a : NoDup (JS.newSet a).
Proof. apply fold_setAdd. constructor. Qed.

Lemma newSet_In a y : In y (JS.newSet a) <-> In y a.
Proof.
  unfold JS.newSet. destruct (fold_setAdd a [] (NoDup_nil _)) as [_ I].
  rewrite I. cbn. intuition.
Qed.

End JSFacts.

(** ** The AURA evaluator *)

Module AuraSpec.

Import Aura.

Section Evaluator.

Variable show : Q -> string.

(** The three tests of [validateAURA], as booleans. *)
Lemma validateAURA_warnings now m th :
  map metric (warnings (validateAURA show now m th))
  = filter (Spec.below m (orDefault th)) [M_TES; M_VTR; M_PAI].
Proof.
  unfold validateAURA, Spec.below. cbn [filter get].
  destruct (JS.Qltb (TES m) (TES (orDefault th))),
           (JS.Qltb (VTR m) (VTR (orDefault th))),
           (JS.Qltb (PAI m) (PAI (orDefault th))); reflexivity.
Qed.

Lemma validateAURA_valid now m th :
  valid (validateAURA show now m th)
  = negb (Spec.below m (orDefault th) M_TES)
    && negb (Spec.below m (orDefault th) M_VTR)
    && negb (Spec.below m (orDefault th) M_PAI).
Proof.
  unfold validateAURA, Spec.below. cbn [get].
  destruct (JS.Qltb (TES m) (TES (orDefault th))),
           (JS.Qltb (VTR m) (VTR (orDefault th))),
           (JS.Qltb (PAI m) (PAI (orDefault th))); reflexivity.
Qed.

Lemma validateAURA_scores now m th : scores (validateAURA show now m th) = m.
Proof. reflexivity. Qed.

(** C1. For every metric triple and threshold triple, [validateAURA]
    returns [valid = true] exactly when each of the three metrics meets or
    exceeds its threshold, and exactly when the list of warnings is empty. *)
Theorem validateAURA_valid_iff (now : Z) (m : AURAThresholds)
    (th : option AURAThresholds) :
  let r := validateAURA show now m th in
  (valid r = true <->
     (TES (orDefault th) <= TES m /\ VTR (orDefault th) <= VTR m
      /\ PAI (orDefault th) <= PAI m)%Q)
  /\ (valid r = true <-> warnings r = []).
Proof.
  cbv zeta. split.
  - rewrite validateAURA_valid, !andb_true_iff, !negb_true_iff.
    unfold Spec.below. rewrite !JSFacts.Qltb_ge. cbn [get]. tauto.
  - pose proof (validateAURA_warnings now m th) as W.
    rewrite validateAURA_valid.
    destruct (warnings (validateAURA show now m th)) as [|w ws].
    + cbn [map filter] in W.
      destruct (Spec.below m (orDefault th) M_TES); [discriminate|].
      destruct (Spec.below m (orDefault th) M_VTR); [discriminate|].
      destruct (Spec.below m (orDefault th) M_PAI); [discriminate|].
      now split.
    + cbn [map filter] in W.
      destruct (Spec.below m (orDefault th) M_TES);
        [split; [discriminate|discriminate]|].
      destruct (Spec.below m (orDefault th) M_VTR);
        [split; [discriminate|discriminate]|].
      destruct (Spec.below m (orDefault th) M_PAI);
        [split; [discriminate|discriminate]|].
      discriminate.
Qed.

(** C8. The warnings of [validateAURA] are the failing metrics in the
    evaluation order TES, VTR, PAI: at most three, at most one for each
    metric, and ordered by that order alone, whatever the severities and
    the gaps. *)
Theorem validateAURA_warnings_ordered (now : Z) (m : AURAThresholds)
    (th : option AURAThresholds) :
  let ws := warnings (validateAURA show now m th) in
  map metric ws = filter (Spec.below m (orDefault th)) [M_TES; M_VTR; M_PAI]
  /\ (List.length ws <= 3)%nat
  /\ NoDup (map metric ws)
  /\ StronglySorted (fun a b => (Spec.rank a < Spec.rank b)%nat) (map metric ws).
Proof.
  cbv zeta. pose proof (validateAURA_warnings now m th) as W.
  split; [exact W|].
  rewrite <- (length_map metric). rewrite W. cbn [filter].
  destruct (Spec.below m (orDefault th) M_TES),
           (Spec.below m (orDefault th) M_VTR),
           (Spec.below m (orDefault th) M_PAI);
    (split; [cbn; lia|]);
    (split; [repeat constructor; cbn; intuition discriminate|]);
    repeat constructor; cbn; lia.
Qed.

(** The entries of [failures] are the failing metrics in evaluation order,
    each with its gap. *)
Lemma collectFailures_filter now m t :
  collectFailures (validateAURA show now m (Some t)) t
  = map (fun k => {| fmetric := k; gap := Spec.gap64 m t k |})
        (filter (Spec.below m t) [M_TES; M_VTR; M_PAI]).
Proof.
  unfold collectFailures, Spec.below, Spec.gap64.
  rewrite validateAURA_scores. cbn [filter get].
  destruct (JS.Qltb (TES m) (TES t)), (JS.Qltb (VTR m) (VTR t)),
           (JS.Qltb (PAI m) (PAI t)); reflexivity.
Qed.

(** The gap of a finite value below a finite threshold is a number that
    a rounding gives. *)
Lemma gap64_ordinary m t k :
  Spec.finiteTriple m -> Spec.finiteTriple t -> Spec.ordinary (Spec.gap64 m t k).
Proof.
  intros Fm Ft. specialize (Fm k). specialize (Ft k). unfold Spec.gap64.
  destruct (Double.ofQ (get k t)) as [x| |]; try discriminate.
  destruct (Double.ofQ (get k m)) as [y| |]; try discriminate.
  apply DoubleFacts.round_ordinary.
Qed.

Local Ltac split_comparisons :=
  repeat (rewrite ?DoubleFacts.compare_minus by assumption;
          match goal with
          | |- context [Qle_bool ?a ?b] =>
              let E := fresh "E" in
              destruct (Qle_bool a b) eqn:E;
              [apply Qle_bool_iff in E | apply DoubleFacts.Qle_bool_false in E];
              cbn [JS.insert gap fmetric] in *
          end).

Local Ltac worst_is k :=
  exists k; split; [reflexivity|]; split; [assumption|];
  intros k' Hk'; destruct k'; try congruence;
  (split;
   [rewrite DoubleFacts.leb_place by assumption; apply Qle_bool_iff; lra
   |rewrite DoubleFacts.eqb_place by assumption; intros T;
    apply Qeq_bool_iff in T; cbn; first [lia | lra]]).

(** C2, with the gap the code computes. When validation succeeds
    [filterDecision] returns the action and the metrics with
    [passed = true] and no inversion. When it fails the decision has
    [passed = false] and the inversion of a failing metric [k] whose gap,
    the double [threshold - value], no failing metric's gap exceeds, and
    which comes first in the order TES, VTR, PAI among the failing
    metrics of an equal gap. The metrics and thresholds are finite
    numbers. *)
Theorem filterDecision_worst (now now' : Z) (act : string)
    (m : AURAThresholds) (th : option AURAThresholds) :
  let t := orDefault th in
  let r := validateAURA show now m (Some t) in
  Spec.finiteTriple m -> Spec.finiteTriple t ->
  if valid r then
    filterDecision show now now' act m th
    = Some {| action := act; metrics := r; passed := true; inversion := None |}
  else
    exists k,
      filterDecision show now now' act m th
      = Some {| action := act; metrics := r; passed := false;
                inversion := Some (vectorInversion show now' act k "") |}
      /\ Spec.below m t k = true
      /\ forall k', Spec.below m t k' = true ->
           Double.leb (Spec.gap64 m t k') (Spec.gap64 m t k) = true
           /\ (Double.eqb (Spec.gap64 m t k') (Spec.gap64 m t k) = true ->
               (Spec.rank k <= Spec.rank k')%nat).
Proof.
  cbv zeta. intros Fm Ft. unfold filterDecision.
  set (t := orDefault th) in *.
  rewrite collectFailures_filter.
  rewrite (validateAURA_valid now m (Some t)).
  change (orDefault (Some t)) with t.
  pose proof (gap64_ordinary m t M_TES Fm Ft) as O1.
  pose proof (gap64_ordinary m t M_VTR Fm Ft) as O2.
  pose proof (gap64_ordinary m t M_PAI Fm Ft) as O3.
  cbn [filter].
  destruct (Spec.below m t M_TES) eqn:B1, (Spec.below m t M_VTR) eqn:B2,
           (Spec.below m t M_PAI) eqn:B3;
    cbn [negb andb map JS.sort JS.insert gap fmetric];
    try reflexivity;
    split_comparisons;
    cbn [fmetric];
    first [ worst_is M_TES | worst_is M_VTR | worst_is M_PAI ].
Qed.

(** A decision carries no inversion or the inversion of its action. *)
Lemma filterDecision_inversion now now' act m th :
  filterDecision show now now' act m th = None
  \/ (exists d, filterDecision show now now' act m th = Some d
                /\ inversion d = None)
  \/ (exists d k, filterDecision show now now' act m th = Some d
                  /\ inversion d = Some (vectorInversion show now' act k "")).
Proof.
  unfold filterDecision.
  destruct (valid _).
  - right; left. eexists; split; reflexivity.
  - destruct (JS.sort _ _) as [|w ws]; [now left|].
    right; right. do 2 eexists; split; reflexivity.
Qed.

(** The recovered triple always passes the moderate preset. *)
Lemma vectorInversion_newMetrics now req fm ctx :
  newMetrics (vectorInversion show now req fm ctx)
  = {| scores := {| TES := match fm with M_TES => 0.85 | _ => 0.75 end;
                    VTR := match fm with M_VTR => 2.0 | _ => 1.8 end;
                    PAI := match fm with M_PAI => 0.90 | _ => 0.85 end |};
       valid := true; warnings := []; timestamp := now |}.
Proof. destruct fm; reflexivity. Qed.

(** C5. The [valid] flag of the [newMetrics] of an inversion is reproduced
    when its three scores are validated again against the thresholds that
    produced it (the default, moderate preset), at any later clock reading
    and with any rendering of numbers: the flag is a function of the
    scores and the thresholds alone. *)
Theorem inversion_revalidate (now now2 : Z) (req : string) (fm : Metric)
    (ctx : string) (show2 : Q -> string) :
  let nm := newMetrics (vectorInversion show now req fm ctx) in
  valid (validateAURA show2 now2 (scores nm) None) = valid nm
  /\ valid (validateAURA show2 now2 (scores nm) (Some (AURA_PRESETS moderate)))
     = valid nm
  /\ forall m th, valid (validateAURA show2 now2 m th)
                  = valid (validateAURA show now m th).
Proof.
  cbv zeta. rewrite vectorInversion_newMetrics.
  split; [destruct fm; reflexivity|]. split; [destruct fm; reflexivity|].
  intros m th. unfold validateAURA.
  destruct (JS.Qltb (TES m) (TES (orDefault th))),
           (JS.Qltb (VTR m) (VTR (orDefault th))),
           (JS.Qltb (PAI m) (PAI (orDefault th))); reflexivity.
Qed.

(** C10. The [newMetrics] of every inversion has [valid = true] and no
    warning: its scores are the fixed recovered values, validated against
    the moderate preset, and this holds for the inversion inside a decision
    of [filterDecision] whatever thresholds the caller passed. *)
Theorem inversion_newMetrics_valid (now now0 : Z) (req : string) (fm : Metric)
    (ctx : string) (m : AURAThresholds) (th : option AURAThresholds) :
  let nm := newMetrics (vectorInversion show now req fm ctx) in
  valid nm = true /\ warnings nm = []
  /\ scores nm = {| TES := match fm with M_TES => 0.85 | _ => 0.75 end;
                    VTR := match fm with M_VTR => 2.0 | _ => 1.8 end;
                    PAI := match fm with M_PAI => 0.90 | _ => 0.85 end |}
  /\ match filterDecision show now0 now req m th with
     | Some d =>
         match inversion d with
         | Some inv => valid (newMetrics inv) = true /\ warnings (newMetrics inv) = []
         | None => True
         end
     | None => True
     end.
Proof.
  cbv zeta. rewrite vectorInversion_newMetrics. cbn [valid warnings scores].
  repeat split.
  destruct (filterDecision_inversion now0 now req m th)
    as [-> |[(d & -> & ->)|(d & k & -> & ->)]]; [exact I | exact I |].
  now rewrite vectorInversion_newMetrics.
Qed.

(** C9, as the code has it. The intent is made of the first 10 fields of
    the request, where the fields are what lies between single space
    characters (they contain no space, may be empty, and joined by a space
    they give the request back), joined by a space, and followed by the
    ellipsis exactly when there are more than 10 fields, that is, when the
    request has at least 10 space characters. *)
Theorem vectorInversion_intent (now : Z) (req : string) (fm : Metric)
    (ctx : string) :
  let fields := JS.split " " req in
  JS.join " " fields = req
  /\ Forall (fun f => Spec.contains " " f = false) fields
  /\ List.length fields = S (Spec.occurrences " " req)
  /\ originalIntent (vectorInversion show now req fm ctx)
     = (JS.join " " (firstn 10 fields)
        ++ (if (10 <=? Spec.occurrences " " req)%nat then "..." else ""))%string.
Proof.
  cbv zeta. split; [apply JSFacts.join_split|].
  split; [apply JSFacts.split_fields|].
  split; [apply JSFacts.length_split|].
  replace (10 <=? Spec.occurrences " " req)%nat
    with (10 <? List.length (JS.split " " req))%nat
    by now rewrite JSFacts.length_split.
  destruct fm; reflexivity.
Qed.

End Evaluator.

Lemma lowScores_finite : Spec.finiteTriple Spec.lowScores.
Proof. intros k. destruct k; vm_compute; reflexivity. Qed.

Lemma moderate_finite : Spec.finiteTriple (AURA_PRESETS moderate).
Proof. intros k. destruct k; vm_compute; reflexivity. Qed.

Lemma filterDecision_worst_witness :
  Spec.finiteTriple Spec.lowScores
  /\ Spec.finiteTriple (AURA_PRESETS moderate)
  /\ exists k,
    filterDecision Spec.plain 0 1 "do it all" Spec.lowScores None
    = Some {| action := "do it all";
              metrics := validateAURA Spec.plain 0 Spec.lowScores
                           (Some (AURA_PRESETS moderate));
              passed := false;
              inversion := Some (vectorInversion Spec.plain 1 "do it all" k "") |}
    /\ Spec.below Spec.lowScores (AURA_PRESETS moderate) k = true
    /\ forall k', Spec.below Spec.lowScores (AURA_PRESETS moderate) k' = true ->
         Double.leb (Spec.gap64 Spec.lowScores (AURA_PRESETS moderate) k')
                    (Spec.gap64 Spec.lowScores (AURA_PRESETS moderate) k) = true
         /\ (Double.eqb (Spec.gap64 Spec.lowScores (AURA_PRESETS moderate) k')
                        (Spec.gap64 Spec.lowScores (AURA_PRESETS moderate) k) = true ->
             (Spec.rank k <= Spec.rank k')%nat).
Proof.
  split; [exact lowScores_finite|]. split; [exact moderate_finite|].
  exact (filterDecision_worst Spec.plain 0 1 "do it all" Spec.lowScores None
           lowScores_finite moderate_finite).
Defined.

(** C2, as the specification words it, fails. The metrics 0.2, 1.0 and
    0.3 miss the moderate thresholds 0.7, 1.5 and 0.8 by the same gap, one
    half, so that the inversion should be the one of TES, the first in the
    evaluation order. The code subtracts doubles: 0.7 - 0.2 gives
    0.49999999999999994, below the 0.5 of the other two, and the inversion
    is the one of VTR. The exact differences of the six doubles would not
    give VTR either: the largest is the one of PAI. *)
Lemma filterDecision_rounded_gap :
  filterDecision Spec.plain 0 1 "do it all" Spec.halfBelow None
  = Some {| action := "do it all";
            metrics := validateAURA Spec.plain 0 Spec.halfBelow
                         (Some (AURA_PRESETS moderate));
            passed := false;
            inversion := Some (vectorInversion Spec.plain 1 "do it all" M_VTR "") |}
  /\ Forall (fun k => Spec.below Spec.halfBelow (AURA_PRESETS moderate) k = true
                      /\ (Spec.gapOf Spec.halfBelow (AURA_PRESETS moderate) k == 1 # 2)%Q)
            [M_TES; M_VTR; M_PAI]
  /\ (Spec.rank M_TES < Spec.rank M_VTR)%nat
  /\ Spec.gap64 Spec.halfBelow (AURA_PRESETS moderate) M_TES
     = Double.finite (9007199254740991 # 18014398509481984)
  /\ Spec.gap64 Spec.halfBelow (AURA_PRESETS moderate) M_VTR = Double.finite (1 # 2)
  /\ Spec.gap64 Spec.halfBelow (AURA_PRESETS moderate) M_PAI = Double.finite (1 # 2)
  /\ (Spec.place (Double.ofQ 1.5) - Spec.place (Double.ofQ 1.0)
      < Spec.place (Double.ofQ 0.80) - Spec.place (Double.ofQ 0.3))%Q.
Proof.
  split; [vm_compute; reflexivity|].
  split; [repeat constructor|].
  split; [cbn; lia|].
  repeat split; vm_compute; reflexivity.
Qed.

(** C6. A captured value of zero makes [calculateVTR] return 10.0 and a
    total of zero elements makes [calculateTES] return 1.0, whatever the
    other parameters. *)
Theorem calculators_zero_guard (pv : VTRParams) (pt : TESParams) :
  ((valueCaptured pv == 0)%Q -> calculateVTR pv = Double.finite 10.0)
  /\ ((totalElements pt == 0)%Q -> calculateTES pt = Double.finite 1.0).
Proof.
  split; intros H; apply Qeq_bool_iff in H.
  - unfold calculateVTR, Double.ofQ, Double.round. now rewrite H.
  - unfold calculateTES, Double.ofQ, Double.round. now rewrite H.
Qed.

Lemma calculators_zero_guard_witness :
  calculateVTR {| valueOffered := 3; valueCaptured := 0;
                  skillsTransferred := 7; autonomyPreserved := 0.5 |}
  = Double.finite 10.0
  /\ calculateTES {| totalElements := 0; essentialElements := 4;
                     clarityScore := 0.9; anxietyInduced := 0.2 |}
     = Double.finite 1.0.
Proof.
  pose proof (calculators_zero_guard
    {| valueOffered := 3; valueCaptured := 0;
       skillsTransferred := 7; autonomyPreserved := 0.5 |}
    {| totalElements := 0; essentialElements := 4;
       clarityScore := 0.9; anxietyInduced := 0.2 |}) as [Hv Ht].
  split; [apply Hv | apply Ht]; reflexivity.
Defined.

(** C9, as the specification words it, fails: a request of six words
    separated by two spaces each has six tokens, yet the intent drops the
    sixth word and ends in the ellipsis. *)
Lemma intent_differs_from_tokens :
  let req := "a  b  c  d  e  f" in
  Spec.tokens req = ["a"; "b"; "c"; "d"; "e"; "f"]
  /\ originalIntent (vectorInversion Spec.plain 0 req M_TES "") = "a  b  c  d  e ..."
  /\ Spec.intentOfTokens req = "a b c d e f"
  /\ originalIntent (vectorInversion Spec.plain 0 req M_TES "")
     <> Spec.intentOfTokens req.
Proof. cbv zeta. repeat split. discriminate. Qed.

End AuraSpec.

(** ** The calendar *)

Module DateFacts.

Import JSDate Spec JSFacts.
Local Open Scope Z_scope.

Lemma DaysInYear_cases y : DaysInYear y = 365 \/ DaysInYear y = 366.
Proof. unfold DaysInYear. repeat destruct (negb _); auto. Qed.

Lemma DayFromYear_succ y : DayFromYear (y + 1) = DayFromYear y + DaysInYear y.
Proof.
  unfold DayFromYear, DaysInYear.
  destruct (Z.eqb_spec (y mod 4) 0), (Z.eqb_spec (y mod 100) 0),
           (Z.eqb_spec (y mod 400) 0); cbn [negb];
  Z.div_mod_to_equations; lia.
Qed.

Lemma YearFromDay_spec d :
  DayFromYear (YearFromDay d) <= d < DayFromYear (YearFromDay d + 1).
Proof.
  unfold YearFromDay.
  set (y := 1970 + 400 * d / 146097).
  assert (Hlo : DayFromYear (y - 1) <= d).
  { unfold DayFromYear, y. Z.div_mod_to_equations. lia. }
  assert (Hhi : d < DayFromYear (y + 2)).
  { unfold DayFromYear, y. Z.div_mod_to_equations. lia. }
  destruct (Z.leb_spec (DayFromYear (y + 1)) d).
  - replace (y + 1 + 1) with (y + 2) by lia. lia.
  - destruct (Z.leb_spec (DayFromYear y) d).
    + lia.
    + replace (y - 1 + 1) with y by lia. lia.
Qed.

Lemma DayFromYear_lt y1 y2 : y1 < y2 -> DayFromYear y1 < DayFromYear y2.
Proof. unfold DayFromYear. intros. Z.div_mod_to_equations. lia. Qed.

Lemma YearFromDay_unique d y :
  DayFromYear y <= d < DayFromYear (y + 1) -> YearFromDay d = y.
Proof.
  intros H. pose proof (YearFromDay_spec d) as S.
  destruct (Z.lt_trichotomy (YearFromDay d) y) as [L|[E|G]]; [|exact E|].
  - assert (DayFromYear (YearFromDay d + 1) <= DayFromYear y).
    { destruct (Z.eq_dec (YearFromDay d + 1) y) as [->|]; [lia|].
      apply Z.lt_le_incl, DayFromYear_lt. lia. }
    lia.
  - assert (DayFromYear (y + 1) <= DayFromYear (YearFromDay d)).
    { destruct (Z.eq_dec (y + 1) (YearFromDay d)) as [->|]; [lia|].
      apply Z.lt_le_incl, DayFromYear_lt. lia. }
    lia.
Qed.

Lemma Day_MakeDate n : Day (MakeDate n 0) = n.
Proof. unfold Day, MakeDate, msPerDay. rewrite Z.add_0_r. now apply Z.div_mul. Qed.

Lemma DayWithinYear_range t :
  0 <= DayWithinYear t < DaysInYear (YearFromTime t).
Proof.
  unfold DayWithinYear, YearFromTime.
  pose proof (YearFromDay_spec (Day t)) as S.
  rewrite DayFromYear_succ in S. lia.
Qed.

Lemma InLeapYear_days t : DaysInYear (YearFromTime t) = 365 + InLeapYear t.
Proof.
  unfold InLeapYear. destruct (DaysInYear_cases (YearFromTime t)) as [E|E]; rewrite E; reflexivity.
Qed.

Lemma MonthFromTime_range t : 0 <= MonthFromTime t <= 11.
Proof. unfold MonthFromTime. cbv zeta. repeat destruct (_ <? _); lia. Qed.

Lemma MakeDay_of_time t :
  MakeDay (YearFromTime t) (MonthFromTime t) (DateFromTime t) = Day t.
Proof.
  pose proof (DayWithinYear_range t) as R. rewrite InLeapYear_days in R.
  unfold MakeDay, DayFromMonth, DateFromTime, MonthFromTime. cbv zeta.
  fold (InLeapYear t).
  assert (L : InLeapYear t = 0 \/ InLeapYear t = 1).
  { unfold InLeapYear. destruct (_ =? _); auto. }
  unfold DayWithinYear in *.
  repeat match goal with |- context [?a <? ?b] => destruct (Z.ltb_spec a b) end; lia.
Qed.

Lemma DateFromTime_range t : 1 <= DateFromTime t <= 31.
Proof.
  pose proof (DayWithinYear_range t) as R. rewrite InLeapYear_days in R.
  unfold DateFromTime, MonthFromTime. cbv zeta.
  assert (L : InLeapYear t = 0 \/ InLeapYear t = 1).
  { unfold InLeapYear. destruct (_ =? _); auto. }
  repeat match goal with |- context [?a <? ?b] => destruct (Z.ltb_spec a b) end; lia.
Qed.

(** The code of the character of a decimal digit. *)
Lemma digitChar_code n :
  0 <= n <= 9 -> Z.of_N (N_of_ascii (digitChar n)) = 48 + n.
Proof.
  intros H. unfold digitChar. rewrite N_ascii_embedding by lia. lia.
Qed.

Lemma digitVal_digitChar n : 0 <= n <= 9 -> digitVal (digitChar n) = Some n.
Proof.
  intros H. unfold digitVal. rewrite digitChar_code by assumption.
  destruct (Z.leb_spec 48 (48 + n)), (Z.leb_spec (48 + n) 57); try lia.
  cbn [andb]. f_equal. lia.
Qed.

Lemma digitChar_not c n :
  digitVal c = None -> 0 <= n <= 9 -> Ascii.eqb (digitChar n) c = false.
Proof.
  intros Hc Hn. destruct (Ascii.eqb_spec (digitChar n) c) as [<-|]; [|reflexivity].
  rewrite digitVal_digitChar in Hc by assumption. discriminate.
Qed.

Lemma mod10_range x : 0 <= x mod 10 <= 9.
Proof. pose proof (Z.mod_pos_bound x 10). lia. Qed.

Lemma number_digits w n acc :
  number acc (list_ascii_of_string (digits w n))
  = Some (acc * 10 ^ Z.of_nat w + n mod 10 ^ Z.of_nat w).
Proof.
  revert acc. induction w as [|w IH]; intros acc.
  - cbn. rewrite Z.mod_1_r. f_equal. lia.
  - cbn [digits list_ascii_of_string number].
    rewrite digitVal_digitChar by apply mod10_range.
    cbn [JS.bind]. rewrite IH. f_equal.
    rewrite Nat2Z.inj_succ, Z.pow_succ_r by lia.
    rewrite (Z.mul_comm 10 (10 ^ Z.of_nat w)).
    rewrite (Z.rem_mul_r n (10 ^ Z.of_nat w) 10) by lia.
    lia.
Qed.

Lemma dateFields_digits y m d :
  1 <= m <= 12 -> 1 <= d <= 31 ->
  dateFields y (list_ascii_of_string (digits 2 m)) (list_ascii_of_string (digits 2 d))
  = TimeClip (MakeDate (MakeDay y (m - 1) d) 0).
Proof.
  intros Hm Hd. unfold dateFields. rewrite !number_digits. cbn [JS.bind].
  change (10 ^ Z.of_nat 2) with 100.
  rewrite !Z.mod_small by lia. cbn [Z.mul Z.add].
  destruct (Z.leb_spec 1 m), (Z.leb_spec m 12), (Z.leb_spec 1 d), (Z.leb_spec d 31);
    try lia. reflexivity.
Qed.

Lemma parseDate_plain y m d :
  0 <= y <= 9999 ->
  parseDate (digits 4 y ++ "-" ++ digits 2 m ++ "-" ++ digits 2 d)
  = dateFields y (list_ascii_of_string (digits 2 m)) (list_ascii_of_string (digits 2 d)).
Proof.
  intros Hy. unfold parseDate.
  cbn [digits append list_ascii_of_string].
  rewrite !digitChar_not by (reflexivity || apply mod10_range).
  cbn [orb].
  match goal with |- context [number 0 ?l] =>
    change l with (list_ascii_of_string (digits 4 y)) end.
  rewrite number_digits. cbn [JS.bind].
  change (10 ^ Z.of_nat 4) with 10000. rewrite Z.mod_small by lia.
  reflexivity.
Qed.

Lemma parseDate_expanded (neg : bool) y m d :
  0 <= y < 1000000 -> (neg = true -> y <> 0) ->
  parseDate ((if neg then "-" else "+") ++ digits 6 y ++ "-" ++ digits 2 m ++ "-" ++ digits 2 d)
  = dateFields (if neg then - y else y)
      (list_ascii_of_string (digits 2 m)) (list_ascii_of_string (digits 2 d)).
Proof.
  intros Hy Hn. unfold parseDate.
  destruct neg; cbn [digits append list_ascii_of_string Ascii.eqb Bool.eqb orb andb];
  match goal with |- context [number 0 ?l] =>
    change l with (list_ascii_of_string (digits 6 y)) end;
  rewrite number_digits; cbn [JS.bind];
  change (10 ^ Z.of_nat 6) with 1000000; rewrite Z.mod_small by lia;
  cbn [Z.mul Z.add].
  - destruct (Z.eqb_spec y 0); [now elim Hn|reflexivity].
  - reflexivity.
Qed.

Lemma dateString_Day t : dateString t = keyOfDay (Day t).
Proof.
  unfold keyOfDay, dateString, DateFromTime, MonthFromTime, InLeapYear,
    DayWithinYear, YearFromTime.
  now rewrite Day_MakeDate.
Qed.

Lemma TimeClip_Some t v : TimeClip t = Some v -> v = t /\ -8640000000000000 <= t <= 8640000000000000.
Proof.
  unfold TimeClip. destruct (Z.leb_spec (-8640000000000000) t), (Z.leb_spec t 8640000000000000);
    cbn; intros [=]; lia.
Qed.

Lemma TimeClip_valid t : -8640000000000000 <= t <= 8640000000000000 -> TimeClip t = Some t.
Proof.
  intros H. unfold TimeClip.
  destruct (Z.leb_spec (-8640000000000000) t), (Z.leb_spec t 8640000000000000); cbn; try lia.
  reflexivity.
Qed.

Lemma TimeClip_None t : TimeClip t = None -> ~ (-8640000000000000 <= t <= 8640000000000000).
Proof. intros H R. rewrite TimeClip_valid in H by assumption. discriminate. Qed.

Lemma validDay_Day t : -8640000000000000 <= t <= 8640000000000000 -> validDay (Day t).
Proof. unfold validDay, Day, msPerDay. intros; Z.div_mod_to_equations; lia. Qed.

Lemma validDay_time n : validDay n -> -8640000000000000 <= MakeDate n 0 <= 8640000000000000.
Proof. unfold validDay, MakeDate, msPerDay. lia. Qed.

Lemma year_range n : validDay n -> -271821 <= YearFromDay n <= 275760.
Proof.
  intros [Hlo Hhi]. pose proof (YearFromDay_spec n) as [S1 S2].
  split.
  - destruct (Z.le_gt_cases (-271821) (YearFromDay n)) as [|L]; [assumption|exfalso].
    assert (DayFromYear (YearFromDay n + 1) <= DayFromYear (-271821)).
    { destruct (Z.eq_dec (YearFromDay n + 1) (-271821)) as [->|]; [lia|].
      apply Z.lt_le_incl, DayFromYear_lt. lia. }
    assert (DayFromYear (-271821) < -100000000) by reflexivity. lia.
  - destruct (Z.le_gt_cases (YearFromDay n) 275760) as [|L]; [assumption|exfalso].
    assert (DayFromYear 275761 <= DayFromYear (YearFromDay n)).
    { destruct (Z.eq_dec 275761 (YearFromDay n)) as [<-|]; [lia|].
      apply Z.lt_le_incl, DayFromYear_lt. lia. }
    assert (100000000 < DayFromYear 275761) by reflexivity. lia.
Qed.

Lemma keyOfDay_shape n :
  keyOfDay n
  = (yearString (YearFromDay n) ++ "-" ++ digits 2 (MonthFromTime (MakeDate n 0) + 1)
     ++ "-" ++ digits 2 (DateFromTime (MakeDate n 0)))%string.
Proof. unfold keyOfDay, dateString, YearFromTime. now rewrite Day_MakeDate. Qed.

Lemma parseDate_keyOfDay n : validDay n -> parseDate (keyOfDay n) = Some (MakeDate n 0).
Proof.
  intros V. pose proof (year_range n V) as Y.
  pose proof (MonthFromTime_range (MakeDate n 0)) as M.
  pose proof (DateFromTime_range (MakeDate n 0)) as D.
  assert (F : forall y, y = YearFromDay n ->
            dateFields y
              (list_ascii_of_string (digits 2 (MonthFromTime (MakeDate n 0) + 1)))
              (list_ascii_of_string (digits 2 (DateFromTime (MakeDate n 0))))
            = Some (MakeDate n 0)).
  { intros y ->. rewrite dateFields_digits by lia.
    replace (MonthFromTime (MakeDate n 0) + 1 - 1) with (MonthFromTime (MakeDate n 0)) by lia.
    pose proof (MakeDay_of_time (MakeDate n 0)) as E.
    unfold YearFromTime in E. rewrite Day_MakeDate in E. rewrite E.
    apply TimeClip_valid, validDay_time, V. }
  rewrite keyOfDay_shape. unfold yearString.
  destruct (Z.leb_spec 0 (YearFromDay n)) as [P|N]; cbn [andb].
  - destruct (Z.leb_spec (YearFromDay n) 9999) as [S|B].
    + rewrite parseDate_plain by lia. now apply F.
    + destruct (Z.ltb_spec (YearFromDay n) 0); [lia|].
      rewrite Z.abs_eq by lia.
      rewrite <- (F (YearFromDay n) eq_refl).
      rewrite <- (parseDate_expanded false) by (lia || discriminate).
      reflexivity.
  - destruct (Z.ltb_spec (YearFromDay n) 0); [|lia].
    rewrite Z.abs_neq by lia.
    rewrite <- (F (YearFromDay n) eq_refl).
    pose proof (parseDate_expanded true (- YearFromDay n)
                  (MonthFromTime (MakeDate n 0) + 1)
                  (DateFromTime (MakeDate n 0))) as P.
    rewrite Z.opp_involutive in P. apply P; lia.
Qed.

Lemma contains_app c a b :
  Spec.contains c (a ++ b) = Spec.contains c a || Spec.contains c b.
Proof. induction a as [|x a IH]; cbn; [reflexivity|]. now rewrite IH, orb_assoc. Qed.

Lemma split_prefix c a r :
  Spec.contains c a = false -> JS.split c (a ++ String c r) = a :: JS.split c r.
Proof.
  induction a as [|x a IH]; cbn [Spec.contains append JS.split]; intros H.
  - now rewrite Ascii.eqb_refl.
  - apply orb_false_iff in H as [H1 H2]. rewrite H1, (IH H2). reflexivity.
Qed.

Lemma contains_digits c w n :
  digitVal c = None -> Spec.contains c (digits w n) = false.
Proof.
  intros H. induction w as [|w IH]; cbn [digits Spec.contains]; [reflexivity|].
  rewrite IH, digitChar_not by (assumption || apply mod10_range). reflexivity.
Qed.

Lemma contains_T_dateString t : Spec.contains "T" (dateString t) = false.
Proof.
  unfold dateString, yearString.
  destruct (_ && _); [|destruct (_ <? _)];
    rewrite ?contains_app, ?contains_digits by reflexivity; reflexivity.
Qed.

Lemma getDateKey_valid t :
  -8640000000000000 <= t <= 8640000000000000 ->
  Streak.getDateKey t = Some (keyOfDay (Day t)).
Proof.
  intros V. unfold Streak.getDateKey, newDate. rewrite TimeClip_valid by assumption.
  cbn [toISOString JS.bind].
  change ("T" ++ timeString t ++ "Z")%string with (String "T"%char (timeString t ++ "Z")%string).
  rewrite split_prefix by apply contains_T_dateString.
  cbn [hd_error]. now rewrite dateString_Day.
Qed.

Lemma getDateKey_Some t k :
  Streak.getDateKey t = Some k ->
  -8640000000000000 <= t <= 8640000000000000 /\ k = keyOfDay (Day t).
Proof.
  intros H. unfold Streak.getDateKey, newDate in H.
  destruct (TimeClip t) as [v|] eqn:E; [|discriminate].
  apply TimeClip_Some in E as [-> V]. split; [assumption|].
  pose proof (getDateKey_valid t V) as G.
  unfold Streak.getDateKey, newDate in G. rewrite TimeClip_valid in G by assumption.
  congruence.
Qed.

Lemma getDateKey_MakeDate n : validDay n -> Streak.getDateKey (MakeDate n 0) = Some (keyOfDay n).
Proof.
  intros V. rewrite getDateKey_valid by now apply validDay_time.
  now rewrite Day_MakeDate.
Qed.

(** Under a constant offset, [d.setDate(d.getDate() - 1)] moves back 24 hours. *)
Lemma setDate_previous zone t :
  constantOffset zone ->
  setDate zone t (getDate zone t - 1) = TimeClip (t - msPerDay).
Proof.
  intros (c & C). unfold setDate, getDate, LocalTime, UTC. cbv zeta.
  f_equal. rewrite (proj1 (C t)). set (tl := t + c).
  rewrite (proj2 (C _)).
  pose proof (MakeDay_of_time tl) as E. unfold MakeDay in *.
  unfold MakeDate, TimeWithinDay.
  replace (DayFromMonth (YearFromTime tl) (MonthFromTime tl) + (DateFromTime tl - 1) - 1)
    with (Day tl - 1) by lia.
  unfold Day in *. subst tl. unfold msPerDay.
  Z.div_mod_to_equations. lia.
Qed.

(** The injectivity of keys on valid days. *)
Lemma keyOfDay_inj a b : validDay a -> validDay b -> keyOfDay a = keyOfDay b -> a = b.
Proof.
  intros Va Vb E. pose proof (parseDate_keyOfDay a Va) as Pa.
  rewrite E, (parseDate_keyOfDay b Vb) in Pa.
  unfold MakeDate, msPerDay in Pa. injection Pa. lia.
Qed.

Lemma getDaysBetween_keys a b :
  validDay a -> validDay b ->
  Streak.getDaysBetween (parseDate (keyOfDay a)) (parseDate (keyOfDay b)) = Some (b - a).
Proof.
  intros Va Vb. rewrite !parseDate_keyOfDay by assumption.
  unfold Streak.getDaysBetween, MakeDate. f_equal.
  change (1000 * 60 * 60 * 24) with msPerDay. unfold msPerDay.
  Z.div_mod_to_equations. lia.
Qed.

(** *** The order of the keys *)

Lemma compare_app a a' b b' :
  String.length a = String.length a' ->
  String.compare (a ++ b) (a' ++ b')
  = match String.compare a a' with Eq => String.compare b b' | c => c end.
Proof.
  revert a'. induction a as [|x a IH]; intros [|x' a'] L; try discriminate; cbn.
  - reflexivity.
  - injection L as L. rewrite (IH a' L).
    destruct (Ascii.compare x x'); reflexivity.
Qed.

Lemma length_digits w n : String.length (digits w n) = w.
Proof. induction w as [|w IH]; cbn; [reflexivity|]. now rewrite IH. Qed.

Lemma compare_digitChar a b :
  0 <= a <= 9 -> 0 <= b <= 9 -> Ascii.compare (digitChar a) (digitChar b) = (a ?= b).
Proof.
  intros Ha Hb. unfold Ascii.compare.
  rewrite <- N2Z.inj_compare, !digitChar_code by assumption.
  apply Z.add_compare_mono_l.
Qed.

Lemma compare_digits w : forall x y,
  String.compare (digits w x) (digits w y)
  = (x mod 10 ^ Z.of_nat w ?= y mod 10 ^ Z.of_nat w).
Proof.
  induction w as [|w IH]; intros x y.
  - cbn. now rewrite !Z.mod_1_r.
  - cbn [digits String.compare].
    rewrite compare_digitChar by apply mod10_range. rewrite IH.
    rewrite Nat2Z.inj_succ, Z.pow_succ_r by lia.
    rewrite (Z.mul_comm 10 (10 ^ Z.of_nat w)).
    rewrite !(Z.rem_mul_r _ (10 ^ Z.of_nat w) 10) by lia.
    set (p := 10 ^ Z.of_nat w).
    assert (Hp : 0 < p) by (apply Z.pow_pos_nonneg; lia).
    pose proof (Z.mod_pos_bound x p Hp). pose proof (Z.mod_pos_bound y p Hp).
    set (dx := (x / p) mod 10) in *. set (dy := (y / p) mod 10) in *.
    set (rx := x mod p) in *. set (ry := y mod p) in *.
    destruct (Z.compare_spec dx dy) as [->|L|G].
    + destruct (Z.compare_spec rx ry) as [->|L|G]; symmetry.
      * apply Z.compare_refl.
      * apply Z.compare_lt_iff. lia.
      * apply Z.compare_gt_iff. lia.
    + symmetry. apply Z.compare_lt_iff. nia.
    + symmetry. apply Z.compare_gt_iff. nia.
Qed.

Lemma YearFromDay_le a b : a <= b -> YearFromDay a <= YearFromDay b.
Proof.
  intros H. pose proof (YearFromDay_spec a) as [A1 A2].
  pose proof (YearFromDay_spec b) as [B1 B2].
  destruct (Z.le_gt_cases (YearFromDay a) (YearFromDay b)) as [|G]; [assumption|exfalso].
  assert (DayFromYear (YearFromDay b + 1) <= DayFromYear (YearFromDay a)).
  { destruct (Z.eq_dec (YearFromDay b + 1) (YearFromDay a)) as [->|]; [lia|].
    apply Z.lt_le_incl, DayFromYear_lt. lia. }
  lia.
Qed.

Lemma plainDay_year n : plainDay n -> 0 <= YearFromDay n <= 9999.
Proof.
  intros [Hlo Hhi]. pose proof (YearFromDay_spec n) as [S1 S2]. split.
  - destruct (Z.le_gt_cases 0 (YearFromDay n)) as [|L]; [assumption|exfalso].
    assert (DayFromYear (YearFromDay n + 1) <= DayFromYear 0).
    { destruct (Z.eq_dec (YearFromDay n + 1) 0) as [->|]; [lia|].
      apply Z.lt_le_incl, DayFromYear_lt. lia. }
    assert (DayFromYear 0 = -719528) by reflexivity. lia.
  - destruct (Z.le_gt_cases (YearFromDay n) 9999) as [|L]; [assumption|exfalso].
    assert (DayFromYear 10000 <= DayFromYear (YearFromDay n)).
    { destruct (Z.eq_dec 10000 (YearFromDay n)) as [<-|]; [lia|].
      apply Z.lt_le_incl, DayFromYear_lt. lia. }
    assert (DayFromYear 10000 = 2932897) by reflexivity. lia.
Qed.

Lemma plainDay_valid n : plainDay n -> validDay n.
Proof. unfold plainDay, validDay. lia. Qed.

(** Within one year the month and the date grow with the day. *)
Lemma month_date_lt a b :
  a < b -> YearFromDay a = YearFromDay b ->
  monthOfDay a < monthOfDay b
  \/ (monthOfDay a = monthOfDay b /\ dateOfDay a < dateOfDay b).
Proof.
  intros L Y.
  pose proof (DayWithinYear_range (MakeDate a 0)) as Ra.
  pose proof (DayWithinYear_range (MakeDate b 0)) as Rb.
  rewrite InLeapYear_days in Ra, Rb.
  unfold monthOfDay, dateOfDay, DateFromTime, MonthFromTime. cbv zeta.
  assert (El : InLeapYear (MakeDate a 0) = InLeapYear (MakeDate b 0)).
  { unfold InLeapYear, YearFromTime. now rewrite !Day_MakeDate, Y. }
  assert (Ed : DayWithinYear (MakeDate a 0) < DayWithinYear (MakeDate b 0)).
  { unfold DayWithinYear, YearFromTime. rewrite !Day_MakeDate, Y. lia. }
  rewrite El in *.
  set (l := InLeapYear (MakeDate b 0)) in *.
  assert (Hl : l = 0 \/ l = 1).
  { subst l. unfold InLeapYear. destruct (_ =? _); auto. }
  set (da := DayWithinYear (MakeDate a 0)) in *.
  set (db := DayWithinYear (MakeDate b 0)) in *.
  clearbody da db l.
  repeat match goal with |- context [?x <? ?y] => destruct (Z.ltb_spec x y) end; lia.
Qed.

Lemma keyOfDay_plain n :
  plainDay n ->
  keyOfDay n = (digits 4 (YearFromDay n) ++ String "-" (digits 2 (monthOfDay n + 1)
                 ++ String "-" (digits 2 (dateOfDay n))))%string.
Proof.
  intros P. apply plainDay_year in P. rewrite keyOfDay_shape. unfold yearString.
  destruct (Z.leb_spec 0 (YearFromDay n)), (Z.leb_spec (YearFromDay n) 9999); try lia.
  reflexivity.
Qed.

Lemma compare_cons c a b :
  String.compare (String c a) (String c b) = String.compare a b.
Proof. cbn. now rewrite ascii_compare_refl. Qed.

Lemma compare_keyOfDay_lt a b :
  plainDay a -> plainDay b -> a < b ->
  String.compare (keyOfDay a) (keyOfDay b) = Lt.
Proof.
  intros Pa Pb L. rewrite !keyOfDay_plain by assumption.
  pose proof (plainDay_year a Pa) as Ya. pose proof (plainDay_year b Pb) as Yb.
  pose proof (MonthFromTime_range (MakeDate a 0)) as Ma.
  pose proof (MonthFromTime_range (MakeDate b 0)) as Mb.
  pose proof (DateFromTime_range (MakeDate a 0)) as Da.
  pose proof (DateFromTime_range (MakeDate b 0)) as Db.
  fold (monthOfDay a) in Ma. fold (monthOfDay b) in Mb.
  fold (dateOfDay a) in Da. fold (dateOfDay b) in Db.
  rewrite compare_app by now rewrite !length_digits.
  rewrite compare_digits. change (10 ^ Z.of_nat 4) with 10000.
  rewrite !Z.mod_small by lia.
  pose proof (YearFromDay_le a b (Z.lt_le_incl _ _ L)) as Yle.
  destruct (Z.compare_spec (YearFromDay a) (YearFromDay b)) as [E|?|?]; [|reflexivity|lia].
  rewrite compare_cons, compare_app by now rewrite !length_digits.
  rewrite compare_digits. change (10 ^ Z.of_nat 2) with 100.
  rewrite !Z.mod_small by lia.
  destruct (month_date_lt a b L E) as [Lm|[Em Ld]].
  - replace (monthOfDay a + 1 ?= monthOfDay b + 1) with Lt
      by (symmetry; apply Z.compare_lt_iff; lia).
    reflexivity.
  - rewrite Em, Z.compare_refl, compare_cons, compare_digits.
    change (10 ^ Z.of_nat 2) with 100. rewrite !Z.mod_small by lia.
    apply Z.compare_lt_iff. assumption.
Qed.

(** On the days of the years 0000 to 9999 the order of the keys is the
    order of the days. *)
Lemma compare_keyOfDay a b :
  plainDay a -> plainDay b ->
  String.compare (keyOfDay a) (keyOfDay b) = (a ?= b).
Proof.
  intros Pa Pb. destruct (Z.compare_spec a b) as [->|L|G].
  - apply compare_refl.
  - now apply compare_keyOfDay_lt.
  - apply compare_gt_lt. now apply compare_keyOfDay_lt.
Qed.

End DateFacts.

(** ** The streak analyzer *)

Module StreakSpec.

Import JSDate Spec JSFacts DateFacts Streak.
Local Open Scope Z_scope.

Lemma MakeDate_pred n : MakeDate n 0 - msPerDay = MakeDate (n - 1) 0.
Proof. unfold MakeDate. lia. Qed.

Lemma validDay_of_time n : -8640000000000000 <= MakeDate n 0 <= 8640000000000000 -> validDay n.
Proof. unfold MakeDate, msPerDay, validDay. lia. Qed.

(** One round of the loop of the current streak, at a key of a valid day. *)
Lemma previous_key zone n :
  constantOffset zone -> validDay n ->
  match
    match JSDate.parseDate (keyOfDay n) with
    | Some t => JSDate.setDate zone t (JSDate.getDate zone t - 1)
    | None => None
    end
  with
  | Some t => getDateKey t
  | None => None
  end = if -100000000 <? n then Some (keyOfDay (n - 1)) else None.
Proof.
  intros C V. rewrite parseDate_keyOfDay, setDate_previous, MakeDate_pred by assumption.
  destruct (Z.ltb_spec (-100000000) n) as [L|L].
  - assert (V' : validDay (n - 1)) by (unfold validDay in *; lia).
    rewrite TimeClip_valid by now apply validDay_time.
    now apply getDateKey_MakeDate.
  - destruct (TimeClip _) as [v|] eqn:E; [|reflexivity].
    apply TimeClip_Some in E as [_ E]. apply validDay_of_time in E.
    unfold validDay in *. lia.
Qed.

Lemma countCurrent_run zone A : constantOffset zone -> forall n cur k,
  validDay n ->
  countCurrent zone A (keyOfDay n) cur = Some k ->
  exists j R,
    k = cur + Z.of_nat j /\ A = run n j ++ R
    /\ validDay (n - Z.of_nat j)
    /\ match R with [] => True | d :: _ => d <> keyOfDay (n - Z.of_nat j) end.
Proof.
  intros C. induction A as [|day rest IH]; intros n cur k V H; cbn [countCurrent] in H.
  - injection H as <-. exists O, []. cbn [Z.of_nat run app]. rewrite Z.sub_0_r, Z.add_0_r.
    split; [reflexivity|]. split; [reflexivity|]. split; [assumption|exact I].
  - destruct (String.eqb_spec day (keyOfDay n)) as [->|Hne].
    + rewrite (previous_key zone n C V) in H.
      destruct (Z.ltb_spec (-100000000) n) as [L|L]; [|discriminate].
      cbn [JS.bind] in H.
      assert (V' : validDay (n - 1)) by (unfold validDay in *; lia).
      destruct (IH (n - 1) (cur + 1) k V' H) as (j & R & -> & -> & Vj & HR).
      exists (S j), R. rewrite Nat2Z.inj_succ.
      replace (n - Z.succ (Z.of_nat j)) with (n - 1 - Z.of_nat j) by lia.
      split; [lia|]. split; [reflexivity|]. split; assumption.
    + injection H as <-. exists O, (day :: rest). cbn [Z.of_nat run app].
      rewrite Z.sub_0_r, Z.add_0_r.
      split; [reflexivity|]. split; [reflexivity|]. split; assumption.
Qed.

Lemma asc_snoc a m : asc a (S m) = asc a m ++ [keyOfDay (a + Z.of_nat m)].
Proof.
  revert a. induction m as [|m IH]; intros a.
  - cbn. now rewrite Z.add_0_r.
  - change (asc a (S (S m))) with (keyOfDay a :: asc (a + 1) (S m)).
    rewrite IH. replace (a + Z.of_nat (S m)) with (a + 1 + Z.of_nat m) by lia.
    reflexivity.
Qed.

Lemma rev_run n j : rev (run n j) = asc (n - Z.of_nat j + 1) j.
Proof.
  revert n. induction j as [|j IH]; intros n; [reflexivity|].
  cbn [run rev]. rewrite IH, asc_snoc.
  replace (n - 1 - Z.of_nat j + 1) with (n - Z.of_nat (S j) + 1) by lia.
  replace (n - Z.of_nat (S j) + 1 + Z.of_nat j) with n by lia.
  reflexivity.
Qed.

Lemma scanLongest_temp prev rest : forall l t,
  1 <= t -> 1 <= snd (scanLongest prev rest l t).
Proof.
  revert prev. induction rest as [|c rest IH]; intros prev l t H; cbn [scanLongest snd].
  - assumption.
  - destruct (isOne _); apply IH; lia.
Qed.

Lemma scanLongest_app xs y ys : forall prev l t,
  1 <= t ->
  exists l' t', 1 <= t' /\
    scanLongest prev (xs ++ y :: ys) l t = scanLongest y ys l' t'.
Proof.
  induction xs as [|x xs IH]; intros prev l t H; cbn [app scanLongest].
  - destruct (isOne _); eexists _, _; (split; [|reflexivity]); lia.
  - destruct (isOne _); apply IH; lia.
Qed.

Lemma scanLongest_asc m : forall a l t,
  validDay a -> validDay (a + Z.of_nat m) ->
  scanLongest (keyOfDay a) (asc (a + 1) m) l t = (l, t + Z.of_nat m).
Proof.
  induction m as [|m IH]; intros a l t Va Vm; cbn [asc scanLongest].
  - f_equal. lia.
  - assert (V1 : validDay (a + 1)) by (unfold validDay in *; lia).
    rewrite getDaysBetween_keys by assumption.
    replace (a + 1 - a) with 1 by lia. cbn [isOne Z.eqb Pos.eqb].
    rewrite IH; [f_equal; lia|assumption|].
    replace (a + 1 + Z.of_nat m) with (a + Z.of_nat (S m)) by lia. assumption.
Qed.

(** The longest streak is at least the length of any run of consecutive
    days that ends the ascending array. *)
Lemma longest_run X a m :
  validDay a -> validDay (a + Z.of_nat m) ->
  let '(l, t) := match X ++ asc a (S m) with
                 | [] => (0, 1)
                 | first :: rest => scanLongest first rest 0 1
                 end in
  Z.of_nat (S m) <= Z.max l t.
Proof.
  intros Va Vm. destruct X as [|x X]; cbn [app asc].
  - rewrite scanLongest_asc by assumption. lia.
  - destruct (scanLongest_app X (keyOfDay a) (asc (a + 1) m) x 0 1) as (l' & t' & Ht & ->); [lia|].
    rewrite scanLongest_asc by assumption. lia.
Qed.

Lemma longest_positive A :
  let '(l, t) := match A with
                 | [] => (0, 1)
                 | first :: rest => scanLongest first rest 0 1
                 end in
  1 <= Z.max l t.
Proof.
  destruct A as [|f r]; [cbn; lia|].
  pose proof (scanLongest_temp f r 0 1) as H.
  destruct (scanLongest f r 0 1) as [l t]. cbn in H. lia.
Qed.

Lemma current_le_longest zone A n k :
  constantOffset zone -> validDay n ->
  countCurrent zone A (keyOfDay n) 0 = Some k ->
  let '(l, t) := match rev A with
                 | [] => (0, 1)
                 | first :: rest => scanLongest first rest 0 1
                 end in
  0 <= k <= Z.max l t.
Proof.
  intros C V H. destruct (countCurrent_run zone A C n 0 k V H) as (j & R & -> & -> & Vj & _).
  destruct j as [|j].
  - pose proof (longest_positive (rev ([] ++ R))) as P. cbn [run].
    destruct (match rev ([] ++ R) with [] => _ | _ => _ end). lia.
  - rewrite rev_app_distr, rev_run.
    pose proof (longest_run (rev R) (n - Z.of_nat (S j) + 1) j) as P.
    destruct (match rev R ++ _ with [] => _ | _ => _ end).
    cbn [Z.add]. split; [lia|]. apply P; unfold validDay in *; lia.
Qed.

Lemma mapM_getDateKey_Some l keys :
  JS.mapM getDateKey l = Some keys -> Forall validTime l /\ keys = map keyOf l.
Proof.
  revert keys. induction l as [|t l IH]; intros keys H; cbn [JS.mapM] in H.
  - injection H as <-. split; constructor.
  - destruct (getDateKey t) as [k|] eqn:E; [|discriminate]. cbn [JS.bind] in H.
    destruct (JS.mapM getDateKey l) as [ks|]; [|discriminate]. cbn [JS.bind] in H.
    injection H as <-. apply getDateKey_Some in E as [V ->].
    destruct (IH ks eq_refl) as [F ->]. split; [now constructor|reflexivity].
Qed.

Lemma mapM_getDateKey_valid l :
  Forall validTime l -> JS.mapM getDateKey l = Some (map keyOf l).
Proof.
  induction 1 as [|t l V F IH]; cbn [JS.mapM map]; [reflexivity|].
  rewrite getDateKey_valid, IH by assumption. reflexivity.
Qed.

Lemma Day_yesterday now : Day (now - 86400000) = Day now - 1.
Proof. unfold Day, msPerDay. Z.div_mod_to_equations. lia. Qed.

(** The result of a call is within the bounds. *)
Lemma calculateStreak_bounds zone now ts r :
  constantOffset zone ->
  calculateStreak zone now ts = Some r -> 0 <= current r <= longest r.
Proof.
  intros C. unfold calculateStreak. destruct (Nat.eqb _ 0).
  { intros [= <-]. cbn. lia. }
  destruct (JS.mapM _ _) as [keys|]; [|discriminate]. cbn [JS.bind].
  destruct (getDateKey now) as [today|] eqn:Et; [|discriminate]. cbn [JS.bind].
  destruct (getDateKey (now - 86400000)) as [yesterday|] eqn:Ey; [|discriminate].
  cbn [JS.bind].
  apply getDateKey_Some in Et as [Vt ->], Ey as [Vy ->].
  set (A := rev (JS.sort JS.stringCompare (JS.newSet keys))).
  set (c := if strictEq (hd_error A) _ then _ else _).
  assert (Hc : exists n, validDay n /\ c = keyOfDay n).
  { subst c. destruct (strictEq _ _); eexists; (split; [|reflexivity]);
      now apply validDay_Day. }
  destruct Hc as (n & Vn & ->).
  destruct (if _ && _ then Some 0 else _) as [k|] eqn:Ek; [|discriminate].
  cbn [JS.bind].
  assert (B : let '(l, t) := match rev A with
                             | [] => (0, 1)
                             | first :: rest => scanLongest first rest 0 1
                             end in 0 <= k <= Z.max l t).
  { destruct (_ && _).
    - injection Ek as <-. pose proof (longest_positive (rev A)) as P.
      destruct (match rev A with [] => _ | _ => _ end). lia.
    - now apply (current_le_longest zone A n k C). }
  destruct (match rev A with [] => _ | _ => _ end) as [l t].
  intros [= <-]. cbn [current longest]. exact B.
Qed.

Lemma mapM_getDateKey_None l :
  JS.mapM getDateKey l = None -> ~ Forall validTime l.
Proof.
  intros H F. rewrite mapM_getDateKey_valid in H by assumption. discriminate.
Qed.

Lemma getDateKey_validTime t k : getDateKey t = Some k -> validTime t /\ k = keyOf t.
Proof. apply getDateKey_Some. Qed.

Lemma sortDesc_valid ts : Forall validTime (sortDesc ts) <-> Forall validTime ts.
Proof.
  split; apply Permutation_Forall; [|symmetry]; apply sort_perm.
Qed.

Lemma sortDesc_keys ts y : In y (map keyOf (sortDesc ts)) <-> In y (map keyOf ts).
Proof.
  split; apply Permutation_in, Permutation_map; [|symmetry]; apply sort_perm.
Qed.

(** The array of active days depends only on the set of the keys. *)
Lemma dayArray_same keys1 keys2 :
  (forall y, In y keys2 <-> In y keys1) ->
  rev (JS.sort JS.stringCompare (JS.newSet keys2))
  = rev (JS.sort JS.stringCompare (JS.newSet keys1)).
Proof.
  intros H. f_equal. apply sort_strings_perm.
  apply NoDup_Permutation; try apply newSet_NoDup.
  intros y. rewrite !newSet_In. apply H.
Qed.

(** C7. A timestamp whose date key is the key of a timestamp of the list
    changes nothing when it is appended: the call throws as before or
    returns the same [current], [longest] and [isActiveToday]. *)
Theorem calculateStreak_same_day zone now ts t k :
  getDateKey t = Some k -> In (Some k) (map getDateKey ts) ->
  option_map (fun r => (current r, longest r, isActiveToday r))
    (calculateStreak zone now (ts ++ [t]))
  = option_map (fun r => (current r, longest r, isActiveToday r))
      (calculateStreak zone now ts).
Proof.
  intros Hk Hin. apply in_map_iff in Hin as (t0 & H0 & I0).
  apply getDateKey_validTime in Hk as [Vt ->], H0 as [V0 E0].
  unfold calculateStreak.
  assert (L1 : Nat.eqb (List.length ts) 0 = false).
  { destruct ts; [destruct I0|reflexivity]. }
  assert (L2 : Nat.eqb (List.length (ts ++ [t])) 0 = false).
  { destruct ts; reflexivity. }
  rewrite L1, L2.
  fold (sortDesc (ts ++ [t])). fold (sortDesc ts).
  destruct (JS.mapM getDateKey (sortDesc ts)) as [keys1|] eqn:M1.
  - apply mapM_getDateKey_Some in M1 as [F1 ->].
    assert (F2 : Forall validTime (sortDesc (ts ++ [t]))).
    { apply sortDesc_valid, Forall_app. split; [now apply sortDesc_valid|now constructor]. }
    rewrite (mapM_getDateKey_valid _ F2). cbn [JS.bind].
    rewrite (dayArray_same (map keyOf (sortDesc ts)) (map keyOf (sortDesc (ts ++ [t])))).
    2:{ intros y. rewrite !sortDesc_keys, map_app, in_app_iff. cbn [map In].
        split; [|now left]. intros [H|[<-|[]]]; [assumption|].
        rewrite E0. now apply in_map. }
    destruct (getDateKey now) as [today|]; [|reflexivity]. cbn [JS.bind].
    destruct (getDateKey (now - 86400000)) as [yesterday|]; [|reflexivity].
    cbn [JS.bind].
    destruct (if _ && _ then Some 0 else _) as [c|]; [|reflexivity]. cbn [JS.bind].
    destruct (match rev _ with [] => _ | _ => _ end) as [l tmp]. reflexivity.
  - apply mapM_getDateKey_None in M1.
    destruct (JS.mapM getDateKey (sortDesc (ts ++ [t]))) as [keys2|] eqn:M2; [|reflexivity].
    apply mapM_getDateKey_Some in M2 as [F2 _].
    apply sortDesc_valid, Forall_app in F2 as [F2 _].
    elim M1. now apply sortDesc_valid.
Qed.

(** The loop of the current streak ends without an exception when no key
    of the array is the key of the first valid day. *)
Lemma countCurrent_total zone A :
  constantOffset zone ->
  Forall (fun d => exists m, -100000000 < m <= 100000000 /\ d = keyOfDay m) A ->
  forall n cur, validDay n -> exists k, countCurrent zone A (keyOfDay n) cur = Some k.
Proof.
  intros C. induction 1 as [|day rest (m & Hm & ->) F IH]; intros n cur V; cbn [countCurrent].
  - eauto.
  - destruct (String.eqb_spec (keyOfDay m) (keyOfDay n)) as [E|Hne]; [|eauto].
    apply keyOfDay_inj in E; [subst m|unfold validDay; lia|assumption].
    rewrite (previous_key zone n C V).
    destruct (Z.ltb_spec (-100000000) n); [|lia]. cbn [JS.bind].
    apply IH. unfold validDay in *. lia.
Qed.

Lemma calculateStreak_returns zone now ts :
  constantOffset zone ->
  Forall inRange (now :: ts) -> exists r, calculateStreak zone now ts = Some r.
Proof.
  intros C F. inversion F as [|? ? Hnow Fts]; subst.
  unfold calculateStreak. destruct (Nat.eqb _ 0); [eauto|].
  fold (sortDesc ts).
  assert (Fv : Forall validTime (sortDesc ts)).
  { apply sortDesc_valid. eapply Forall_impl; [|exact Fts].
    unfold inRange, validTime. intros; lia. }
  rewrite (mapM_getDateKey_valid _ Fv). cbn [JS.bind].
  rewrite !getDateKey_valid by (unfold inRange in Hnow; lia). cbn [JS.bind].
  set (A := rev (JS.sort JS.stringCompare (JS.newSet (map keyOf (sortDesc ts))))).
  assert (FA : Forall (fun d => exists m, -100000000 < m <= 100000000 /\ d = keyOfDay m) A).
  { apply Forall_forall. intros d Hd. subst A.
    apply in_rev in Hd. rewrite sort_In, newSet_In, sortDesc_keys, in_map_iff in Hd.
    destruct Hd as (t & <- & It).
    rewrite Forall_forall in Fts. specialize (Fts t It).
    exists (Day t). split; [|reflexivity].
    unfold inRange, Day, msPerDay in *. Z.div_mod_to_equations. lia. }
  set (c := if strictEq (hd_error A) _ then _ else _).
  assert (Hc : exists n, validDay n /\ c = keyOfDay n).
  { subst c. destruct (strictEq _ _); eexists; (split; [|reflexivity]);
      apply validDay_Day; unfold inRange in Hnow; lia. }
  destruct Hc as (n & Vn & ->).
  destruct (_ && _).
  - cbn [JS.bind]. destruct (match rev A with [] => _ | _ => _ end). eauto.
  - destruct (countCurrent_total zone A C FA n 0 Vn) as (k & ->). cbn [JS.bind].
    destruct (match rev A with [] => _ | _ => _ end). eauto.
Qed.

Lemma activeb_active ts d : activeb ts d = true <-> active ts d.
Proof.
  unfold activeb, active. rewrite existsb_exists.
  split; intros (t & I & E); exists t; (split; [assumption|]); lia.
Qed.

Lemma plainYear_Day t : plainYear t -> plainDay (Day t).
Proof. unfold plainYear, plainDay, Day, msPerDay. intros. Z.div_mod_to_equations. lia. Qed.

Lemma StronglySorted_app {A} (R : A -> A -> Prop) l1 l2 :
  StronglySorted R l1 -> StronglySorted R l2 ->
  (forall a b, In a l1 -> In b l2 -> R a b) -> StronglySorted R (l1 ++ l2).
Proof.
  induction 1 as [|x l1 S IH F]; intros S2 H; cbn [app]; [assumption|].
  constructor.
  - apply IH; [assumption|]. intros a b Ia Ib. apply H; [now right|assumption].
  - apply Forall_app. split; [assumption|].
    apply Forall_forall. intros b Ib. apply H; [now left|assumption].
Qed.

Lemma StronglySorted_rev {A} (R : A -> A -> Prop) l :
  StronglySorted R l -> StronglySorted (fun a b => R b a) (rev l).
Proof.
  induction 1 as [|x l S IH F]; cbn [rev]; [constructor|].
  apply StronglySorted_app; [assumption|repeat constructor|].
  intros a b Ia [<-|[]]. apply in_rev in Ia. rewrite Forall_forall in F. now apply F.
Qed.

(** A sorted array of distinct keys of plain days lists growing days. *)
Lemma sorted_keys_days S :
  StronglySorted strLe S -> NoDup S ->
  Forall (fun s => exists m, plainDay m /\ s = keyOfDay m) S ->
  exists E, S = map keyOfDay E /\ StronglySorted Z.lt E /\ Forall plainDay E.
Proof.
  induction 1 as [|s S SS IH F]; intros N K.
  - exists []. repeat constructor.
  - inversion N as [|? ? Ns NS]; subst. inversion K as [|? ? (m & Pm & ->) KS]; subst.
    destruct (IH NS KS) as (E & -> & SE & PE).
    exists (m :: E). split; [reflexivity|]. split; [|now constructor].
    constructor; [assumption|].
    rewrite Forall_forall in F, PE |- *. intros e Ie.
    specialize (F (keyOfDay e) (in_map _ _ _ Ie)). specialize (PE e Ie).
    unfold strLe in F. rewrite compare_keyOfDay in F by assumption.
    destruct (Z.compare_spec m e) as [->|L|G]; [|assumption|congruence].
    elim Ns. now apply in_map.
Qed.

Lemma active_keys ts s :
  In s (map keyOf ts) <-> exists m, active ts m /\ s = keyOfDay m.
Proof.
  rewrite in_map_iff. split.
  - intros (t & <- & I). exists (Day t). split; [now exists t|reflexivity].
  - intros (m & (t & I & <-) & ->). now exists t.
Qed.

Lemma active_plain ts m : Forall plainYear ts -> active ts m -> plainDay m.
Proof.
  intros F (t & I & <-). rewrite Forall_forall in F. now apply plainYear_Day, F.
Qed.

(** For timestamps of the years 0000 to 9999 the array of days lists the
    active days, the most recent first. *)
Lemma dayArray_days ts :
  Forall plainYear ts ->
  exists D,
    rev (JS.sort JS.stringCompare (JS.newSet (map keyOf (sortDesc ts)))) = map keyOfDay D
    /\ StronglySorted (fun a b => b < a) D
    /\ (forall m, In m D <-> active ts m).
Proof.
  intros F.
  set (S := JS.sort JS.stringCompare (JS.newSet (map keyOf (sortDesc ts)))).
  assert (HS : forall s, In s S <-> exists m, active ts m /\ s = keyOfDay m).
  { intros s. subst S. rewrite sort_In, newSet_In, sortDesc_keys. apply active_keys. }
  destruct (sorted_keys_days S) as (E & HE & SE & PE).
  - apply sort_sorted.
  - eapply Permutation_NoDup; [symmetry; apply sort_perm|apply newSet_NoDup].
  - apply Forall_forall. intros s Hs. apply HS in Hs as (m & Am & ->).
    exists m. split; [now apply (active_plain ts)|reflexivity].
  - exists (rev E). rewrite HE, map_rev. split; [reflexivity|].
    split; [now apply (StronglySorted_rev Z.lt)|].
    intros m. rewrite <- in_rev. split.
    + intros I. assert (Hm : In (keyOfDay m) S) by (rewrite HE; now apply in_map).
      apply HS in Hm as (m' & Am & Ek).
      apply keyOfDay_inj in Ek; [now subst| |].
      * rewrite Forall_forall in PE. now apply plainDay_valid, PE.
      * now apply plainDay_valid, (active_plain ts).
    + intros Am. assert (Hm : In (keyOfDay m) S) by (apply HS; now exists m).
      rewrite HE in Hm. apply in_map_iff in Hm as (e & Ek & Ie).
      apply keyOfDay_inj in Ek; [now subst| |].
      * rewrite Forall_forall in PE. now apply plainDay_valid, PE.
      * now apply plainDay_valid, (active_plain ts).
Qed.

(** The loop of the current streak on an array of keys of valid days. *)
Lemma countCurrent_days zone D : constantOffset zone -> forall n cur k,
  Forall validDay D -> validDay n ->
  countCurrent zone (map keyOfDay D) (keyOfDay n) cur = Some k ->
  exists j R,
    k = cur + Z.of_nat j /\ D = daysDown n j ++ R
    /\ match R with [] => True | d :: _ => d <> n - Z.of_nat j end.
Proof.
  intros C. induction D as [|x D IH]; intros n cur k F V H; cbn [map countCurrent] in H.
  - injection H as <-. exists O, []. cbn [Z.of_nat daysDown app]. rewrite Z.add_0_r.
    split; [reflexivity|]. split; [reflexivity|exact I].
  - inversion F as [|? ? Vx FD]; subst.
    destruct (String.eqb_spec (keyOfDay x) (keyOfDay n)) as [E|Hne].
    + apply keyOfDay_inj in E; [subst x|assumption|assumption].
      rewrite (previous_key zone n C V) in H.
      destruct (Z.ltb_spec (-100000000) n) as [L|L]; [|discriminate].
      cbn [JS.bind] in H.
      assert (V' : validDay (n - 1)) by (unfold validDay in *; lia).
      destruct (IH (n - 1) (cur + 1) k FD V' H) as (j & R & -> & -> & HR).
      exists (S j), R. rewrite Nat2Z.inj_succ.
      replace (n - Z.succ (Z.of_nat j)) with (n - 1 - Z.of_nat j) by lia.
      split; [lia|]. split; [reflexivity|assumption].
    + injection H as <-. exists O, (x :: D). cbn [Z.of_nat daysDown app].
      rewrite Z.sub_0_r, Z.add_0_r.
      split; [reflexivity|]. split; [reflexivity|]. congruence.
Qed.

Lemma In_daysDown n j m : In m (daysDown n j) <-> n - Z.of_nat j < m <= n.
Proof.
  revert n. induction j as [|j IH]; intros n; cbn [daysDown In].
  - cbn. lia.
  - rewrite IH. lia.
Qed.

(** On a falling array that begins with [j] consecutive days and does not
    go on with the next one, that next day is absent. *)
Lemma daysDown_maximal n j R :
  StronglySorted (fun a b => b < a) (daysDown n j ++ R) ->
  match R with [] => True | d :: _ => d <> n - Z.of_nat j end ->
  (0 < j)%nat ->
  ~ In (n - Z.of_nat j) (daysDown n j ++ R).
Proof.
  intros S HR Hj I. apply in_app_iff in I as [I|I].
  - apply In_daysDown in I. lia.
  - assert (Hlast : In (n - Z.of_nat j + 1) (daysDown n j)) by (apply In_daysDown; lia).
    destruct R as [|d R]; [destruct I|].
    assert (Hd : d < n - Z.of_nat j + 1).
    { clear - S Hlast. induction (daysDown n j) as [|x l IH]; [destruct Hlast|].
      cbn [app] in S. inversion S as [|? ? S' F]; subst.
      destruct Hlast as [->|Hl]; [|now apply IH].
      rewrite Forall_forall in F. apply F, in_app_iff. right. now left. }
    assert (Hle : n - Z.of_nat j <= d).
    { destruct I as [->|I]; [lia|].
      assert (S' : StronglySorted (fun a b => b < a) (d :: R)).
      { clear - S. induction (daysDown n j) as [|x l IH]; [assumption|].
        cbn [app] in S. inversion S; subst. now apply IH. }
      inversion S' as [|? ? _ F]; subst. rewrite Forall_forall in F.
      specialize (F _ I). lia. }
    lia.
Qed.

Lemma strictEq_keys a b :
  validDay a -> validDay b ->
  strictEq (Some (keyOfDay a)) (keyOfDay b) = (a =? b).
Proof.
  intros Va Vb. cbn [strictEq].
  destruct (String.eqb_spec (keyOfDay a) (keyOfDay b)) as [E|N], (Z.eqb_spec a b);
    try reflexivity.
  - now apply keyOfDay_inj in E.
  - subst. now elim N.
Qed.


(** X5. On a host without daylight saving the result of [calculateStreak]
    has [longest >= current >= 0], for every list of timestamps and every
    clock reading for which the call returns; and it returns whenever the
    clock and the timestamps are valid times after the first valid day. *)
Theorem calculateStreak_constant_offset (zone : TimeZone) (now : Z) (ts : list Z) :
  constantOffset zone ->
  (Forall inRange (now :: ts) -> exists r, calculateStreak zone now ts = Some r)
  /\ (forall r, calculateStreak zone now ts = Some r ->
      0 <= current r <= longest r).
Proof.
  intros C. split; [now apply calculateStreak_returns|].
  intros r. now apply calculateStreak_bounds.
Qed.

Lemma utc_constant : constantOffset utc.
Proof. exists 0. intros t. split; reflexivity. Qed.

Lemma visits_inRange : Forall inRange (noon :: visits).
Proof. repeat constructor; vm_compute; intros [=]. Qed.

Lemma visits_plainYear : Forall plainYear visits.
Proof. repeat constructor; vm_compute; intros [=]. Qed.

Lemma visits_streak :
  calculateStreak utc noon visits
  = Some {| current := 3; longest := 4; lastActive := Some noon;
            isActiveToday := true |}.
Proof. vm_compute. reflexivity. Qed.

Lemma visits_mostRecent : mostRecent visits (Day noon).
Proof.
  split; [exists noon; split; [now left|reflexivity]|].
  intros d' (t & I & <-). unfold visits in I. cbn [In] in I.
  repeat (destruct I as [<-|I]; [vm_compute; intros [=]|]). destruct I.
Qed.

Lemma calculateStreak_constant_offset_witness :
  constantOffset utc
  /\ Forall inRange (noon :: visits)
  /\ (exists r, calculateStreak utc noon visits = Some r)
  /\ 0 <= 3 <= 4.
Proof.
  destruct (calculateStreak_constant_offset utc noon visits utc_constant) as [T B].
  split; [exact utc_constant|].
  split; [exact visits_inRange|].
  split; [exact (T visits_inRange)|].
  exact (B _ visits_streak).
Defined.

Lemma calculateStreak_same_day_witness :
  getDateKey (noon + 1000) = Some "2026-11-02"%string
  /\ In (Some "2026-11-02"%string) (map getDateKey visits)
  /\ option_map (fun r => (current r, longest r, isActiveToday r))
       (calculateStreak utc noon (visits ++ [noon + 1000]))
     = Some (3, 4, true).
Proof.
  assert (K : getDateKey (noon + 1000) = Some "2026-11-02"%string)
    by (vm_compute; reflexivity).
  assert (I : In (Some "2026-11-02"%string) (map getDateKey visits))
    by (left; vm_compute; reflexivity).
  split; [exact K|]. split; [exact I|].
  rewrite (calculateStreak_same_day utc noon visits (noon + 1000) _ K I).
  rewrite visits_streak. reflexivity.
Defined.



(** C3 fails on a host with daylight saving. In New York, at noon UTC
    of 2 November 2026, the day after the clocks went back, with visits on
    2 November and on 31 October: the walk of the current streak reads
    the key of 2 November as 1 November, 19:00 local time, steps to 31
    October, 19:00 local time, which is 23:00 UTC, and so passes from 2
    November to 31 October without meeting 1 November. The result has
    [current = 2] and [longest = 1]. *)
Theorem calculateStreak_daylight_saving :
  calculateStreak newYork2026 noon visitsAroundTheChange
  = Some {| current := 2; longest := 1; lastActive := Some noon;
            isActiveToday := true |}
  /\ map getDateKey visitsAroundTheChange
     = [Some "2026-11-02"%string; Some "2026-10-31"%string]
  /\ getDateKey noon = Some "2026-11-02"%string
  /\ setDate newYork2026 1793577600000 (getDate newYork2026 1793577600000 - 1)
     = Some 1793487600000
  /\ getDateKey 1793487600000 = Some "2026-10-31"%string
  /\ calculateStreak utc noon visitsAroundTheChange
     = Some {| current := 1; longest := 1; lastActive := Some noon;
               isActiveToday := true |}.
Proof. repeat split; vm_compute; reflexivity. Qed.

End StreakSpec.

(** * Further properties *)

(** ** The evaluator *)

Module AuraMore.

Import Aura Vocab.

Section Evaluator.

Variable show : Q -> string.

(** X1. Every warning of [validateAURA] is for a metric below its threshold,
    is never of severity [low], and is of severity [high] exactly when the
    metric is below its secondary floor (0.5 for TES, 1.0 for VTR, 0.6
    for PAI), whatever the threshold. *)
Theorem validateAURA_severity (now : Z) (m : AURAThresholds)
    (th : option AURAThresholds) :
  Forall (fun w =>
            (get (metric w) m < get (metric w) (orDefault th))%Q
            /\ severity w <> low
            /\ (severity w = high <-> (get (metric w) m < floorOf (metric w))%Q))
         (warnings (validateAURA show now m th)).
Proof.
  unfold validateAURA.
  destruct (JS.Qltb (TES m) (TES (orDefault th))) eqn:E1,
           (JS.Qltb (VTR m) (VTR (orDefault th))) eqn:E2,
           (JS.Qltb (PAI m) (PAI (orDefault th))) eqn:E3;
    cbn [app warnings];
    repeat (constructor; [cbn [metric severity get floorOf];
      split; [now apply JSFacts.Qltb_lt|];
      match goal with |- context [JS.Qltb ?a ?b] =>
        destruct (JS.Qltb a b) eqn:?F end;
      (split; [discriminate|]);
      [apply JSFacts.Qltb_lt in F | apply JSFacts.Qltb_ge in F];
      (split; [intros; first [assumption | discriminate]
              | intros; first [reflexivity | exfalso; lra]]) |]);
    constructor.
Qed.


(** The list of failures is empty only for a valid triple. *)
Lemma failures_nonempty now m t :
  valid (validateAURA show now m (Some t)) = false ->
  filter (Spec.below m t) [M_TES; M_VTR; M_PAI] <> [].
Proof.
  rewrite AuraSpec.validateAURA_valid. cbn [orDefault filter].
  destruct (Spec.below m t M_TES), (Spec.below m t M_VTR), (Spec.below m t M_PAI);
    cbn; congruence.
Qed.

(** X3. [filterDecision] never throws. Its decision carries the action and
    the validated metrics, [passed] is the [valid] flag of the metrics, an
    inversion is present exactly when the decision did not pass, and the
    inverted metric is one of those the metrics carry a warning for. *)
Theorem filterDecision_decision (now now' : Z) (act : string)
    (m : AURAThresholds) (th : option AURAThresholds) :
  exists d,
    filterDecision show now now' act m th = Some d
    /\ action d = act
    /\ metrics d = validateAURA show now m (Some (orDefault th))
    /\ passed d = valid (metrics d)
    /\ (inversion d = None <-> passed d = true)
    /\ forall inv, inversion d = Some inv ->
         In (failedMetric inv) (map metric (warnings (metrics d)))
         /\ originalIntent inv = extractIntent act.
Proof.
  unfold filterDecision. set (t := orDefault th).
  destruct (valid (validateAURA show now m (Some t))) eqn:V.
  - eexists. split; [reflexivity|]. cbn [action metrics passed inversion].
    repeat split; try assumption; try discriminate; congruence.
  - rewrite AuraSpec.collectFailures_filter.
    pose proof (failures_nonempty now m t V) as NE.
    set (fs := map _ (filter _ _)).
    destruct (JS.sort _ fs) as [|w ws] eqn:ES.
    + exfalso. apply NE.
      assert (P : Permutation fs []) by (rewrite <- ES; symmetry; apply JSFacts.sort_perm).
      apply Permutation_sym, Permutation_nil in P. subst fs.
      now apply map_eq_nil in P.
    + eexists. split; [reflexivity|]. cbn [action metrics passed inversion].
      split; [reflexivity|]. split; [reflexivity|]. split; [now rewrite V|].
      split; [split; intros; discriminate|].
      intros inv [= <-]. split; [|destruct (fmetric w); reflexivity].
      assert (I : In w fs).
      { apply (JSFacts.sort_In
                 (fun a b : Failure => JS.compareValue (Double.minus (gap b) (gap a)))).
        rewrite ES. now left. }
      subst fs. apply in_map_iff in I as (k & <- & Ik).
      rewrite AuraSpec.validateAURA_warnings. cbn [orDefault].
      destruct k; exact Ik.
Qed.

End Evaluator.



(** *** The intent *)

Lemma append_assoc (a b c : string) : ((a ++ b) ++ c = a ++ b ++ c)%string.
Proof. induction a as [|x a IH]; cbn; [reflexivity|]. now rewrite IH. Qed.

Lemma append_empty (a : string) : (a ++ "")%string = a.
Proof. induction a as [|x a IH]; cbn; [reflexivity|]. now rewrite IH. Qed.

Lemma occurrences_app c a b :
  Spec.occurrences c (a ++ b) = (Spec.occurrences c a + Spec.occurrences c b)%nat.
Proof. induction a as [|x a IH]; cbn; [reflexivity|]. rewrite IH. lia. Qed.

Lemma occurrences_absent c f : Spec.contains c f = false -> Spec.occurrences c f = 0%nat.
Proof.
  induction f as [|x f IH]; cbn; [reflexivity|]. intros H.
  apply orb_false_iff in H as [-> H]. now rewrite IH.
Qed.

Lemma join_app sep a b :
  a <> [] -> b <> [] ->
  JS.join sep (a ++ b) = (JS.join sep a ++ sep ++ JS.join sep b)%string.
Proof.
  intros Ha Hb. induction a as [|x a IH]; [congruence|].
  destruct a as [|y a].
  - destruct b; [congruence|]. reflexivity.
  - change ((x :: y :: a) ++ b) with (x :: y :: (a ++ b)).
    rewrite !JSFacts.join_cons.
    change (y :: a ++ b) with ((y :: a) ++ b). rewrite IH by discriminate.
    now rewrite !append_assoc.
Qed.

Lemma occurrences_join c fs :
  Forall (fun f => Spec.contains c f = false) fs ->
  Spec.occurrences c (JS.join (String c EmptyString) fs) = pred (List.length fs).
Proof.
  induction 1 as [|f fs Hf F IH]; [reflexivity|].
  destruct fs as [|g fs].
  - cbn. now apply occurrences_absent.
  - rewrite JSFacts.join_cons, !occurrences_app, IH, (occurrences_absent c f Hf).
    cbn. now rewrite Ascii.eqb_refl.
Qed.

(** X4. A request with fewer than 10 spaces is its own intent. A request
    with 10 spaces or more is cut before its tenth space: the intent is
    the part before that space, which holds nine spaces, and the ellipsis. *)
Theorem extractIntent_cut (req : string) :
  ((Spec.occurrences " " req < 10)%nat -> extractIntent req = req)
  /\ ((10 <= Spec.occurrences " " req)%nat ->
      exists before after,
        req = (before ++ " " ++ after)%string
        /\ Spec.occurrences " " before = 9%nat
        /\ extractIntent req = (before ++ "...")%string).
Proof.
  unfold extractIntent, JS.slice0.
  pose proof (JSFacts.length_split " " req) as L.
  pose proof (JSFacts.join_split " " req) as J.
  pose proof (JSFacts.split_fields " " req) as F.
  set (fields := JS.split " " req) in *. split; intros H.
  - rewrite firstn_all2 by lia. rewrite J.
    destruct (Nat.ltb_spec 10 (List.length fields)); [lia|].
    apply append_empty.
  - destruct (Nat.ltb_spec 10 (List.length fields)); [|lia].
    exists (JS.join " " (firstn 10 fields)), (JS.join " " (skipn 10 fields)).
    assert (N1 : firstn 10 fields <> []).
    { intros E. apply (f_equal (@List.length _)) in E.
      rewrite length_firstn in E. change (List.length (@nil string)) with 0%nat in E. lia. }
    assert (N2 : skipn 10 fields <> []).
    { intros E. apply (f_equal (@List.length _)) in E.
      rewrite length_skipn in E. change (List.length (@nil string)) with 0%nat in E. lia. }
    split; [|split; [|reflexivity]].
    + rewrite <- (join_app " ") by assumption.
      now rewrite firstn_skipn.
    + rewrite occurrences_join.
      * rewrite length_firstn. lia.
      * rewrite <- (firstn_skipn 10 fields) in F. now apply Forall_app in F.
Qed.

Lemma extractIntent_cut_witness :
  (Spec.occurrences " " "keep it simple" < 10)%nat
  /\ extractIntent "keep it simple" = "keep it simple".
Proof.
  assert (H : (Spec.occurrences " " "keep it simple" < 10)%nat) by (cbn; lia).
  split; [exact H|]. exact (proj1 (extractIntent_cut "keep it simple") H).
Defined.

End AuraMore.

(** ** Order on numbers *)

Module DoubleOrder.
Import Double Spec DoubleFacts.
Local Open Scope Q_scope.

Lemma round_nonneg q : 0 <= q -> 0 <= JS.compareValue (round q).
Proof.
  intro H. rewrite round_unfold.
  destruct (Qeq_bool q 0) eqn:Z0; [cbn; lra|].
  assert (N : negative q = false) by (apply negative_false; lra).
  rewrite N. pose proof (magnitude_nonneg q).
  destruct (Qle_bool _ _); cbn [JS.compareValue]; [lra|].
  pose proof (Qred_correct (magnitude q)). lra.
Qed.

Lemma round_neg q : q <= - 2 ^ (-1074) -> JS.compareValue (round q) < 0.
Proof.
  intro H. pose proof (pow2_pos (-1074)) as G. rewrite round_unfold.
  assert (Z0 : Qeq_bool q 0 = false) by (apply Qeq_bool_false; lra).
  rewrite Z0.
  assert (N : negative q = true) by (apply negative_spec; lra).
  rewrite N.
  assert (M : 0 < magnitude q).
  { apply magnitude_pos. rewrite Qabs_neg by lra. lra. }
  destruct (Qle_bool _ _); cbn [JS.compareValue]; [lra|].
  pose proof (Qred_correct (- magnitude q)). lra.
Qed.

Lemma compareValue_opp a : JS.compareValue (opp a) == - JS.compareValue a.
Proof. destruct a as [q|[|]|]; cbn; lra. Qed.

(** The comparator [a - b] of two ordinary numbers is not negative
    exactly when [b] is not above [a]. *)
Lemma compare_minus_ge a b :
  ordinary a -> ordinary b ->
  Qle_bool 0 (JS.compareValue (minus a b)) = Qle_bool (place b) (place a).
Proof.
  destruct a as [va|sa|], b as [vb|sb|];
    try (unfold ordinary; intros; contradiction).
  - intros [Ga Ba] [Gb Bb]. cbn [minus opp plus place].
    apply Qle_bool_eq. split; intro H.
    + destruct (Qlt_le_dec va vb) as [L|L]; [|exact L]. exfalso.
      assert (P : JS.compareValue (round (va + - vb)) < 0).
      { apply round_neg.
        assert (P' : 2 ^ (-1074) <= vb + - va).
        { apply onGrid_pos; [|lra]. apply onGrid_plus; [exact Gb|now apply onGrid_opp]. }
        lra. }
      lra.
    + apply round_nonneg. lra.
  - cbn [minus opp plus JS.compareValue]. unfold ordinary, place.
    set (big := 2 ^ 1024). assert (Big : 0 < big) by apply pow2_pos. clearbody big.
    intros. apply Qle_bool_eq. destruct sb; cbn [negb]; split; intro; lra.
  - cbn [minus opp plus JS.compareValue]. unfold ordinary, place.
    set (big := 2 ^ 1024). assert (Big : 0 < big) by apply pow2_pos. clearbody big.
    intros. apply Qle_bool_eq. destruct sa; split; intro; lra.
  - cbn [minus opp plus]. unfold ordinary, place.
    set (big := 2 ^ 1024). assert (Big : 0 < big) by apply pow2_pos. clearbody big.
    intros. apply Qle_bool_eq.
    destruct sa, sb; cbn [negb Bool.eqb JS.compareValue]; split; intro; lra.
Qed.

Lemma leb_trans a b c : leb a b = true -> leb b c = true -> leb a c = true.
Proof.
  destruct a as [x|[|]|], b as [y|[|]|], c as [z|[|]|]; cbn;
    try discriminate; try reflexivity.
  rewrite !Qle_bool_iff. intros. lra.
Qed.

Lemma leb_total a b : a <> NaN -> b <> NaN -> leb a b = true \/ leb b a = true.
Proof.
  destruct a as [x|[|]|], b as [y|[|]|]; cbn; try congruence; auto.
  intros _ _. rewrite !Qle_bool_iff. destruct (Qlt_le_dec x y); [left|right]; lra.
Qed.

End DoubleOrder.

(** ** The helpers of [lib/utils.ts] *)

Module UtilsSpec.
Import Utils Vocab.

(** X10. The label never gets worse when the score rises; a score that is
    NaN or below 0.4 is CRITICAL, and one of 0.8 or more is SOVEREIGN,
    each cut belonging to the better label. *)
Theorem getSovereigntyLabel_monotone (s s' : Double.number) :
  (Double.leb s s' = true ->
   (labelRank (getSovereigntyLabel s) <= labelRank (getSovereigntyLabel s'))%nat)
  /\ (label (getSovereigntyLabel s) = "SOVEREIGN"
      <-> Double.leb (Double.ofQ 0.8) s = true)
  /\ (label (getSovereigntyLabel s) = "CRITICAL"
      <-> Double.leb (Double.ofQ 0.4) s = false).
Proof.
  assert (C1 : Double.leb (Double.ofQ 0.6) (Double.ofQ 0.8) = true)
    by (vm_compute; reflexivity).
  assert (C2 : Double.leb (Double.ofQ 0.4) (Double.ofQ 0.6) = true)
    by (vm_compute; reflexivity).
  unfold getSovereigntyLabel.
  set (c8 := Double.ofQ 0.8) in *. set (c6 := Double.ofQ 0.6) in *.
  set (c4 := Double.ofQ 0.4) in *. clearbody c8 c6 c4.
  destruct (Double.leb c8 s) eqn:A1, (Double.leb c6 s) eqn:A2,
           (Double.leb c4 s) eqn:A3;
    try (rewrite (DoubleOrder.leb_trans _ _ _ C1 A1) in A2; discriminate);
    try (rewrite (DoubleOrder.leb_trans _ _ _ C2 A2) in A3; discriminate);
    (split;
     [intro L;
      destruct (Double.leb c8 s') eqn:B1, (Double.leb c6 s') eqn:B2,
               (Double.leb c4 s') eqn:B3;
      cbn; try lia;
      try (rewrite (DoubleOrder.leb_trans _ _ _ A1 L) in B1; discriminate);
      try (rewrite (DoubleOrder.leb_trans _ _ _ A2 L) in B2; discriminate);
      try (rewrite (DoubleOrder.leb_trans _ _ _ A3 L) in B3; discriminate)
     |cbn [label]; split; split; intro; try reflexivity; discriminate]).
Qed.

Lemma getSovereigntyLabel_monotone_witness :
  Double.leb (Double.ofQ 0.5) (Double.ofQ 0.7) = true
  /\ (labelRank (getSovereigntyLabel (Double.ofQ 0.5))
      <= labelRank (getSovereigntyLabel (Double.ofQ 0.7)))%nat.
Proof.
  assert (L : Double.leb (Double.ofQ 0.5) (Double.ofQ 0.7) = true)
    by (vm_compute; reflexivity).
  split; [exact L|].
  exact (proj1 (getSovereigntyLabel_monotone _ _) L).
Defined.

Local Ltac split_leb :=
  repeat match goal with
  | |- context [Qle_bool ?a ?b] =>
      let E := fresh "E" in
      destruct (Qle_bool a b) eqn:E;
      [apply Qle_bool_iff in E | apply DoubleFacts.Qle_bool_false in E]
  | H : Qle_bool _ _ = true |- _ => apply Qle_bool_iff in H
  | H : Qle_bool _ _ = false |- _ => apply DoubleFacts.Qle_bool_false in H
  | H : Qeq_bool _ _ = false |- _ => apply DoubleFacts.Qeq_bool_false in H
  | |- Qeq_bool _ _ = true => apply Qeq_bool_iff
  end.

(** X11. [clamp] on numbers none of which is NaN: with [min <= max] the
    result lies between [min] and [max] and is the value itself when the
    value does; with [max < min] the result is [max], whatever the value.
    With a NaN among the three the result is NaN. *)
Theorem clamp_range (value min max : Double.number) :
  (value <> Double.NaN -> min <> Double.NaN -> max <> Double.NaN ->
   (Double.leb min max = true ->
    Double.leb min (clamp value min max) = true
    /\ Double.leb (clamp value min max) max = true
    /\ (Double.leb min value = true -> Double.leb value max = true ->
        Double.eqb (clamp value min max) value = true))
   /\ (Double.leb min max = false -> clamp value min max = max))
  /\ (value = Double.NaN \/ min = Double.NaN \/ max = Double.NaN ->
      clamp value min max = Double.NaN).
Proof.
  split.
  - intros Nv Nm NM.
    destruct value as [v|[|]|], min as [a|[|]|], max as [b|[|]|];
      try congruence; clear Nv Nm NM;
      unfold clamp, Aura.Math_min, Aura.Math_max; cbn [Double.leb];
      (split; [intro L|intro L]);
      split_leb; cbn [Double.leb Double.eqb negb orb Bool.eqb] in *;
      try discriminate; try reflexivity;
      repeat split; intros; split_leb;
      cbn [Double.leb Double.eqb negb orb Bool.eqb] in *;
      try discriminate; try reflexivity; split_leb;
      try (exfalso; lra); try lra;
      try (apply Qle_bool_iff; lra).
  - intros [->|[->| ->]]; unfold clamp.
    + reflexivity.
    + now destruct value.
    + unfold Aura.Math_min. now destruct (Aura.Math_max value min).
Qed.

Lemma clamp_range_witness :
  Double.leb (Double.finite 0) (Double.finite 1) = true
  /\ Double.leb (clamp (Double.finite 1.7) (Double.finite 0) (Double.finite 1))
                (Double.finite 1) = true.
Proof.
  split; [reflexivity|].
  exact (proj1 (proj2 (proj1
           (proj1 (clamp_range (Double.finite 1.7) (Double.finite 0) (Double.finite 1))
              ltac:(discriminate) ltac:(discriminate) ltac:(discriminate))
           eq_refl))).
Defined.

(** *** sortBy *)

Section SortBy.
Context {T : Type} (keyFn : T -> Q).

Lemma key_ordinary a : Spec.ordinary (Double.ofQ (keyFn a)).
Proof. apply DoubleFacts.round_ordinary. Qed.

Lemma cmp_le desc a b : Qle_bool (comparatorOf keyFn desc a b) 0 = true <-> Vocab.ordered keyFn desc a b.
Proof.
  unfold comparatorOf, Vocab.ordered, ascending, descending. cbv zeta.
  pose proof (key_ordinary a) as Oa. pose proof (key_ordinary b) as Ob.
  destruct desc.
  - rewrite (DoubleFacts.leb_place _ _ Ob Oa).
    rewrite <- (DoubleOrder.compare_minus_ge _ _ Oa Ob).
    rewrite !Qle_bool_iff, DoubleOrder.compareValue_opp. split; intro; lra.
  - rewrite (DoubleFacts.leb_place _ _ Oa Ob).
    now rewrite <- (DoubleFacts.compare_minus _ _ Ob Oa).
Qed.

Lemma ordered_trans desc a b c :
  Vocab.ordered keyFn desc a b -> Vocab.ordered keyFn desc b c -> Vocab.ordered keyFn desc a c.
Proof.
  unfold Vocab.ordered, ascending, descending. destruct desc; intros H1 H2.
  - exact (DoubleOrder.leb_trans _ _ _ H2 H1).
  - exact (DoubleOrder.leb_trans _ _ _ H1 H2).
Qed.

Lemma ordinary_not_NaN a : Spec.ordinary a -> a <> Double.NaN.
Proof. intros O E. subst a. exact O. Qed.

Lemma ordered_total desc a b : Vocab.ordered keyFn desc a b \/ Vocab.ordered keyFn desc b a.
Proof.
  unfold Vocab.ordered, ascending, descending.
  pose proof (ordinary_not_NaN _ (key_ordinary a)) as Na.
  pose proof (ordinary_not_NaN _ (key_ordinary b)) as Nb.
  destruct desc.
  - destruct (DoubleOrder.leb_total _ _ Na Nb); tauto.
  - apply DoubleOrder.leb_total; assumption.
Qed.

Lemma insert_ordered desc x l :
  StronglySorted (Vocab.ordered keyFn desc) l ->
  StronglySorted (Vocab.ordered keyFn desc) (JS.insert (comparatorOf keyFn desc) x l).
Proof.
  induction 1 as [|y l S IH F]; cbn [JS.insert].
  - constructor; constructor.
  - destruct (Qle_bool (comparatorOf keyFn desc x y) 0) eqn:E.
    + apply cmp_le in E. constructor; [constructor; assumption|].
      constructor; [assumption|].
      eapply Forall_impl; [|exact F]. intros z Hz.
      eapply ordered_trans; eassumption.
    + assert (O : Vocab.ordered keyFn desc y x).
      { destruct (ordered_total desc x y) as [O|O]; [|exact O].
        apply cmp_le in O. congruence. }
      constructor; [assumption|].
      apply Forall_forall. intros z Hz.
      apply (Permutation_in _ (JSFacts.insert_perm _ x l)) in Hz.
      destruct Hz as [<-|Hz]; [assumption|].
      rewrite Forall_forall in F. now apply F.
Qed.

Lemma sort_ordered desc l : StronglySorted (Vocab.ordered keyFn desc) (JS.sort (comparatorOf keyFn desc) l).
Proof.
  induction l; cbn [JS.sort]; [constructor|]. now apply insert_ordered.
Qed.

Lemma eqb_leb a b k :
  Double.eqb a k = true -> Double.eqb b k = true -> Double.leb a b = true.
Proof.
  destruct a as [x|[|]|], b as [y|[|]|], k as [z|[|]|]; cbn;
    try discriminate; try reflexivity.
  intros E1 E2. apply Qeq_bool_iff in E1, E2. apply Qle_bool_iff. lra.
Qed.

Lemma filter_insert desc k x l :
  filter (sameKey keyFn k) (JS.insert (comparatorOf keyFn desc) x l)
  = filter (sameKey keyFn k) (x :: l).
Proof.
  induction l as [|y l IH]; [reflexivity|].
  cbn [JS.insert].
  destruct (Qle_bool (comparatorOf keyFn desc x y) 0) eqn:E; [reflexivity|].
  assert (N : ~ Vocab.ordered keyFn desc x y).
  { intro O. apply cmp_le in O. congruence. }
  cbn [filter] in *. rewrite IH.
  destruct (sameKey keyFn k x) eqn:Ex; [|reflexivity].
  destruct (sameKey keyFn k y) eqn:Ey; [|reflexivity].
  exfalso. apply N. unfold sameKey in *. unfold Vocab.ordered, ascending, descending.
  destruct desc; eapply eqb_leb; eassumption.
Qed.

Lemma filter_sort desc k l :
  filter (sameKey keyFn k) (JS.sort (comparatorOf keyFn desc) l) = filter (sameKey keyFn k) l.
Proof.
  induction l as [|x l IH]; [reflexivity|].
  cbn [JS.sort]. rewrite filter_insert. cbn [filter]. now rewrite IH.
Qed.


End SortBy.


(** *** uniqueBy *)

Section UniqueBy.
Context {T : Type} (keyFn : T -> string).

Lemma existsb_app_one x s k :
  existsb (String.eqb x) (s ++ [k]) = existsb (String.eqb x) s || String.eqb x k.
Proof. rewrite existsb_app. cbn. now rewrite orb_false_r. Qed.

Lemma uniqueFrom_keys array : forall seen,
  seen ++ map keyFn (uniqueFrom keyFn seen array)
  = fold_left JS.setAdd (map keyFn array) seen.
Proof.
  induction array as [|item rest IH]; intros seen; cbn.
  - now rewrite app_nil_r.
  - destruct (existsb (String.eqb (keyFn item)) seen) eqn:E.
    + rewrite IH. replace (JS.setAdd seen (keyFn item)) with seen; [reflexivity|].
      unfold JS.setAdd. now rewrite E.
    + cbn [map]. rewrite <- IH.
      replace (JS.setAdd seen (keyFn item)) with (seen ++ [keyFn item]).
      * now rewrite <- app_assoc.
      * unfold JS.setAdd. now rewrite E.
Qed.

Lemma uniqueFrom_filter k array : forall seen,
  filter (keyIs keyFn k) (uniqueFrom keyFn seen array)
  = if existsb (String.eqb k) seen then []
    else firstn 1 (filter (keyIs keyFn k) array).
Proof.
  induction array as [|item rest IH]; intro seen.
  - cbn. now destruct (existsb (String.eqb k) seen).
  - cbn [uniqueFrom filter].
    destruct (keyIs keyFn k item) eqn:Ek; unfold keyIs in Ek.
    + apply String.eqb_eq in Ek. subst k.
      destruct (existsb (String.eqb (keyFn item)) seen) eqn:E.
      * rewrite IH. now rewrite E.
      * cbn [filter]. unfold keyIs at 1. rewrite String.eqb_refl.
        rewrite IH. unfold JS.setAdd. rewrite E, existsb_app_one.
        now rewrite String.eqb_refl, orb_true_r.
    + destruct (existsb (String.eqb (keyFn item)) seen) eqn:E.
      * apply IH.
      * cbn [filter]. unfold keyIs at 1. rewrite Ek.
        rewrite IH. unfold JS.setAdd. rewrite E, existsb_app_one.
        now rewrite String.eqb_sym, Ek, orb_false_r.
Qed.

(** X13. [uniqueBy] keeps, of every key, the first item that has it and no
    other: the keys of the result are those of the array without
    repetition, in the order of their first occurrence, and the result
    holds exactly one item of each. Running it again changes nothing. *)
Theorem uniqueBy_first (array : list T) :
  map keyFn (uniqueBy array keyFn) = JS.newSet (map keyFn array)
  /\ NoDup (map keyFn (uniqueBy array keyFn))
  /\ (forall k, filter (keyIs keyFn k) (uniqueBy array keyFn)
                = firstn 1 (filter (keyIs keyFn k) array))
  /\ uniqueBy (uniqueBy array keyFn) keyFn = uniqueBy array keyFn.
Proof.
  assert (K : map keyFn (uniqueBy array keyFn) = JS.newSet (map keyFn array)).
  { exact (uniqueFrom_keys array []). }
  assert (N : NoDup (map keyFn (uniqueBy array keyFn))).
  { rewrite K. apply JSFacts.newSet_NoDup. }
  split; [exact K|]. split; [exact N|].
  split; [intro k; exact (uniqueFrom_filter k array [])|].
  clear K. unfold uniqueBy at 1.
  generalize (uniqueBy array keyFn) N. clear.
  intros l N.
  enough (G : forall seen, (forall x, In x seen -> ~ In x (map keyFn l)) ->
                           uniqueFrom keyFn seen l = l) by (apply G; intros x []).
  induction l as [|item rest IH]; intros seen D; [reflexivity|].
  cbn [uniqueFrom]. inversion N as [|? ? NI N']; subst.
  destruct (existsb (String.eqb (keyFn item)) seen) eqn:E.
  - apply JSFacts.existsb_eqb_In in E. exfalso. apply (D _ E). now left.
  - f_equal. apply IH; [assumption|].
    intros x I. apply JSFacts.setAdd_In in I. destruct I as [I| ->].
    + intro I'. apply (D _ I). now right.
    + assumption.
Qed.

End UniqueBy.

(** *** groupBy *)

Section GroupBy.
Context {T : Type} (keyFn : T -> string).

Lemma own_setOwn k key items (groups : @Groups T) :
  own k (setOwn key items groups)
  = if String.eqb key k then Some items else own k groups.
Proof.
  induction groups as [|[k' old] rest IH]; cbn.
  - reflexivity.
  - destruct (String.eqb k' key) eqn:E; cbn.
    + apply String.eqb_eq in E. subst k'. now destruct (String.eqb key k).
    + rewrite IH. destruct (String.eqb k' k) eqn:E'; [|reflexivity].
      apply String.eqb_eq in E'. subst k'. now rewrite String.eqb_sym, E.
Qed.

Lemma own_names key (groups : @Groups T) :
  existsb (String.eqb key) (map fst groups)
  = match own key groups with Some _ => true | None => false end.
Proof.
  induction groups as [|[k' old] rest IH]; cbn; [reflexivity|].
  rewrite (String.eqb_sym key k').
  destruct (String.eqb k' key); [reflexivity|]. apply IH.
Qed.

Lemma names_setOwn key items (groups : @Groups T) :
  map fst (setOwn key items groups) = JS.setAdd (map fst groups) key.
Proof.
  unfold JS.setAdd. rewrite own_names.
  induction groups as [|[k' old] rest IH]; cbn; [reflexivity|].
  destruct (String.eqb k' key) eqn:E; cbn; [reflexivity|].
  rewrite IH. now destruct (own key rest).
Qed.

Lemma pushed_cons before item more k :
  pushed (if String.eqb (keyFn item) k
          then Some (match before with Some items => items | None => [] end ++ [item])
          else before) more
  = pushed before (if keyIs keyFn k item then item :: more else more).
Proof.
  unfold keyIs. destruct (String.eqb (keyFn item) k); [|reflexivity].
  destruct before as [items|]; cbn.
  - now rewrite <- app_assoc.
  - reflexivity.
Qed.

Lemma reduce_groups array : forall groups,
  Forall (fun item => ~ In (keyFn item) inherited) array ->
  exists result, reduce keyFn array groups = Some result
    /\ map fst result = fold_left JS.setAdd (map keyFn array) (map fst groups)
    /\ forall k, own k result = pushed (own k groups) (filter (keyIs keyFn k) array).
Proof.
  induction array as [|item rest IH]; intros groups F.
  - exists groups. cbn. repeat split. intro k.
    destruct (own k groups); unfold pushed; [now rewrite app_nil_r|reflexivity].
  - inversion F as [|? ? NI F']; subst.
    assert (S : exists items,
              groupStep keyFn groups item = Some (setOwn (keyFn item) items groups)
              /\ items = match own (keyFn item) groups with
                         | Some old => old | None => [] end ++ [item]).
    { unfold groupStep. destruct (own (keyFn item) groups) as [old|].
      - eexists. split; reflexivity.
      - destruct (existsb (String.eqb (keyFn item)) inherited) eqn:E.
        + apply JSFacts.existsb_eqb_In in E. contradiction.
        + eexists. split; reflexivity. }
    destruct S as (items & S & ->).
    destruct (IH (setOwn (keyFn item)
                    (match own (keyFn item) groups with
                     | Some old => old | None => [] end ++ [item]) groups) F')
      as (result & R & N & O).
    exists result. cbn [reduce]. rewrite S. cbn [JS.bind].
    split; [exact R|]. split.
    + rewrite N, names_setOwn. reflexivity.
    + intro k. rewrite O, own_setOwn. cbn [filter].
      destruct (String.eqb (keyFn item) k) eqn:E.
      * apply String.eqb_eq in E. subst k.
        generalize (pushed_cons (own (keyFn item) groups) item
                      (filter (keyIs keyFn (keyFn item)) rest) (keyFn item)).
        now rewrite String.eqb_refl.
      * generalize (pushed_cons (own k groups) item
                      (filter (keyIs keyFn k) rest) k).
        now rewrite E.
Qed.

Lemma reduce_throws array : forall groups,
  (forall k, In k inherited -> own k groups = None) ->
  Exists (fun item => In (keyFn item) inherited) array ->
  reduce keyFn array groups = None.
Proof.
  induction array as [|item rest IH]; intros groups I E.
  - inversion E.
  - cbn [reduce]. unfold groupStep.
    destruct (existsb (String.eqb (keyFn item)) inherited) eqn:X.
    + apply JSFacts.existsb_eqb_In in X. now rewrite (I _ X).
    + assert (NI : ~ In (keyFn item) inherited).
      { intro H. apply JSFacts.existsb_eqb_In in H. congruence. }
      inversion E as [? ? H|? ? H]; subst; [contradiction|].
      destruct (own (keyFn item) groups) as [old|]; cbn [JS.bind];
        (apply IH; [|assumption]); intros k Hk; rewrite own_setOwn;
        (destruct (String.eqb (keyFn item) k) eqn:Ek;
         [apply String.eqb_eq in Ek; subst k; contradiction | now apply I]).
Qed.

(** X14. When no key is a name inherited from [Object.prototype], [groupBy]
    returns an object with one property for each key that occurs, created
    in the order of first occurrence, holding the items of that key in
    the order of the array; no property is empty. When some item has such
    a key ([constructor], [toString], [__proto__], ...), the call throws a
    TypeError. *)
Theorem groupBy_groups (array : list T) :
  (Forall (fun item => ~ In (keyFn item) inherited) array ->
   exists groups, groupBy array keyFn = Some groups
     /\ map fst groups = JS.newSet (map keyFn array)
     /\ forall k, own k groups
                  = match filter (keyIs keyFn k) array with
                    | [] => None
                    | items => Some items
                    end)
  /\ (Exists (fun item => In (keyFn item) inherited) array ->
      groupBy array keyFn = None).
Proof.
  split.
  - intro F. destruct (reduce_groups array [] F) as (result & R & N & O).
    exists result. split; [exact R|]. split; [exact N|].
    intro k. rewrite O. cbn. now destruct (filter (keyIs keyFn k) array).
  - apply reduce_throws. reflexivity.
Qed.

End GroupBy.

Lemma groupBy_groups_witness :
  Forall (fun item => ~ In (fst item) Utils.inherited)
    [("a", 1%Z); ("b", 2%Z); ("a", 3%Z)]
  /\ (exists groups,
        Utils.groupBy [("a", 1%Z); ("b", 2%Z); ("a", 3%Z)] fst = Some groups
        /\ map fst groups = ["a"; "b"]
        /\ Utils.own "a" groups = Some [("a", 1%Z); ("a", 3%Z)])
  /\ Exists (fun item => In (fst item) Utils.inherited) [("constructor", 1%Z)]
  /\ Utils.groupBy [("constructor", 1%Z)] fst = None.
Proof.
  assert (F : Forall (fun item : string * Z => ~ In (fst item) Utils.inherited)
                [("a", 1%Z); ("b", 2%Z); ("a", 3%Z)]).
  { repeat constructor; cbn; intro H;
      repeat (destruct H as [H|H]; [discriminate|]); exact H. }
  assert (E : Exists (fun item : string * Z => In (fst item) Utils.inherited)
                [("constructor", 1%Z)]).
  { constructor. cbn. now left. }
  split; [exact F|]. split.
  - destruct (proj1 (groupBy_groups fst [("a", 1%Z); ("b", 2%Z); ("a", 3%Z)]) F)
      as (groups & G & N & O).
    exists groups. split; [exact G|]. split; [exact N|]. exact (O "a").
  - split; [exact E|].
    exact (proj2 (groupBy_groups fst [("constructor", 1%Z)]) E).
Defined.

End UtilsSpec.

(** ** The streak analyzer *)

Module StreakMore.

Import JSDate Spec JSFacts DateFacts Streak StreakSpec Vocab.
Local Open Scope Z_scope.

Lemma sortDesc_insert_sorted x l :
  StronglySorted (fun a b => b <= a) l ->
  StronglySorted (fun a b => b <= a) (JS.insert (fun a b => inject_Z (b - a)) x l).
Proof.
  induction 1 as [|y l S IH F]; cbn.
  - constructor; constructor.
  - destruct (Qle_bool (inject_Z (y - x)) 0) eqn:E.
    + apply Qle_bool_iff in E. change 0%Q with (inject_Z 0) in E.
      rewrite <- Zle_Qle in E.
      constructor; [constructor; assumption|].
      constructor; [lia|]. eapply Forall_impl; [|exact F]. cbn. intros. lia.
    + assert (G : x < y).
      { destruct (Z_lt_le_dec x y) as [L|L]; [assumption|].
        assert (Q : (inject_Z (y - x) <= inject_Z 0)%Q) by (rewrite <- Zle_Qle; lia).
        apply Qle_bool_iff in Q. change (inject_Z 0) with 0%Q in Q. congruence. }
      constructor; [assumption|].
      apply Forall_forall. intros z Hz.
      apply (Permutation_in _ (insert_perm _ x l)) in Hz.
      destruct Hz as [<-|Hz]; [lia|].
      rewrite Forall_forall in F. now apply F.
Qed.

Lemma sortDesc_sorted ts : StronglySorted (fun a b => b <= a) (sortDesc ts).
Proof.
  induction ts; cbn; [constructor|]. now apply sortDesc_insert_sorted.
Qed.

(** The first element of the sorted copy is the latest timestamp. *)
Lemma sortDesc_In t ts : In t (sortDesc ts) <-> In t ts.
Proof. apply sort_In. Qed.

(** The first element of the sorted copy is the latest timestamp. *)
Lemma sortDesc_head ts :
  match hd_error (sortDesc ts) with
  | Some t => In t ts /\ forall t', In t' ts -> t' <= t
  | None => ts = []
  end.
Proof.
  pose proof (sortDesc_sorted ts) as S.
  pose proof (fun t => sortDesc_In t ts) as I.
  destruct (sortDesc ts) as [|t l] eqn:E; cbn.
  - destruct ts as [|x ts']; [reflexivity|].
    destruct (proj2 (I x)). now left.
  - split.
    + apply I. now left.
    + intros t' H. apply I in H.
      inversion S as [|? ? _ F]; subst. destruct H as [<-|H]; [lia|].
      rewrite Forall_forall in F. now apply F.
Qed.

Lemma length_nonempty {A} (l : list A) : l <> [] -> Nat.eqb (List.length l) 0 = false.
Proof. destruct l; [congruence|reflexivity]. Qed.

(** The fields of the result, read off a call that returned. *)
Lemma calculateStreak_fields zone now ts r :
  ts <> [] -> calculateStreak zone now ts = Some r ->
  let dayArray :=
    rev (JS.sort JS.stringCompare (JS.newSet (map keyOf (sortDesc ts)))) in
  Forall validTime ts /\ validTime now /\ validTime (now - 86400000)
  /\ isActiveToday r = strictEq (hd_error dayArray) (keyOf now)
  /\ lastActive r = hd_error (sortDesc ts)
  /\ longest r = (let '(l, t) := match rev dayArray with
                                 | [] => (0, 1)
                                 | first :: rest => scanLongest first rest 0 1
                                 end in Z.max l t).
Proof.
  intros NE. unfold calculateStreak. rewrite (length_nonempty _ NE).
  fold (sortDesc ts).
  destruct (JS.mapM getDateKey (sortDesc ts)) as [keys|] eqn:M; [|discriminate].
  apply mapM_getDateKey_Some in M as [F ->]. apply (proj1 (sortDesc_valid ts)) in F.
  cbn [JS.bind].
  destruct (getDateKey now) as [today|] eqn:Et; [|discriminate]. cbn [JS.bind].
  destruct (getDateKey (now - 86400000)) as [yesterday|] eqn:Ey; [|discriminate].
  cbn [JS.bind].
  apply getDateKey_validTime in Et as [Vt ->], Ey as [Vy ->].
  destruct (if _ && _ then Some 0 else _) as [k|]; [|discriminate].
  cbn [JS.bind].
  cbv zeta.
  destruct (match rev _ with [] => _ | _ => _ end) as [l t].
  intros [= <-]. cbn [isActiveToday lastActive longest].
  split; [exact F|]. split; [exact Vt|]. split; [exact Vy|].
  repeat split; reflexivity.
Qed.

(** X6. An empty list gives the all-zero result whatever the clock reads.
    With a non-empty list the call throws a RangeError as soon as one
    timestamp, the clock, or the clock a day earlier is not a valid
    time. *)
Theorem calculateStreak_throws (zone : TimeZone) (now : Z) (ts : list Z) :
  calculateStreak zone now [] = Some noActivity
  /\ (ts <> [] -> ~ Forall validTime (now :: now - 86400000 :: ts) ->
      calculateStreak zone now ts = None).
Proof.
  split; [reflexivity|]. intros NE NV.
  destruct (calculateStreak zone now ts) as [r|] eqn:E; [|reflexivity].
  destruct (calculateStreak_fields _ _ _ _ NE E) as (F & Vn & Vy & _).
  elim NV. constructor; [exact Vn|]. constructor; [exact Vy|exact F].
Qed.

Lemma calculateStreak_throws_witness :
  [8640000000000001] <> [] /\ calculateStreak utc noon [8640000000000001] = None.
Proof.
  assert (NE : [8640000000000001] <> []) by discriminate.
  split; [exact NE|].
  apply (proj2 (calculateStreak_throws utc noon [8640000000000001]) NE).
  intro F. inversion F as [|? ? _ F1]; subst. inversion F1 as [|? ? _ F2]; subst.
  inversion F2 as [|? ? V _]; subst. unfold validTime in V. lia.
Defined.

(** X7. The result depends on the set of timestamps only: neither the
    order of the list nor a repeated timestamp changes any field, nor
    whether the call throws. *)
Theorem calculateStreak_set (zone : TimeZone) (now : Z) (ts ts' : list Z) :
  (forall t, In t ts <-> In t ts') ->
  calculateStreak zone now ts = calculateStreak zone now ts'.
Proof.
  intros S.
  destruct ts as [|x l].
  { destruct ts' as [|y l']; [reflexivity|]. destruct (proj2 (S y)). now left. }
  destruct ts' as [|y l'].
  { destruct (proj1 (S x)). now left. }
  set (ts := x :: l) in *. set (ts' := y :: l') in *.
  unfold calculateStreak.
  change (Nat.eqb (List.length ts) 0) with false.
  change (Nat.eqb (List.length ts') 0) with false.
  fold (sortDesc ts). fold (sortDesc ts').
  assert (V : Forall validTime ts <-> Forall validTime ts').
  { rewrite !Forall_forall. split; intros H t I; apply H, S, I. }
  assert (Hd : hd_error (sortDesc ts) = hd_error (sortDesc ts')).
  { pose proof (sortDesc_head ts) as H1. pose proof (sortDesc_head ts') as H2.
    destruct (hd_error (sortDesc ts)) as [a|], (hd_error (sortDesc ts')) as [b|];
      try discriminate; try reflexivity.
    destruct H1 as [I1 M1], H2 as [I2 M2].
    apply S in I1 as I1'. apply S in I2 as I2'.
    specialize (M1 _ I2'). specialize (M2 _ I1'). f_equal. lia. }
  destruct (JS.mapM getDateKey (sortDesc ts)) as [keys|] eqn:M.
  - apply mapM_getDateKey_Some in M as [F ->].
    assert (F' : Forall validTime (sortDesc ts')).
    { apply sortDesc_valid, V, sortDesc_valid, F. }
    rewrite (mapM_getDateKey_valid _ F'). cbn [JS.bind].
    rewrite (dayArray_same (map keyOf (sortDesc ts')) (map keyOf (sortDesc ts))).
    2:{ intros k. rewrite !sortDesc_keys, !in_map_iff.
        split; intros (t & <- & I); exists t; (split; [reflexivity|]); apply S, I. }
    rewrite Hd. reflexivity.
  - apply mapM_getDateKey_None in M.
    destruct (JS.mapM getDateKey (sortDesc ts')) as [keys'|] eqn:M'; [|reflexivity].
    apply mapM_getDateKey_Some in M' as [F' _].
    elim M. apply sortDesc_valid, V, sortDesc_valid, F'.
Qed.

Lemma calculateStreak_set_witness :
  (forall t, In t [noon; noon - aDay] <-> In t [noon - aDay; noon; noon])
  /\ calculateStreak utc noon [noon; noon - aDay]
     = calculateStreak utc noon [noon - aDay; noon; noon].
Proof.
  assert (S : forall t, In t [noon; noon - aDay] <-> In t [noon - aDay; noon; noon]).
  { intro t. cbn. tauto. }
  split; [exact S|]. exact (calculateStreak_set utc noon _ _ S).
Defined.

Lemma scanLongest_days E : forall prev l t,
  validDay prev -> Forall validDay E ->
  scanLongest (keyOfDay prev) (map keyOfDay E) l t = scanDays prev E l t.
Proof.
  induction E as [|curr E IH]; intros prev l t Vp F; [reflexivity|].
  inversion F as [|? ? Vc F']; subst.
  cbn [map scanLongest scanDays].
  rewrite getDaysBetween_keys by assumption. cbn [isOne].
  destruct (curr - prev =? 1); now apply IH.
Qed.

Lemma runOf_more seen x a m : runOf seen a m -> runOf (seen ++ [x]) a m.
Proof. intros R i Hi. apply in_app_iff. left. now apply R. Qed.

Lemma scanned_step seen prev l t curr :
  scanned seen prev l t -> prev < curr ->
  if curr - prev =? 1 then scanned (seen ++ [curr]) curr l (t + 1)
  else scanned (seen ++ [curr]) curr (Z.max l t) 1.
Proof.
  intros (T & L & Ip & Up & Rt & Nt & Ub & Ach) Lt.
  assert (Top : forall a m, runOf (seen ++ [curr]) a m ->
                runOf seen a m \/ (1 <= m /\ a + m - 1 = curr)).
  { intros a m R.
    destruct (Z_le_gt_dec m 0) as [Z0|P]; [left; intros i Hi; lia|].
    destruct (Z.eq_dec (a + m - 1) curr) as [E|NE]; [right; lia|]. left.
    assert (B : a + (m - 1) <= curr).
    { specialize (R (m - 1) ltac:(lia)). apply in_app_iff in R.
      destruct R as [R|[<-|[]]]; [apply Up in R|]; lia. }
    intros i Hi. specialize (R i Hi). apply in_app_iff in R.
    destruct R as [R|[E|[]]]; [assumption|lia]. }
  destruct (curr - prev =? 1) eqn:C.
  - apply Z.eqb_eq in C.
    repeat split; try lia.
    + apply in_app_iff. right. now left.
    + intros x I. apply in_app_iff in I. destruct I as [I|[<-|[]]]; [apply Up in I|]; lia.
    + intros i Hi. apply in_app_iff.
      destruct (Z.eq_dec i t) as [->|N].
      * right. left. lia.
      * left. replace (curr - (t + 1) + 1 + i) with (prev - t + 1 + i) by lia.
        apply Rt. lia.
    + intros I. apply in_app_iff in I. destruct I as [I|[E|[]]]; [|lia].
      apply Nt. replace (prev - t) with (curr - (t + 1)) by lia. exact I.
    + intros a m R. destruct (Top a m R) as [R'|[M E]].
      * specialize (Ub a m R'). lia.
      * destruct (Z_le_gt_dec m (t + 1)) as [?|G]; [lia|].
        exfalso. specialize (R (m - (t + 1) - 1) ltac:(lia)).
        apply in_app_iff in R. destruct R as [R|[E'|[]]]; [|lia].
        apply Nt. replace (prev - t) with (a + (m - (t + 1) - 1)) by lia. exact R.
    + destruct Ach as [->|(a & R)]; [now left|]. right. exists a. now apply runOf_more.
  - apply Z.eqb_neq in C.
    repeat split; try lia.
    + apply in_app_iff. right. now left.
    + intros x I. apply in_app_iff in I. destruct I as [I|[<-|[]]]; [apply Up in I|]; lia.
    + intros i Hi. apply in_app_iff. right. left. lia.
    + intros I. apply in_app_iff in I. destruct I as [I|[E|[]]]; [apply Up in I|]; lia.
    + intros a m R. destruct (Top a m R) as [R'|[M E]].
      * specialize (Ub a m R'). lia.
      * destruct (Z_le_gt_dec m 1) as [?|G]; [lia|].
        exfalso. specialize (R (m - 2) ltac:(lia)).
        apply in_app_iff in R. destruct R as [R|[E'|[]]]; [apply Up in R|]; lia.
    + right. destruct (Z_le_gt_dec t l) as [Le|G].
      * rewrite Z.max_l by lia.
        destruct Ach as [->|(a & R)]; [lia|]. exists a. now apply runOf_more.
      * rewrite Z.max_r by lia. exists (prev - t + 1). now apply runOf_more.
Qed.

Lemma scanDays_scanned E : forall seen prev l t,
  StronglySorted Z.lt (prev :: E) ->
  scanned seen prev l t ->
  exists last, scanned (seen ++ E) last (fst (scanDays prev E l t))
                 (snd (scanDays prev E l t)).
Proof.
  induction E as [|curr E IH]; intros seen prev l t S Inv.
  - exists prev. cbn. now rewrite app_nil_r.
  - inversion S as [|? ? S' F]; subst. inversion F as [|? ? Lt _]; subst.
    pose proof (scanned_step seen prev l t curr Inv Lt) as St.
    cbn [scanDays].
    replace (seen ++ curr :: E) with ((seen ++ [curr]) ++ E)
      by (now rewrite <- app_assoc).
    destruct (curr - prev =? 1); now apply IH.
Qed.

(** The scan of an increasing list of days ends with the length of the
    longest run of consecutive days of the list. *)
Lemma scanDays_longest first E :
  StronglySorted Z.lt (first :: E) ->
  let '(l, t) := scanDays first E 0 1 in
  1 <= Z.max l t
  /\ (exists a, runOf (first :: E) a (Z.max l t))
  /\ (forall a m, runOf (first :: E) a m -> m <= Z.max l t).
Proof.
  intros S.
  destruct (scanDays_scanned E [first] first 0 1 S) as (last & Inv).
  { unfold scanned, runOf.
    split; [lia|]. split; [lia|]. split; [now left|].
    split; [intros x [<-|[]]; lia|].
    split; [intros i Hi; left; lia|].
    split; [intros [E0|[]]; lia|].
    split; [|now left].
    intros a m R. destruct (Z_le_gt_dec m 1) as [?|G]; [lia|]. exfalso.
    pose proof (R 0 ltac:(lia)) as [A|[]]. pose proof (R 1 ltac:(lia)) as [B|[]]. lia. }
  destruct (scanDays first E 0 1) as [l t]. cbn [fst snd] in Inv.
  change ([first] ++ E) with (first :: E) in Inv.
  destruct Inv as (T & L & _ & _ & Rt & _ & Ub & Ach).
  split; [lia|]. split; [|exact Ub].
  destruct (Z_le_gt_dec t l) as [Le|G].
  - rewrite Z.max_l by lia. destruct Ach as [->|A]; [lia|exact A].
  - rewrite Z.max_r by lia. now exists (last - t + 1).
Qed.

Lemma NoDup_days a k s : NoDup (map (fun i => a + Z.of_nat i) (seq s k)).
Proof.
  revert s. induction k as [|k IH]; intro s; cbn; constructor; [|apply IH].
  intro I. apply in_map_iff in I as (i & E & I). apply in_seq in I. lia.
Qed.

(** X8, for timestamps of the years 0000 to 9999. [longest] is the length
    of the longest run of consecutive active days: some run of active
    days has that length and none is longer. *)
Theorem calculateStreak_longest (zone : TimeZone) (now : Z) (ts : list Z) (r : StreakResult) :
  Forall plainYear ts -> ts <> [] ->
  calculateStreak zone now ts = Some r ->
  1 <= longest r <= Z.of_nat (List.length ts)
  /\ (exists a, activeRun ts a (longest r))
  /\ (forall a m, activeRun ts a m -> m <= longest r).
Proof.
  intros P NE H.
  destruct (calculateStreak_fields _ _ _ _ NE H) as (_ & _ & _ & _ & _ & L).
  cbv zeta in L.
  destruct (dayArray_days ts P) as (D & ED & SD & AD).
  rewrite ED in L. rewrite <- map_rev in L.
  assert (SA : StronglySorted Z.lt (rev D)).
  { apply StronglySorted_rev in SD. exact SD. }
  assert (VA : Forall validDay (rev D)).
  { apply Forall_forall. intros d I. apply in_rev, AD in I.
    now apply plainDay_valid, (active_plain ts). }
  assert (IA : forall m, In m (rev D) <-> active ts m).
  { intro m. rewrite <- in_rev. apply AD. }
  assert (RA : forall a m, runOf (rev D) a m <-> activeRun ts a m).
  { intros a m. unfold runOf, activeRun. split; intros R i Hi; apply IA, R, Hi. }
  destruct (rev D) as [|first E] eqn:ER.
  { exfalso. destruct ts as [|t ts']; [congruence|].
    apply (proj2 (IA (Day t))). exists t. split; [now left|reflexivity]. }
  cbn [map] in L. inversion VA as [|? ? Vf VE]; subst.
  rewrite scanLongest_days in L by assumption.
  pose proof (scanDays_longest first E SA) as B.
  destruct (scanDays first E 0 1) as [l t]. destruct B as (B1 & (a & B2) & B3).
  rewrite L. split; [split; [exact B1|]|].
  - (* a run of m days needs m timestamps *)
    set (m := Z.max l t) in *.
    assert (ND : NoDup (first :: E)).
    { clear -SA. induction SA as [|x l S IH F]; constructor; [|assumption].
      intro I. rewrite Forall_forall in F. specialize (F _ I). lia. }
    assert (Len : Z.of_nat (List.length (first :: E)) <= Z.of_nat (List.length ts)).
    { apply inj_le.
      transitivity (List.length (map Day ts)); [|now rewrite length_map].
      apply NoDup_incl_length; [exact ND|].
      intros d I. apply IA in I. destruct I as (t0 & I0 & <-). now apply in_map. }
    assert (Run : m <= Z.of_nat (List.length (first :: E))).
    { assert (G : forall k : nat, Z.of_nat k <= m ->
                  incl (map (fun i => a + Z.of_nat i) (seq 0 k)) (first :: E)).
      { intros k Hk d I. apply in_map_iff in I as (i & <- & I).
        apply in_seq in I. apply B2. lia. }
      specialize (G (Z.to_nat m) ltac:(lia)).
      apply NoDup_incl_length in G.
      - rewrite length_map, length_seq in G. lia.
      - apply NoDup_days. }
    lia.
  - split.
    + exists a. exact (proj1 (RA a _) B2).
    + intros a' m' R. apply (B3 a'). exact (proj2 (RA a' m') R).
Qed.

Lemma calculateStreak_longest_witness :
  Forall plainYear visits /\ visits <> []
  /\ 1 <= 4 <= Z.of_nat (List.length visits)
  /\ (exists a, activeRun visits a 4).
Proof.
  assert (NE : visits <> []) by discriminate.
  split; [exact visits_plainYear|]. split; [exact NE|].
  destruct (calculateStreak_longest utc noon visits _ visits_plainYear NE
              visits_streak) as (B & R & _).
  split; [exact B|exact R].
Defined.

(** X9. [lastActive] is the latest timestamp of the list. For timestamps
    of the years 0000 to 9999, [isActiveToday] says that this latest
    timestamp falls on the UTC day of the clock: a later one, on a day to
    come, makes it false. *)
Theorem calculateStreak_lastActive (zone : TimeZone) (now : Z) (ts : list Z) (r : StreakResult) :
  ts <> [] -> calculateStreak zone now ts = Some r ->
  exists t, lastActive r = Some t /\ In t ts /\ (forall t', In t' ts -> t' <= t)
    /\ (Forall plainYear ts -> (isActiveToday r = true <-> Day t = Day now)).
Proof.
  intros NE H.
  destruct (calculateStreak_fields _ _ _ _ NE H) as (F & Vn & _ & A & LA & _).
  cbv zeta in A.
  pose proof (sortDesc_head ts) as Hd. rewrite <- LA in Hd.
  destruct (lastActive r) as [t|]; [|contradiction].
  destruct Hd as [It Mt].
  exists t. split; [reflexivity|]. split; [exact It|]. split; [exact Mt|].
  intros P. rewrite A.
  destruct (dayArray_days ts P) as (D & -> & SD & AD).
  assert (At : In (Day t) D) by (apply AD; now exists t).
  destruct D as [|d D']; [destruct At|]. cbn [map hd_error].
  assert (Ed : d = Day t).
  { assert (Ad : active ts d) by (apply AD; now left).
    destruct Ad as (t0 & I0 & <-). specialize (Mt _ I0).
    inversion SD as [|? ? _ FD]; subst. rewrite Forall_forall in FD.
    destruct At as [E|I]; [exact E|]. specialize (FD _ I).
    unfold Day, msPerDay in *. exfalso. Z.div_mod_to_equations. lia. }
  subst d. unfold keyOf. rewrite strictEq_keys.
  - apply Z.eqb_eq.
  - apply validDay_Day. rewrite Forall_forall in F. now apply F.
  - now apply validDay_Day.
Qed.

Lemma calculateStreak_lastActive_witness :
  visits <> []
  /\ exists t, Some noon = Some t /\ In t visits
       /\ forall t', In t' visits -> t' <= t.
Proof.
  assert (NE : visits <> []) by discriminate.
  split; [exact NE|].
  destruct (calculateStreak_lastActive utc noon visits _ NE visits_streak)
    as (t & L & I & M & _).
  exists t. split; [exact L|]. split; [exact I|exact M].
Defined.

End StreakMore.

(** ** Rounding keeps the order *)

Module Rounding.
Import Double Spec DoubleFacts.
Local Open Scope Q_scope.

Lemma Q_as_fraction a : a == inject_Z (Qnum a) / inject_Z (Zpos (Qden a)).
Proof.
  destruct a as [n d]. cbn [Qnum Qden].
  unfold Qeq, Qdiv, Qmult, Qinv, inject_Z. cbn. lia.
Qed.

(** [exponent] is the integer part of the binary logarithm. *)
Lemma exponent_lt a : 0 < a -> a < 2 ^ (exponent a + 1).
Proof.
  intros P. unfold exponent.
  set (n := Qnum a). set (d := Zpos (Qden a)).
  destruct (Qle_bool (2 ^ (Z.log2 n - Z.log2 d)) a) eqn:E.
  - assert (Pn : (0 < n)%Z).
    { unfold Qlt in P. cbn in P. subst n. lia. }
    assert (Pd : (0 < d)%Z) by (subst d; lia).
    destruct (Z.log2_spec n Pn) as [_ Un].
    destruct (Z.log2_spec d Pd) as [Ld _].
    pose proof (Z.log2_nonneg n) as Nn. pose proof (Z.log2_nonneg d) as Nd.
    replace (Z.log2 n - Z.log2 d + 1)%Z with (Z.succ (Z.log2 n) - Z.log2 d)%Z by lia.
    rewrite Qpower_minus by discriminate.
    rewrite <- (Zpower_Qpower 2 (Z.succ (Z.log2 n))) by lia.
    rewrite <- (Zpower_Qpower 2 (Z.log2 d)) by lia.
    set (x := (2 ^ Z.succ (Z.log2 n))%Z) in *. set (y := (2 ^ Z.log2 d)%Z) in *.
    rewrite (Q_as_fraction a). fold n d.
    assert (Py : 0 < inject_Z y).
    { change 0 with (inject_Z 0). rewrite <- Zlt_Qlt. subst y. lia. }
    assert (PdQ : 0 < inject_Z d).
    { change 0 with (inject_Z 0). rewrite <- Zlt_Qlt. lia. }
    assert (PnQ : 0 < inject_Z n).
    { change 0 with (inject_Z 0). rewrite <- Zlt_Qlt. lia. }
    assert (Lx : inject_Z n < inject_Z x) by (rewrite <- Zlt_Qlt; exact Un).
    assert (Ly : inject_Z y <= inject_Z d) by (rewrite <- Zle_Qle; exact Ld).
    apply Qlt_shift_div_r; [exact PdQ|].
    assert (R : / inject_Z y * inject_Z y == 1) by (field; lra).
    unfold Qdiv. set (r := / inject_Z y) in *.
    assert (Pr : 0 < r) by (subst r; now apply Qinv_lt_0_compat).
    set (X := inject_Z x) in *. set (Y := inject_Z y) in *.
    set (D := inject_Z d) in *. set (N := inject_Z n) in *.
    clearbody X Y D N r.
    assert (H1 : 0 < X * r) by nra.
    assert (H2 : X * r * Y <= X * r * D) by nra.
    assert (H3 : X * r * Y == X) by (rewrite <- Qmult_assoc, R; ring).
    lra.
  - apply Qle_bool_false in E.
    now replace (Z.log2 n - Z.log2 d - 1 + 1)%Z with (Z.log2 n - Z.log2 d)%Z by lia.
Qed.

Lemma exponent_mono a b : 0 < a -> a <= b -> (exponent a <= exponent b)%Z.
Proof.
  intros P L.
  assert (H : 2 ^ exponent a < 2 ^ (exponent b + 1)).
  { apply Qle_lt_trans with a; [now apply exponent_le|].
    apply Qle_lt_trans with b; [exact L|]. apply exponent_lt. lra. }
  apply Qpower_lt_compat_l_inv in H; [lia|reflexivity].
Qed.

Lemma nearestEven_comp x y : x == y -> nearestEven x = nearestEven y.
Proof.
  intros E. unfold nearestEven. rewrite (Qfloor_comp _ _ E).
  assert (C : Qcompare (x - inject_Z (Qfloor y)) (1 # 2)
              = Qcompare (y - inject_Z (Qfloor y)) (1 # 2)).
  { now rewrite E. }
  now rewrite C.
Qed.

Lemma nearestEven_Z z : nearestEven (inject_Z z) = z.
Proof.
  unfold nearestEven. rewrite Qfloor_Z.
  assert (C : Qcompare (inject_Z z - inject_Z z) (1 # 2) = Lt).
  { apply Qlt_alt. assert (Z0 : inject_Z z - inject_Z z == 0) by ring.
    rewrite Z0. reflexivity. }
  now rewrite C.
Qed.

Lemma nearestEven_le x : (nearestEven x <= Qfloor x + 1)%Z.
Proof.
  unfold nearestEven. destruct (Qcompare _ _); [destruct (Z.even _)| |]; lia.
Qed.

Lemma nearestEven_mono x y : x <= y -> (nearestEven x <= nearestEven y)%Z.
Proof.
  intros L. pose proof (Qfloor_resp_le _ _ L) as F.
  destruct (Z.eq_dec (Qfloor x) (Qfloor y)) as [E|N].
  - unfold nearestEven. rewrite E.
    destruct (Qcompare_spec (x - inject_Z (Qfloor y)) (1 # 2)) as [Hx|Hx|Hx],
             (Qcompare_spec (y - inject_Z (Qfloor y)) (1 # 2)) as [Hy|Hy|Hy];
      try destruct (Z.even (Qfloor y)); try lia; exfalso; lra.
  - etransitivity; [apply nearestEven_le|].
    etransitivity; [|apply nearestEven_ge]. lia.
Qed.

Lemma magnitude_zero q : q == 0 -> magnitude q == 0.
Proof.
  intros E. unfold magnitude. cbv zeta.
  set (e := Z.max _ _).
  assert (Z0 : Qabs q / 2 ^ e == inject_Z 0).
  { rewrite E. change (inject_Z 0) with 0. unfold Qdiv. cbn. ring. }
  rewrite (nearestEven_comp _ _ Z0), nearestEven_Z. ring.
Qed.

(** Rounding keeps the order of magnitudes. *)
Lemma magnitude_mono x y : Qabs x <= Qabs y -> magnitude x <= magnitude y.
Proof.
  intros L.
  destruct (Qeq_dec x 0) as [Zx|Nx].
  { rewrite (magnitude_zero x Zx). apply magnitude_nonneg. }
  assert (Pa : 0 < Qabs x).
  { apply Qabs_case; intro H.
    - apply Qle_lteq in H as [H|H]; [exact H|]. exfalso. apply Nx. now symmetry.
    - apply Qle_lteq in H as [H|H]; [lra|]. exfalso. now apply Nx. }
  unfold magnitude. cbv zeta.
  set (a := Qabs x) in *. set (b := Qabs y) in *.
  pose proof (exponent_mono a b Pa L) as M.
  set (ea := Z.max (exponent a - 52) (-1074)).
  set (eb := Z.max (exponent b - 52) (-1074)).
  assert (Le : (ea <= eb)%Z) by (subst ea eb; lia).
  pose proof (pow2_pos ea) as Pea. pose proof (pow2_pos eb) as Peb.
  destruct (Z.eq_dec ea eb) as [E|N].
  - rewrite <- E.
    apply Qmult_le_compat_r; [|lra].
    rewrite <- Zle_Qle. apply nearestEven_mono.
    unfold Qdiv. apply Qmult_le_compat_r; [exact L|].
    apply Qlt_le_weak, Qinv_lt_0_compat, Pea.
  - assert (Eb : eb = (exponent b - 52)%Z) by (subst ea eb; lia).
    assert (Pb : 0 < b) by lra.
    (* the smaller one is at most 2^(ea + 53) *)
    assert (Ua : inject_Z (nearestEven (a / 2 ^ ea)) <= 2 ^ 53).
    { rewrite <- (Zpower_Qpower 2 53) by lia. rewrite <- Zle_Qle.
      rewrite <- (nearestEven_Z (2 ^ 53)). apply nearestEven_mono.
      rewrite Zpower_Qpower by lia. change (inject_Z 2) with 2.
      apply Qle_shift_div_r; [exact Pea|].
      rewrite <- Qpower_plus by discriminate.
      apply Qlt_le_weak, Qlt_le_trans with (2 ^ (exponent a + 1));
        [now apply exponent_lt|apply pow2_le; subst ea; lia]. }
    (* the larger one at least 2^(eb + 52) *)
    assert (Lb : 2 ^ 52 <= inject_Z (nearestEven (b / 2 ^ eb))).
    { rewrite <- (Zpower_Qpower 2 52) by lia. rewrite <- Zle_Qle.
      rewrite <- (nearestEven_Z (2 ^ 52)) at 1. apply nearestEven_mono.
      rewrite Zpower_Qpower by lia. change (inject_Z 2) with 2.
      apply Qle_shift_div_l; [exact Peb|].
      rewrite <- Qpower_plus by discriminate.
      apply Qle_trans with (2 ^ exponent b); [apply pow2_le; lia|now apply exponent_le]. }
    apply Qle_trans with (2 ^ 53 * 2 ^ ea).
    + apply Qmult_le_compat_r; [exact Ua|lra].
    + apply Qle_trans with (2 ^ 52 * 2 ^ eb).
      * rewrite <- !Qpower_plus by discriminate. apply pow2_le. lia.
      * apply Qmult_le_compat_r; [exact Lb|lra].
Qed.

(** The place of a rounded rational: its sign times its rounded magnitude,
    cut at 2^1024. *)
Lemma place_round q :
  place (round q)
  == (if negative q then -1 else 1)
     * (if Qle_bool (2 ^ 1024) (magnitude q) then 2 ^ 1024 else magnitude q).
Proof.
  rewrite round_unfold.
  destruct (Qeq_bool q 0) eqn:Z0.
  - apply Qeq_bool_iff in Z0. pose proof (magnitude_zero q Z0) as M.
    assert (F : Qle_bool (2 ^ 1024) (magnitude q) = false).
    { apply Qle_bool_false. pose proof (pow2_pos 1024). lra. }
    rewrite F. cbn [place]. rewrite M. destruct (negative q); ring.
  - destruct (Qle_bool (2 ^ 1024) (magnitude q)); cbn [place].
    + destruct (negative q); ring.
    + rewrite Qred_correct. destruct (negative q); ring.
Qed.

(** Rounding is monotone. *)
Lemma round_mono x y : x <= y -> place (round x) <= place (round y).
Proof.
  intros L. rewrite !place_round.
  pose proof (magnitude_nonneg x) as Mx. pose proof (magnitude_nonneg y) as My.
  pose proof (pow2_pos 1024) as Big. set (big := 2 ^ 1024) in *. clearbody big.
  destruct (negative x) eqn:Sx, (negative y) eqn:Sy.
  - apply negative_spec in Sx, Sy.
    assert (M : magnitude y <= magnitude x).
    { apply magnitude_mono. rewrite !Qabs_neg by lra. lra. }
    destruct (Qle_bool big (magnitude x)) eqn:Cx, (Qle_bool big (magnitude y)) eqn:Cy;
      try apply Qle_bool_iff in Cx; try apply Qle_bool_iff in Cy;
      try apply Qle_bool_false in Cx; try apply Qle_bool_false in Cy; lra.
  - destruct (Qle_bool big (magnitude x)), (Qle_bool big (magnitude y)); lra.
  - apply negative_false in Sx. apply negative_spec in Sy. exfalso. lra.
  - apply negative_false in Sx, Sy.
    assert (M : magnitude x <= magnitude y).
    { apply magnitude_mono. rewrite !Qabs_pos by lra. lra. }
    destruct (Qle_bool big (magnitude x)) eqn:Cx, (Qle_bool big (magnitude y)) eqn:Cy;
      try apply Qle_bool_iff in Cx; try apply Qle_bool_iff in Cy;
      try apply Qle_bool_false in Cx; try apply Qle_bool_false in Cy; lra.
Qed.

(** Equal rationals round to the same place. *)
Lemma round_compat x y : x == y -> place (round x) == place (round y).
Proof.
  intros E. apply Qle_antisym; apply round_mono; rewrite E; apply Qle_refl.
Qed.

End Rounding.

(** ** The calculators *)

Module CalcSpec.
Import Double Spec DoubleFacts Rounding Aura AuraCalc CalcVocab.
Local Open Scope Q_scope.

(** A rounding between two roundings that are finite is finite. *)
Lemma round_between lo hi q :
  lo <= q <= hi ->
  - 2 ^ 1024 < place (round lo) -> place (round hi) < 2 ^ 1024 ->
  exists v, round q = finite v /\ place (round lo) <= v <= place (round hi).
Proof.
  intros [L H] Blo Bhi.
  pose proof (round_mono _ _ L) as M1. pose proof (round_mono _ _ H) as M2.
  pose proof (round_ordinary q) as O.
  destruct (round q) as [v|s|]; [|exfalso|contradiction].
  - exists v. cbn [place] in *. split; [reflexivity|lra].
  - cbn [place] in *. destruct s; lra.
Qed.

Lemma round_0 : place (round 0) == 0.
Proof. reflexivity. Qed.

Lemma round_1 : place (round 1) == 1.
Proof. apply Qeq_bool_iff. vm_compute. reflexivity. Qed.

Lemma round_100 : place (round 100) == 100.
Proof. apply Qeq_bool_iff. vm_compute. reflexivity. Qed.

Lemma big_bounds : - 2 ^ 1024 < 0 /\ 1 < 2 ^ 1024 /\ 100 < 2 ^ 1024.
Proof.
  assert (H : 2 ^ 7 <= 2 ^ 1024) by (apply pow2_le; lia).
  assert (E : 2 ^ 7 == 128) by reflexivity. lra.
Qed.

(** What rounds a number of [0, 1] gives. *)
Lemma round_unit q :
  0 <= q <= 1 -> exists v, round q = finite v /\ 0 <= v <= 1.
Proof.
  intros H. pose proof big_bounds as (B0 & B1 & _).
  destruct (round_between 0 1 q H) as (v & E & V).
  - rewrite round_0. exact B0.
  - rewrite round_1. exact B1.
  - exists v. split; [exact E|]. rewrite round_0, round_1 in V. exact V.
Qed.

(** [Math.round(x * 100) / 100] for [x] in [0, 1] is one of the 101
    hundredths. *)
Lemma hundredths w :
  0 <= w <= 1 ->
  exists k, (0 <= k <= 100)%Z
    /\ divide (Math_round (times (finite w) (finite 100))) (finite 100)
       = hundredth k.
Proof.
  intros H. pose proof big_bounds as (B0 & _ & B100).
  cbn [times].
  destruct (round_between 0 100 (w * 100)) as (u & -> & U).
  - lra.
  - rewrite round_0. exact B0.
  - rewrite round_100. exact B100.
  - rewrite round_0, round_100 in U. cbn [Math_round].
    exists (Qfloor (u + (1 # 2))). split.
    + split; [apply Qfloor_ge0; lra|].
      change 100%Z with (Qfloor (100 + (1 # 2))).
      apply Qfloor_resp_le. lra.
    + reflexivity.
Qed.

Lemma hundredth_unit k :
  (0 <= k <= 100)%Z -> exists v, hundredth k = finite v /\ 0 <= v <= 1.
Proof.
  intros [L U]. apply round_unit.
  rewrite Zle_Qle in L, U. change (inject_Z 0) with 0 in L.
  change (inject_Z 100) with 100 in U.
  set (x := inject_Z k) in *. clearbody x.
  unfold Qdiv. change (/ 100) with (1 # 100). lra.
Qed.

(** [Math.max(0, Math.min(1, x))] is in [0, 1] unless [x] is NaN. *)
Lemma clamp_unit x :
  x <> NaN ->
  exists w, Math_max (finite 0) (Math_min (finite 1) x) = finite w /\ 0 <= w <= 1.
Proof.
  intros N. destruct x as [v|[|]|]; [| | |congruence]; clear N;
    unfold Math_min, Math_max; cbn [leb].
  - destruct (Qle_bool 1 v) eqn:E1.
    + exists 1. cbn. split; [reflexivity|lra].
    + apply Qle_bool_false in E1. cbn [leb].
      destruct (Qle_bool 0 v) eqn:E0.
      * apply Qle_bool_iff in E0. exists v. split; [reflexivity|lra].
      * exists 0. split; [reflexivity|lra].
  - exists 0. cbn. split; [reflexivity|lra].
  - exists 1. cbn. split; [reflexivity|lra].
Qed.

Lemma ofQ_finite q :
  finiteNumeral q -> exists v, ofQ q = finite v /\ - 2 ^ 1024 < v < 2 ^ 1024.
Proof.
  unfold finiteNumeral. intros F. pose proof (round_ordinary q) as O.
  unfold ofQ in *. destruct (round q) as [v| |]; try discriminate.
  exists v. split; [reflexivity|]. exact (proj2 O).
Qed.

Lemma round_half_big : place (round (2 ^ 1023)) == 2 ^ 1023.
Proof. apply Qeq_bool_iff. vm_compute. reflexivity. Qed.

(** A finite number times a factor of at most one half is finite. *)
Lemma times_small v c :
  - 2 ^ 1024 < v < 2 ^ 1024 -> 0 <= c <= 1 # 2 ->
  exists w, times (finite v) (finite c) = finite w.
Proof.
  intros V C. cbn [times].
  assert (P : 2 ^ 1024 == 2 * 2 ^ 1023).
  { change (2 ^ 1024) with (2 ^ (1 + 1023)). rewrite Qpower_plus by discriminate.
    reflexivity. }
  pose proof (pow2_pos 1023) as Big. set (h := 2 ^ 1023) in *.
  set (big := 2 ^ 1024) in *.
  assert (R : place (round h) == h) by apply round_half_big.
  assert (Rn : place (round (- h)) == - h).
  { rewrite place_round. subst h.
    apply Qeq_bool_iff. vm_compute. reflexivity. }
  assert (G1 : - h <= v * c <= h).
  { clearbody h big.
    destruct (Qlt_le_dec v 0) as [Neg|Pos].
    + assert (0 <= (- v) * c) by (apply Qmult_le_0_compat; lra).
      assert (0 <= (- v) * ((1 # 2) - c)) by (apply Qmult_le_0_compat; lra).
      split; lra.
    + assert (0 <= v * c) by (apply Qmult_le_0_compat; lra).
      assert (0 <= v * ((1 # 2) - c)) by (apply Qmult_le_0_compat; lra).
      split; lra. }
  assert (G2 : - big < place (round (- h))) by (clearbody h big; lra).
  assert (G3 : place (round h) < big) by (clearbody h big; lra).
  destruct (round_between (- h) h (v * c) G1 G2 G3) as (w & E & _).
  now exists w.
Qed.

Lemma ofQ_03 : exists c, ofQ 0.3 = finite c /\ 0 <= c <= 1 # 2.
Proof.
  eexists. split; [vm_compute; reflexivity|]. split; vm_compute; discriminate.
Qed.

Lemma ofQ_02 : exists c, ofQ 0.2 = finite c /\ 0 <= c <= 1 # 2.
Proof.
  eexists. split; [vm_compute; reflexivity|]. split; vm_compute; discriminate.
Qed.

Lemma plus_finite_not_NaN a w : a <> NaN -> plus a (finite w) <> NaN.
Proof.
  destruct a as [x|s|]; [| |congruence]; intros _; cbn [plus].
  - pose proof (round_ordinary (x + w)) as O. intro E. rewrite E in O. exact O.
  - discriminate.
Qed.

Lemma divide_not_NaN x y : ~ y == 0 -> divide (finite x) (finite y) <> NaN.
Proof.
  intros N. cbn [divide]. apply Qeq_bool_false in N. rewrite N.
  pose proof (round_ordinary (x / y)) as O. intro E. rewrite E in O. exact O.
Qed.

Lemma hundredth_100 : eqb (finite 1.0) (hundredth 100) = true.
Proof. vm_compute. reflexivity. Qed.

Lemma eqb_refl_finite a v : a = finite v -> eqb a a = true.
Proof. intros ->. cbn. apply Qeq_bool_iff. reflexivity. Qed.

(** X15. For parameters that are finite numbers, [calculateTES] returns
    one of the 101 hundredths 0, 0.01, ..., 1: a number between 0 and 1,
    never NaN, whatever the ratio, the penalty and the bonus come to. *)
Theorem calculateTES_range (p : TESParams) :
  finiteNumeral (totalElements p) -> finiteNumeral (essentialElements p) ->
  finiteNumeral (clarityScore p) -> finiteNumeral (anxietyInduced p) ->
  exists k v,
    (0 <= k <= 100)%Z
    /\ eqb (calculateTES p) (hundredth k) = true
    /\ hundredth k = finite v /\ 0 <= v <= 1.
Proof.
  intros Ft Fe Fc Fa.
  destruct (ofQ_finite _ Ft) as (t & Et & Bt).
  destruct (ofQ_finite _ Fe) as (e & Ee & Be).
  destruct (ofQ_finite _ Fc) as (c & Ec & Bc).
  destruct (ofQ_finite _ Fa) as (a & Ea & Ba).
  destruct ofQ_03 as (c3 & E3 & B3). destruct ofQ_02 as (c2 & E2 & B2).
  unfold calculateTES. cbv zeta. rewrite Et, Ee, Ec, Ea, E3, E2.
  cbn [eqb].
  destruct (Qeq_bool t 0) eqn:Z0.
  - exists 100%Z. destruct (hundredth_unit 100 ltac:(lia)) as (v & Ev & Bv).
    exists v. split; [lia|]. split; [apply hundredth_100|]. split; assumption.
  - apply Qeq_bool_false in Z0.
    destruct (times_small a c3 Ba B3) as (fp & ->).
    destruct (times_small c c2 Bc B2) as (cb & ->).
    set (ratio := divide (finite e) (finite t)).
    assert (Nr : ratio <> NaN) by now apply divide_not_NaN.
    assert (Nx : plus (minus ratio (finite fp)) (finite cb) <> NaN).
    { apply plus_finite_not_NaN. unfold minus. cbn [opp].
      now apply plus_finite_not_NaN. }
    destruct (clamp_unit _ Nx) as (w & -> & Bw).
    destruct (hundredths w Bw) as (k & Bk & ->).
    destruct (hundredth_unit k Bk) as (v & Ev & Bv).
    exists k, v. split; [exact Bk|]. split; [|split; assumption].
    now apply (eqb_refl_finite _ v).
Qed.

Lemma calculateTES_range_witness :
  finiteNumeral 40 /\ finiteNumeral 23 /\ finiteNumeral 0.9 /\ finiteNumeral 0.2
  /\ exists k v,
       (0 <= k <= 100)%Z
       /\ eqb (calculateTES {| totalElements := 40; essentialElements := 23;
                               clarityScore := 0.9; anxietyInduced := 0.2 |})
              (hundredth k) = true
       /\ hundredth k = finite v /\ 0 <= v <= 1.
Proof.
  assert (F1 : finiteNumeral 40) by (vm_compute; reflexivity).
  assert (F2 : finiteNumeral 23) by (vm_compute; reflexivity).
  assert (F3 : finiteNumeral 0.9) by (vm_compute; reflexivity).
  assert (F4 : finiteNumeral 0.2) by (vm_compute; reflexivity).
  split; [exact F1|]. split; [exact F2|]. split; [exact F3|]. split; [exact F4|].
  exact (calculateTES_range
           {| totalElements := 40; essentialElements := 23;
              clarityScore := 0.9; anxietyInduced := 0.2 |} F1 F2 F3 F4).
Defined.


Lemma length_nonneg {A} (l : list A) : 0 <= inject_Z (Z.of_nat (List.length l)).
Proof. change 0 with (inject_Z 0). rewrite <- Zle_Qle. lia. Qed.

(** X16. [calculatePAI] is 1.0 when there is no action element;
    otherwise, when no more elements are aligned than there are
    action elements, it is one of the 101 hundredths 0, 0.01, ..., 1,
    a number between 0 and 1. *)
Theorem calculatePAI_range (p : PAIParams) :
  (actionElements p = [] -> calculatePAI p = finite 1.0)
  /\ (actionElements p <> [] ->
      (List.length (alignedElements p) <= List.length (actionElements p))%nat ->
      exists k v,
        (0 <= k <= 100)%Z /\ calculatePAI p = hundredth k
        /\ hundredth k = finite v /\ 0 <= v <= 1).
Proof.
  unfold calculatePAI. split.
  - intros ->. reflexivity.
  - intros N L. destruct (actionElements p) as [|x l] eqn:E; [congruence|].
    cbn [List.length Nat.eqb]. cbv zeta. unfold length.
    set (n := inject_Z (Z.of_nat (List.length (x :: l)))).
    set (a := inject_Z (Z.of_nat (List.length (alignedElements p)))).
    assert (Pn : 1 <= n).
    { subst n. change 1 with (inject_Z 1). rewrite <- Zle_Qle.
      cbn [List.length]. lia. }
    assert (Pa : 0 <= a <= n).
    { subst a n. split; [apply length_nonneg|]. rewrite <- Zle_Qle. lia. }
    clearbody n a. cbn [divide].
    assert (Z0 : Qeq_bool n 0 = false) by (apply Qeq_bool_false; lra).
    rewrite Z0.
    destruct (round_unit (a / n)) as (w & -> & Bw).
    { split.
      - apply Qle_shift_div_l; lra.
      - apply Qle_shift_div_r; lra. }
    destruct (hundredths w Bw) as (k & Bk & ->).
    destruct (hundredth_unit k Bk) as (v & Ev & Bv).
    now exists k, v.
Qed.

Lemma calculatePAI_range_witness :
  let p := {| statedPurpose := "focus"; actionElements := ["a"; "b"; "c"]%string;
              alignedElements := ["a"; "c"]%string |} in
  actionElements p <> []
  /\ (List.length (alignedElements p) <= List.length (actionElements p))%nat
  /\ exists k v,
       (0 <= k <= 100)%Z /\ calculatePAI p = hundredth k
       /\ hundredth k = finite v /\ 0 <= v <= 1.
Proof.
  cbv zeta.
  assert (N : actionElements
                {| statedPurpose := "focus"; actionElements := ["a"; "b"; "c"]%string;
                   alignedElements := ["a"; "c"]%string |} <> []) by discriminate.
  assert (L : (List.length (alignedElements
                {| statedPurpose := "focus"; actionElements := ["a"; "b"; "c"]%string;
                   alignedElements := ["a"; "c"]%string |})
               <= List.length (actionElements
                {| statedPurpose := "focus"; actionElements := ["a"; "b"; "c"]%string;
                   alignedElements := ["a"; "c"]%string |}))%nat) by (cbn; lia).
  split; [exact N|]. split; [exact L|].
  exact (proj2 (calculatePAI_range _) N L).
Defined.

(** ** The sovereignty score *)

Lemma ofQ_unit q : 0 <= q <= 1 -> exists v, ofQ q = finite v /\ 0 <= v <= 1.
Proof. apply round_unit. Qed.

Lemma ofQ_mono_unit q q' v v' :
  q <= q' -> ofQ q = finite v -> ofQ q' = finite v' -> v <= v'.
Proof.
  intros L E E'. pose proof (round_mono _ _ L) as M. unfold ofQ in *.
  rewrite E, E' in M. exact M.
Qed.

Lemma round_mono_finite x y v w :
  x <= y -> round x = finite v -> round y = finite w -> v <= w.
Proof.
  intros L E E'. pose proof (round_mono _ _ L) as M.
  rewrite E, E' in M. exact M.
Qed.

(** X17. For a drift, a coherence and an alignment between 0 and 1,
    the sovereignty score is a finite number between 0 and 1: the two
    roundings of the products and the one of the difference never
    leave the interval. *)
Theorem calculateSovereigntyScore_unit (drift coherence alignment : Q) :
  0 <= drift <= 1 -> 0 <= coherence <= 1 -> 0 <= alignment <= 1 ->
  exists v,
    calculateSovereigntyScore drift coherence alignment = finite v
    /\ 0 <= v <= 1.
Proof.
  intros Bd Bc Ba. unfold calculateSovereigntyScore. cbv zeta.
  destruct (ofQ_unit _ Bd) as (d & -> & Vd).
  destruct (ofQ_unit _ Bc) as (c & -> & Vc).
  destruct (ofQ_unit _ Ba) as (a & -> & Va).
  unfold minus. cbn [opp plus].
  destruct (round_unit (1 + - d)) as (m & -> & Vm); [lra|].
  cbn [times].
  destruct (round_unit (m * c)) as (t & -> & Vt); [nra|].
  cbn [times].
  destruct (round_unit (t * a)) as (v & -> & Vv); [nra|].
  now exists v.
Qed.

Lemma calculateSovereigntyScore_unit_witness :
  exists v, calculateSovereigntyScore 0.1 0.9 0.7 = finite v /\ 0 <= v <= 1.
Proof.
  apply calculateSovereigntyScore_unit; lra.
Defined.

(** X18. Between 0 and 1, the sovereignty score never rises with
    the drift and never falls with the coherence or the alignment,
    roundings included. *)
Theorem calculateSovereigntyScore_monotone (d d' c c' a a' : Q) :
  0 <= d <= d' -> d' <= 1 -> 0 <= c <= c' -> c' <= 1 ->
  0 <= a <= a' -> a' <= 1 ->
  leb (calculateSovereigntyScore d' c a) (calculateSovereigntyScore d c' a')
  = true.
Proof.
  intros Bd Bd' Bc Bc' Ba Ba'. unfold calculateSovereigntyScore. cbv zeta.
  destruct (ofQ_unit d ltac:(lra)) as (x & Ex & Vx).
  destruct (ofQ_unit d' ltac:(lra)) as (x' & Ex' & Vx').
  destruct (ofQ_unit c ltac:(lra)) as (y & Ey & Vy).
  destruct (ofQ_unit c' ltac:(lra)) as (y' & Ey' & Vy').
  destruct (ofQ_unit a ltac:(lra)) as (z & Ez & Vz).
  destruct (ofQ_unit a' ltac:(lra)) as (z' & Ez' & Vz').
  pose proof (ofQ_mono_unit d d' x x' ltac:(lra) Ex Ex') as Lx.
  pose proof (ofQ_mono_unit c c' y y' ltac:(lra) Ey Ey') as Ly.
  pose proof (ofQ_mono_unit a a' z z' ltac:(lra) Ez Ez') as Lz.
  rewrite Ex, Ex', Ey, Ey', Ez, Ez'. unfold minus. cbn [opp plus].
  destruct (round_unit (1 + - x)) as (m & Em & Vm); [lra|].
  destruct (round_unit (1 + - x')) as (m' & Em' & Vm'); [lra|].
  pose proof (round_mono_finite (1 + - x') (1 + - x) m' m ltac:(lra) Em' Em) as Lm.
  rewrite Em, Em'. cbn [times].
  destruct (round_unit (m * y')) as (t & Et & Vt); [nra|].
  destruct (round_unit (m' * y)) as (t' & Et' & Vt'); [nra|].
  pose proof (round_mono_finite (m' * y) (m * y') t' t ltac:(nra) Et' Et) as Lt.
  rewrite Et, Et'. cbn [times].
  destruct (round_unit (t * z')) as (v & Ev & Vv); [nra|].
  destruct (round_unit (t' * z)) as (v' & Ev' & Vv'); [nra|].
  pose proof (round_mono_finite (t' * z) (t * z') v' v ltac:(nra) Ev' Ev) as Lv.
  rewrite Ev, Ev'. cbn [leb]. now apply Qle_bool_iff.
Qed.

Lemma calculateSovereigntyScore_monotone_witness :
  leb (calculateSovereigntyScore 0.4 0.5 0.6) (calculateSovereigntyScore 0.1 0.9 0.7)
  = true.
Proof.
  apply calculateSovereigntyScore_monotone; lra.
Defined.


(** ** The compression score *)

Lemma leb_top a : a <> NaN -> leb a (infinity false) = true.
Proof. destruct a as [x|[|]|]; [reflexivity..|congruence]. Qed.

Lemma leb_bottom a : a <> NaN -> leb (infinity true) a = true.
Proof. destruct a as [x|[|]|]; [reflexivity..|congruence]. Qed.

Lemma round_not_NaN q : round q <> NaN.
Proof. pose proof (round_ordinary q) as O. intro E. rewrite E in O. exact O. Qed.

Lemma round_leb x y : x <= y -> leb (round x) (round y) = true.
Proof.
  intros L. rewrite leb_place by apply round_ordinary.
  apply Qle_bool_iff. now apply round_mono.
Qed.

(** An operation that rounds a monotone function of a finite number
    and keeps the infinities keeps the order. *)
Lemma lift_mono (f : number -> number) (g : Q -> Q) :
  (forall x, f (finite x) = round (g x)) ->
  (forall s, f (infinity s) = infinity s) ->
  (forall x y, x <= y -> g x <= g y) ->
  forall a b, leb a b = true -> leb (f a) (f b) = true.
Proof.
  intros Ff Fi M [x|s|] [y|s'|]; cbn [leb]; try discriminate; intros L;
    rewrite ?Ff, ?Fi.
  - apply round_leb, M. now apply Qle_bool_iff.
  - destruct s'; [discriminate|]. apply leb_top, round_not_NaN.
  - subst s. apply leb_bottom, round_not_NaN.
  - exact L.
Qed.

Lemma negative_pos k : 0 < k -> negative k = false.
Proof. intros H. apply negative_false. lra. Qed.

Lemma scale_mono k a b :
  0 < k -> leb a b = true ->
  leb (times a (finite k)) (times b (finite k)) = true.
Proof.
  intros K. apply (lift_mono (fun a => times a (finite k)) (fun x => x * k)).
  - reflexivity.
  - intros s. cbn [times].
    assert (Z0 : Qeq_bool k 0 = false) by (apply Qeq_bool_false; lra).
    rewrite Z0, negative_pos by exact K. now destruct s.
  - intros x y L. nra.
Qed.

Lemma divide_mono k a b :
  0 < k -> leb a b = true ->
  leb (divide a (finite k)) (divide b (finite k)) = true.
Proof.
  intros K. apply (lift_mono (fun a => divide a (finite k)) (fun x => x / k)).
  - intros x. cbn [divide].
    assert (Z0 : Qeq_bool k 0 = false) by (apply Qeq_bool_false; lra).
    now rewrite Z0.
  - intros s. cbn [divide]. rewrite negative_pos by exact K. now destruct s.
  - intros x y L. unfold Qdiv. apply Qmult_le_compat_r; [exact L|].
    apply Qlt_le_weak, Qinv_lt_0_compat, K.
Qed.

Lemma Math_round_mono a b :
  leb a b = true -> leb (Math_round a) (Math_round b) = true.
Proof.
  destruct a as [x|s|], b as [y|s'|]; cbn [Math_round leb]; try discriminate;
    try (intros L; exact L).
  intros L. apply Qle_bool_iff in L. apply Qle_bool_iff.
  rewrite <- Zle_Qle. apply Qfloor_resp_le. lra.
Qed.

Lemma ltb_leb_trans c a b :
  ltb (finite c) a = true -> leb a b = true -> ltb (finite c) b = true.
Proof.
  destruct a as [x|s|], b as [y|s'|]; cbn [ltb leb]; try discriminate.
  - intros H L. apply negb_true_iff, Qle_bool_false in H.
    apply Qle_bool_iff in L. apply negb_true_iff, Qle_bool_false. lra.
  - intros _ L. exact L.
  - intros H L. destruct s; [discriminate|]. discriminate.
  - intros H L. destruct s, s'; try discriminate; reflexivity.
Qed.

(** X19. With the same finite entropy, more evidence and more
    explanatory power (both non-negative) never lower the layer, and
    never lower the score: the order Edge, Theory, Foundation follows
    the two factors, roundings and overflow included. *)
Theorem calculateCompressionScore_monotone (e e' p p' s : Q) :
  finiteNumeral e' -> finiteNumeral p' -> finiteNumeral s ->
  0 <= e <= e' -> 0 <= p <= p' ->
  let r := calculateCompressionScore e p s in
  let r' := calculateCompressionScore e' p' s in
  (layerRank (layer r) <= layerRank (layer r'))%nat
  /\ leb (score r) (score r') = true.
Proof.
  intros Fe Fp Fs Be Bp.
  destruct (ofQ_finite _ Fe) as (x' & Ex' & Bx').
  destruct (ofQ_finite _ Fp) as (y' & Ey' & By').
  destruct (ofQ_finite _ Fs) as (z & Ez & Bz).
  assert (Hx : exists x, ofQ e = finite x /\ 0 <= x <= x').
  { destruct (round_between 0 e' e) as (x & E & V).
    - lra.
    - rewrite round_0. pose proof big_bounds. lra.
    - unfold ofQ in Ex'. rewrite Ex'. cbn [place]. lra.
    - exists x. split; [exact E|]. rewrite round_0 in V.
      unfold ofQ in Ex'. rewrite Ex' in V. exact V. }
  assert (Hy : exists y, ofQ p = finite y /\ 0 <= y <= y').
  { destruct (round_between 0 p' p) as (y & E & V).
    - lra.
    - rewrite round_0. pose proof big_bounds. lra.
    - unfold ofQ in Ey'. rewrite Ey'. cbn [place]. lra.
    - exists y. split; [exact E|]. rewrite round_0 in V.
      unfold ofQ in Ey'. rewrite Ey' in V. exact V. }
  destruct Hx as (x & Ex & Vx). destruct Hy as (y & Ey & Vy).
  unfold calculateCompressionScore. cbv zeta. cbn [layer score].
  rewrite Ex, Ex', Ey, Ey', Ez.
  set (c12 := ofQ 1.2). set (c05 := ofQ 0.5).
  assert (E12 : exists v, c12 = finite v) by (eexists; vm_compute; reflexivity).
  assert (E05 : exists v, c05 = finite v /\ leb c05 c12 = true).
  { eexists. split; vm_compute; reflexivity. }
  clearbody c12 c05.
  destruct E12 as (v12 & ->). destruct E05 as (v05 & -> & L05).
  assert (T : leb (times (finite x) (finite y)) (times (finite x') (finite y'))
              = true).
  { cbn [times]. apply round_leb. nra. }
  set (t := times (finite x) (finite y)) in *.
  set (t' := times (finite x') (finite y')) in *.
  clearbody t t'.
  assert (P : leb (if ltb (finite 0) (finite z) then divide t (finite z)
                   else times t (finite 10))
                  (if ltb (finite 0) (finite z) then divide t' (finite z)
                   else times t' (finite 10)) = true).
  { destruct (ltb (finite 0) (finite z)) eqn:Z0.
    - cbn [ltb] in Z0. apply negb_true_iff, Qle_bool_false in Z0.
      now apply divide_mono.
    - apply scale_mono; [reflexivity|exact T]. }
  set (Pi := if ltb (finite 0) (finite z) then divide t (finite z)
             else times t (finite 10)) in *.
  set (Pi' := if ltb (finite 0) (finite z) then divide t' (finite z)
              else times t' (finite 10)) in *.
  clearbody Pi Pi'. split.
  - destruct (ltb (finite v12) Pi) eqn:A.
    + rewrite (ltb_leb_trans _ _ _ A P). cbn. lia.
    + destruct (ltb (finite v05) Pi) eqn:B.
      * destruct (ltb (finite v12) Pi'); [cbn; lia|].
        rewrite (ltb_leb_trans _ _ _ B P). cbn. lia.
      * cbn. lia.
  - apply divide_mono; [reflexivity|]. apply Math_round_mono.
    apply scale_mono; [reflexivity|exact P].
Qed.

Lemma calculateCompressionScore_monotone_witness :
  finiteNumeral 0.9 /\ finiteNumeral 0.8 /\ finiteNumeral 0.5
  /\ (layerRank (layer (calculateCompressionScore 0.5 0.6 0.5))
      <= layerRank (layer (calculateCompressionScore 0.9 0.8 0.5)))%nat
  /\ leb (score (calculateCompressionScore 0.5 0.6 0.5))
         (score (calculateCompressionScore 0.9 0.8 0.5)) = true.
Proof.
  assert (F1 : finiteNumeral 0.9) by (vm_compute; reflexivity).
  assert (F2 : finiteNumeral 0.8) by (vm_compute; reflexivity).
  assert (F3 : finiteNumeral 0.5) by (vm_compute; reflexivity).
  split; [exact F1|]. split; [exact F2|]. split; [exact F3|].
  apply (calculateCompressionScore_monotone 0.5 0.9 0.6 0.8 0.5 F1 F2 F3); lra.
Defined.

End CalcSpec.

(** ** Doubles are fixed points of the rounding *)

Module Doubles.
Import Double Spec DoubleFacts Rounding.
Local Open Scope Q_scope.

Lemma pow2_lt_inv x y : 2 ^ x < 2 ^ y -> (x < y)%Z.
Proof.
  intros H. destruct (Z_lt_le_dec x y) as [L|L]; [exact L|].
  pose proof (pow2_le y x L). lra.
Qed.

Lemma exponent_unique a k : 2 ^ k <= a -> a < 2 ^ (k + 1) -> exponent a = k.
Proof.
  intros L U. pose proof (pow2_pos k) as P.
  assert (Pa : 0 < a) by lra.
  pose proof (exponent_le a Pa) as L'. pose proof (exponent_lt a Pa) as U'.
  assert (A : (exponent a < k + 1)%Z) by (apply pow2_lt_inv; lra).
  assert (B : (k < exponent a + 1)%Z) by (apply pow2_lt_inv; lra).
  lia.
Qed.

Lemma pow2_split a b : 2 ^ (a + b) == 2 ^ a * 2 ^ b.
Proof. apply Qpower_plus. discriminate. Qed.

Lemma pow2_Z k : (0 <= k)%Z -> inject_Z (2 ^ k) == 2 ^ k.
Proof. intros H. rewrite Zpower_Qpower by exact H. reflexivity. Qed.

(** A number [n * 2^e] with [n] of at most 53 bits and [e] not below
    the least exponent is its own rounding. *)
Lemma magnitude_double n e :
  (0 < n <= 2 ^ 53)%Z -> (-1074 <= e)%Z ->
  magnitude (inject_Z n * 2 ^ e) == inject_Z n * 2 ^ e.
Proof.
  intros [Pn Un] Le.
  pose proof (pow2_pos e) as Pe.
  assert (Qn : 0 < inject_Z n) by (change 0 with (inject_Z 0); now rewrite <- Zlt_Qlt).
  assert (Pv : 0 < inject_Z n * 2 ^ e) by now apply Qmult_lt_0_compat.
  unfold magnitude. cbv zeta.
  set (a := Qabs (inject_Z n * 2 ^ e)).
  assert (Ea : a == inject_Z n * 2 ^ e) by (subst a; apply Qabs_pos; lra).
  set (k := Z.log2 n).
  destruct (Z.log2_spec n Pn) as [Lk Uk]. fold k in Lk, Uk.
  assert (K0 : (0 <= k)%Z) by apply Z.log2_nonneg.
  assert (K53 : (k <= 53)%Z).
  { destruct (Z_le_gt_dec k 53) as [H|H]; [exact H|]. exfalso.
    assert ((2 ^ 54 <= 2 ^ k)%Z) by (apply Z.pow_le_mono_r; lia).
    assert ((2 ^ 53 < 2 ^ 54)%Z) by (apply Z.pow_lt_mono_r; lia). lia. }
  assert (Ex : exponent a = (k + e)%Z).
  { apply exponent_unique; rewrite Ea.
    - rewrite pow2_split. apply Qmult_le_compat_r; [|lra].
      rewrite <- pow2_Z by exact K0. now rewrite <- Zle_Qle.
    - replace (k + e + 1)%Z with ((k + 1) + e)%Z by lia.
      rewrite pow2_split. apply Qmult_lt_compat_r; [exact Pe|].
      rewrite <- pow2_Z by lia. now rewrite <- Zlt_Qlt. }
  rewrite Ex. set (ev := Z.max (k + e - 52) (-1074)).
  pose proof (pow2_pos ev) as Pev.
  destruct (Z.eq_dec k 53) as [E53|N53].
  - (* n = 2^53 *)
    assert (En : n = (2 ^ 53)%Z).
    { rewrite E53 in Lk. lia. }
    assert (Eev : ev = (e + 1)%Z) by (subst ev; lia).
    assert (Q : a / 2 ^ ev == inject_Z (2 ^ 52)).
    { rewrite Ea, Eev, En, pow2_split.
      rewrite !pow2_Z by lia. change (2 ^ 53) with (2 ^ 52 * 2 ^ 1).
      field. lra. }
    rewrite (nearestEven_comp _ _ Q), nearestEven_Z.
    rewrite Eev, En, pow2_split, !pow2_Z by lia.
    change (2 ^ 53) with (2 ^ 52 * 2 ^ 1). ring.
  - set (d := (e - ev)%Z).
    assert (D : (0 <= d)%Z) by (subst d ev; lia).
    assert (Ee : 2 ^ e == 2 ^ d * 2 ^ ev).
    { rewrite <- pow2_split. replace (d + ev)%Z with e by (subst d; lia).
      reflexivity. }
    assert (Q : a / 2 ^ ev == inject_Z (n * 2 ^ d)).
    { rewrite Ea, Ee, inject_Z_mult, pow2_Z by exact D.
      field. lra. }
    rewrite (nearestEven_comp _ _ Q), nearestEven_Z.
    rewrite Ee, inject_Z_mult, pow2_Z by exact D. ring.
Qed.

(** The rounded magnitude of a number is of this form. *)
Lemma magnitude_form q :
  ~ q == 0 ->
  exists n e, (0 <= n <= 2 ^ 53)%Z /\ (-1074 <= e)%Z
              /\ magnitude q = inject_Z n * 2 ^ e.
Proof.
  intros N. unfold magnitude. cbv zeta.
  set (a := Qabs q). set (e := Z.max (exponent a - 52) (-1074)).
  assert (Pa : 0 < a).
  { subst a. apply Qabs_case; intro H.
    - apply Qle_lteq in H as [H|H]; [exact H|]. exfalso. apply N. now symmetry.
    - apply Qle_lteq in H as [H|H]; [lra|]. exfalso. now apply N. }
  pose proof (pow2_pos e) as Pe.
  exists (nearestEven (a / 2 ^ e)), e. split; [|split; [subst e; lia|reflexivity]].
  split.
  - etransitivity; [|apply nearestEven_ge]. apply Qfloor_ge0.
    apply Qle_shift_div_l; [exact Pe|]. lra.
  - rewrite <- (nearestEven_Z (2 ^ 53)). apply nearestEven_mono.
    rewrite pow2_Z by lia.
    apply Qle_shift_div_r; [exact Pe|].
    rewrite <- pow2_split.
    apply Qlt_le_weak, Qlt_le_trans with (2 ^ (exponent a + 1));
      [now apply exponent_lt|apply pow2_le; subst e; lia].
Qed.

Lemma magnitude_compat x y : Qabs x == Qabs y -> magnitude x == magnitude y.
Proof.
  intros E. apply Qle_antisym; apply magnitude_mono; rewrite E; apply Qle_refl.
Qed.

(** Rounding twice is rounding once. *)
Lemma magnitude_idem q : magnitude (magnitude q) == magnitude q.
Proof.
  destruct (Qeq_dec q 0) as [Z0|N].
  { pose proof (magnitude_zero q Z0) as M. rewrite (magnitude_zero _ M).
    now symmetry. }
  destruct (magnitude_form q N) as (n & e & Bn & Be & ->).
  destruct (Z.eq_dec n 0) as [->|Nn].
  - assert (Z0 : inject_Z 0 * 2 ^ e == 0) by ring.
    rewrite (magnitude_zero _ Z0). now symmetry.
  - apply magnitude_double; lia.
Qed.

(** A number that a rounding gave is a double: it rounds to itself. *)
Lemma round_fixed q w : round q = finite w -> place (round w) == w.
Proof.
  rewrite round_unfold.
  destruct (Qeq_bool q 0) eqn:Z0.
  { intros [= <-]. reflexivity. }
  destruct (Qle_bool (2 ^ 1024) (magnitude q)) eqn:B; [discriminate|].
  intros [= <-]. apply Qle_bool_false in B.
  pose proof (magnitude_nonneg q) as M0.
  set (m := magnitude q) in *.
  set (w := Qred (if negative q then - m else m)).
  assert (Ew : w == (if negative q then - m else m)) by apply Qred_correct.
  rewrite place_round.
  assert (Aw : Qabs w == Qabs m).
  { rewrite Ew. destruct (negative q); [apply Qabs_opp|reflexivity]. }
  pose proof (magnitude_compat _ _ Aw) as Mw.
  pose proof (magnitude_idem q) as I. fold m in I. rewrite I in Mw.
  assert (F : Qle_bool (2 ^ 1024) (magnitude w) = false).
  { apply Qle_bool_false. rewrite Mw. exact B. }
  rewrite F, Mw.
  transitivity (if negative q then - m else m); [|now symmetry].
  destruct (Qeq_dec m 0) as [Zm|Nm].
  - destruct (negative w), (negative q); lra.
  - assert (Pm : 0 < m).
    { apply Qle_lteq in M0 as [H|H]; [exact H|]. exfalso. apply Nm. now symmetry. }
    destruct (negative q) eqn:S.
    + assert (Sw : negative w = true) by (apply negative_spec; lra).
      rewrite Sw. lra.
    + assert (Sw : negative w = false) by (apply negative_false; lra).
      rewrite Sw. lra.
Qed.

(** What lies at or below a double rounds to at most that double, and
    what lies at or above it to at least that double. *)
Lemma round_below q w x : round q = finite w -> x <= w -> place (round x) <= w.
Proof.
  intros E L. rewrite <- (round_fixed q w E). now apply round_mono.
Qed.

Lemma round_above q w x : round q = finite w -> w <= x -> w <= place (round x).
Proof.
  intros E L. rewrite <- (round_fixed q w E). now apply round_mono.
Qed.

End Doubles.

(** ** Earned light *)

Module GovernanceSpec.
Import Double Spec DoubleFacts DoubleOrder Rounding Doubles Aura AuraCalc CalcVocab CalcSpec.
Local Open Scope Q_scope.

Lemma round_2 : place (round 2) == 2.
Proof. apply Qeq_bool_iff. vm_compute. reflexivity. Qed.

(** [Math.round(x * 100) / 100] keeps the order of two numbers of
    [0, 1]. *)
Lemma hundredths_mono x y :
  0 <= x -> x <= y -> y <= 1 ->
  exists k l, (0 <= k <= l)%Z /\ (l <= 100)%Z
    /\ divide (Math_round (times (finite x) (finite 100))) (finite 100) = hundredth k
    /\ divide (Math_round (times (finite y) (finite 100))) (finite 100) = hundredth l.
Proof.
  intros X0 XY Y1. pose proof big_bounds as (B0 & _ & B100).
  cbn [times].
  assert (G0 : - 2 ^ 1024 < place (round 0)) by (rewrite round_0; exact B0).
  assert (G1 : place (round 100) < 2 ^ 1024) by (rewrite round_100; exact B100).
  destruct (round_between 0 100 (x * 100) ltac:(lra) G0 G1) as (u & Eu & U).
  destruct (round_between 0 100 (y * 100) ltac:(lra) G0 G1) as (v & Ev & V).
  pose proof (round_mono_finite (x * 100) (y * 100) u v ltac:(lra) Eu Ev) as UV.
  rewrite Eu, Ev. rewrite round_0, round_100 in U, V. cbn [Math_round].
  exists (Qfloor (u + (1 # 2))), (Qfloor (v + (1 # 2))).
  split; [split|split].
  - apply Qfloor_ge0; lra.
  - apply Qfloor_resp_le. lra.
  - change 100%Z with (Qfloor (100 + (1 # 2))). apply Qfloor_resp_le. lra.
  - split; reflexivity.
Qed.

(** A ratio of successes: between 0 and 1, and a double. *)
Lemma reliability (a : Actions) :
  counted a ->
  exists q v,
    (if ltb (finite 0) (ofQ (total a))
     then divide (ofQ (succeeded a)) (ofQ (total a)) else ofQ 0.5) = finite v
    /\ round q = finite v /\ 0 <= v <= 1.
Proof.
  intros (Ft & Bs).
  destruct (ofQ_finite _ Ft) as (t & Et & Bt).
  assert (Hs : exists s, ofQ (succeeded a) = finite s /\ 0 <= s <= t).
  { destruct (round_between 0 (total a) (succeeded a)) as (s & E & V).
    - exact Bs.
    - rewrite round_0. pose proof big_bounds. lra.
    - unfold ofQ in Et. rewrite Et. cbn [place]. lra.
    - exists s. split; [exact E|]. rewrite round_0 in V.
      unfold ofQ in Et. rewrite Et in V. exact V. }
  destruct Hs as (s & Es & Vs). rewrite Es, Et. cbn [ltb].
  destruct (Qle_bool t 0) eqn:Z0; cbn [negb].
  - exists 0.5, (1 # 2). split; [vm_compute; reflexivity|].
    split; [vm_compute; reflexivity|lra].
  - apply Qle_bool_false in Z0. cbn [divide].
    assert (N : Qeq_bool t 0 = false) by (apply Qeq_bool_false; lra).
    rewrite N.
    destruct (round_unit (s / t)) as (v & E & V).
    { split; [apply Qle_shift_div_l; lra|apply Qle_shift_div_r; lra]. }
    exists (s / t), v. now rewrite E.
Qed.

Lemma max0_below a el :
  a <> NaN -> 0 <= el -> leb a (finite el) = true ->
  exists g, Math_max (finite 0) a = finite g /\ 0 <= g <= el.
Proof.
  intros N E L. destruct a as [v|s|]; [| |congruence]; cbn [leb] in L.
  - apply Qle_bool_iff in L. unfold Math_max. cbn [leb].
    destruct (Qle_bool 0 v) eqn:C.
    + apply Qle_bool_iff in C. exists v. split; [reflexivity|lra].
    + exists 0. split; [reflexivity|lra].
  - subst s. exists 0. split; [reflexivity|lra].
Qed.

Lemma min_below m x :
  x <> NaN -> Math_min (finite m) x <> NaN /\ leb (Math_min (finite m) x) (finite m) = true.
Proof.
  intros N. destruct x as [v|s|]; [| |congruence]; unfold Math_min; cbn [leb].
  - destruct (Qle_bool m v) eqn:C.
    + split; [discriminate|]. cbn [leb]. apply Qle_bool_iff. lra.
    + apply Qle_bool_false in C. split; [discriminate|].
      cbn [leb]. apply Qle_bool_iff. lra.
  - destruct s; cbn [negb]; (split; [discriminate|]); cbn [leb].
    + reflexivity.
    + apply Qle_bool_iff. lra.
Qed.

Lemma times_not_NaN c a : ~ c == 0 -> a <> NaN -> times (finite c) a <> NaN.
Proof.
  intros C N. destruct a as [v|s|]; [| |congruence]; cbn [times].
  - apply round_not_NaN.
  - apply Qeq_bool_false in C. rewrite C. discriminate.
Qed.

Lemma opp_not_NaN a : a <> NaN -> opp a <> NaN.
Proof. destruct a; cbn; congruence. Qed.

Lemma round_leb_fixed q w x :
  round q = finite w -> x <= w -> leb (round x) (finite w) = true.
Proof.
  intros E L. pose proof (round_below q w x E L) as B.
  pose proof (round_ordinary x) as O.
  destruct (round x) as [v|s|]; [| |contradiction]; cbn [place leb] in *.
  - now apply Qle_bool_iff.
  - destruct s; [reflexivity|]. exfalso.
    pose proof (round_ordinary q) as Oq. rewrite E in Oq. cbn in Oq. lra.
Qed.

(** X20. For counts of actions that make sense (no more successes
    than actions, none negative), a finite influence and consent and a
    buffer tau that is not negative, every field of the result is one of
    the hundredths 0, 0.01, ..., 1, and the governance capacity never
    exceeds the earned light: G <= EL - tau survives the roundings. *)
Theorem calculateEarnedLight_governance (p : EarnedLightParams) :
  counted (recentActions p) -> counted (historicalActions p) ->
  finiteNumeral (influence p) -> finiteNumeral (consent p) -> buffer (tau p) ->
  let r := calculateEarnedLight p in
  exists s l k g,
    (0 <= s <= 100 /\ 0 <= l <= 100 /\ 0 <= g <= k /\ k <= 100)%Z
    /\ shortTermReliability r = hundredth s
    /\ longTermReliability r = hundredth l
    /\ earnedLight r = hundredth k
    /\ governanceCapacity r = hundredth g.
Proof.
  intros Cr Ch Fi Fc Bt. cbv zeta.
  unfold calculateEarnedLight. cbv zeta.
  cbn [shortTermReliability longTermReliability earnedLight governanceCapacity].
  destruct (reliability _ Cr) as (qs & srs & -> & _ & Vs).
  destruct (reliability _ Ch) as (ql & lrs & -> & _ & Vl).
  destruct (ofQ_finite _ Fi) as (i & Ei & Bi).
  pose proof (round_fixed _ _ Ei) as Ri. rewrite Ei.
  destruct (ofQ_finite _ Fc) as (c & -> & Bc).
  assert (Ht : exists t, ofQ (match tau p with Some t => t | None => 0.1 end)
                         = finite t /\ 0 <= t).
  { destruct (tau p) as [t|]; cbn [buffer] in Bt.
    - destruct Bt as (Ft & T0). destruct (ofQ_finite _ Ft) as (t' & E & _).
      exists t'. split; [exact E|].
      pose proof (round_mono 0 t T0) as M. unfold ofQ in E.
      rewrite E, round_0 in M. exact M.
    - eexists. split; [vm_compute; reflexivity|]. vm_compute. discriminate. }
  destruct Ht as (t & -> & T0).
  (* the earned light *)
  cbn [plus].
  pose proof big_bounds as (B0 & B1 & B100).
  destruct (round_between 0 2 (srs + lrs)) as (sum & Esum & Vsum).
  { lra. } { rewrite round_0. exact B0. } { rewrite round_2. lra. }
  rewrite round_0, round_2 in Vsum. rewrite Esum.
  assert (E2 : divide (finite sum) (finite 2) = round (sum / 2)) by reflexivity.
  rewrite E2. clear E2.
  destruct (round_unit (sum / 2)) as (el & Eel & Vel).
  { split; [apply Qle_shift_div_l; lra|apply Qle_shift_div_r; lra]. }
  rewrite Eel.
  (* the governance capacity *)
  unfold minus at 1. cbn [opp plus].
  pose proof (round_leb_fixed (sum / 2) el (el + - t) Eel ltac:(lra)) as Lmg.
  destruct (max0_below _ el (round_not_NaN _) ltac:(lra) Lmg) as (mg & -> & Vmg).
  set (theta := ofQ 0.8). set (eta := ofQ 1.0).
  assert (Eth : exists th, theta = finite th /\ ~ th == 0).
  { eexists. split; [vm_compute; reflexivity|]. vm_compute. discriminate. }
  assert (Eeta : exists e, eta = finite e /\ e == 1).
  { eexists. split; [vm_compute; reflexivity|reflexivity]. }
  clearbody theta eta.
  destruct Eth as (th & -> & Nth). destruct Eeta as (e1 & -> & E1).
  set (x := minus (times (finite e1) (finite i))
                  (times (finite th) (minus (finite 1) (finite c)))).
  assert (Nx : x <> NaN).
  { subst x. unfold minus at 1.
    assert (A : exists a, times (finite e1) (finite i) = finite a).
    { cbn [times].
      assert (Q : e1 * i == i) by (rewrite E1; ring).
      pose proof (round_compat _ _ Q) as P. rewrite Ri in P.
      pose proof (round_ordinary (e1 * i)) as O.
      destruct (round (e1 * i)) as [a|sa|]; [now exists a| |contradiction].
      exfalso. cbn [place] in P. destruct sa; lra. }
    destruct A as (a & ->).
    assert (Nb : opp (times (finite th) (minus (finite 1) (finite c))) <> NaN).
    { apply opp_not_NaN, times_not_NaN; [exact Nth|].
      unfold minus. cbn [opp plus]. apply round_not_NaN. }
    destruct (opp _) as [vb|sb|]; [| |congruence]; cbn [plus].
    - apply round_not_NaN.
    - discriminate. }
  clearbody x.
  destruct (min_below mg x Nx) as (Ng & Lg).
  assert (Lg' : leb (Math_min (finite mg) x) (finite el) = true).
  { apply (leb_trans _ _ _ Lg). cbn [leb]. apply Qle_bool_iff. lra. }
  destruct (max0_below _ el Ng ltac:(lra) Lg') as (g & -> & Vg).
  destruct (hundredths srs Vs) as (ks & Bs & ->).
  destruct (hundredths lrs Vl) as (kl & Bl & ->).
  destruct (hundredths_mono g el ltac:(lra) ltac:(lra) ltac:(lra))
    as (kg & kel & Bg & Bel & -> & ->).
  exists ks, kl, kel, kg. repeat split; try lia.
Qed.

Lemma calculateEarnedLight_governance_witness :
  let p := {| recentActions := {| succeeded := 9; total := 10 |};
              historicalActions := {| succeeded := 70; total := 100 |};
              influence := 0.9; consent := 0.6; tau := None |} in
  exists s l k g,
    (0 <= s <= 100 /\ 0 <= l <= 100 /\ 0 <= g <= k /\ k <= 100)%Z
    /\ shortTermReliability (calculateEarnedLight p) = hundredth s
    /\ longTermReliability (calculateEarnedLight p) = hundredth l
    /\ earnedLight (calculateEarnedLight p) = hundredth k
    /\ governanceCapacity (calculateEarnedLight p) = hundredth g.
Proof.
  cbv zeta. apply calculateEarnedLight_governance.
  - split; [vm_compute; reflexivity|split; vm_compute; discriminate].
  - split; [vm_compute; reflexivity|split; vm_compute; discriminate].
  - vm_compute. reflexivity.
  - vm_compute. reflexivity.
  - exact I.
Defined.

End GovernanceSpec.

(** ** The transfer ratio *)

Module TransferSpec.
Import Double Spec DoubleFacts DoubleOrder Rounding Doubles Aura AuraCalc CalcVocab CalcSpec.
Local Open Scope Q_scope.

Lemma zero_leb_round q : 0 <= q -> leb (finite 0) (round q) = true.
Proof. intros H. change (finite 0) with (round 0). now apply round_leb. Qed.

Lemma divide_nonneg k a :
  0 < k -> leb (finite 0) a = true -> leb (finite 0) (divide a (finite k)) = true.
Proof.
  intros K A. apply leb_trans with (divide (finite 0) (finite k)).
  - cbn [divide]. assert (N : Qeq_bool k 0 = false) by (apply Qeq_bool_false; lra).
    rewrite N. apply zero_leb_round. unfold Qdiv. lra.
  - now apply divide_mono.
Qed.

Lemma scale_nonneg k a :
  0 < k -> leb (finite 0) a = true -> leb (finite 0) (times a (finite k)) = true.
Proof.
  intros K A. apply leb_trans with (times (finite 0) (finite k)).
  - cbn [times]. apply zero_leb_round. lra.
  - now apply scale_mono.
Qed.

Lemma Math_round_nonneg a :
  leb (finite 0) a = true -> leb (finite 0) (Math_round a) = true.
Proof.
  intros A. apply leb_trans with (Math_round (finite 0)).
  - vm_compute. reflexivity.
  - now apply Math_round_mono.
Qed.

(** Sums of numbers that are not negative keep the order. *)
Lemma plus_mono a a' b b' :
  leb (finite 0) a = true -> leb (finite 0) b = true ->
  leb a a' = true -> leb b b' = true ->
  leb (finite 0) (plus a b) = true /\ leb (plus a b) (plus a' b') = true.
Proof.
  destruct a as [x|[|]|], b as [y|[|]|]; cbn [leb negb]; try discriminate;
    intros A B; destruct a' as [x'|[|]|], b' as [y'|[|]|]; cbn [leb negb];
    try discriminate; intros LA LB; cbn [plus Bool.eqb leb negb orb];
    try (split; reflexivity);
    try apply Qle_bool_iff in A; try apply Qle_bool_iff in B;
    try apply Qle_bool_iff in LA; try apply Qle_bool_iff in LB.
  - split; [apply zero_leb_round; lra|apply round_leb; lra].
  - split; [apply zero_leb_round; lra|apply leb_top, round_not_NaN].
  - split; [apply zero_leb_round; lra|apply leb_top, round_not_NaN].
  - split; [apply zero_leb_round; lra|apply leb_top, round_not_NaN].
Qed.

Lemma ofQ_nonneg q : 0 <= q -> leb (finite 0) (ofQ q) = true.
Proof. apply zero_leb_round. Qed.

Lemma ofQ_leb q q' : q <= q' -> leb (ofQ q) (ofQ q') = true.
Proof. apply round_leb. Qed.

(** X21. With the same value captured, finite and not negative, the
    transfer ratio of non-negative parameters is never negative and never
    NaN, and more value offered, more skills transferred and more autonomy
    preserved never lower it, roundings and overflow included. *)
Theorem calculateVTR_monotone (p p' : VTRParams) :
  valueCaptured p' = valueCaptured p ->
  finiteNumeral (valueCaptured p) -> 0 <= valueCaptured p ->
  0 <= valueOffered p <= valueOffered p' ->
  0 <= skillsTransferred p <= skillsTransferred p' ->
  0 <= autonomyPreserved p <= autonomyPreserved p' ->
  leb (finite 0) (calculateVTR p) = true
  /\ leb (calculateVTR p) (calculateVTR p') = true.
Proof.
  intros Ec Fc C0 [O0 OO] [S0 SS] [A0 AA].
  unfold calculateVTR. cbv zeta. rewrite Ec.
  destruct (ofQ_finite _ Fc) as (c & Hc & Bc).
  pose proof (ofQ_nonneg _ C0) as Nc. rewrite Hc in *. cbn [leb] in Nc.
  apply Qle_bool_iff in Nc. cbn [eqb].
  destruct (Qeq_bool c 0) eqn:Z0.
  { split; vm_compute; reflexivity. }
  apply Qeq_bool_false in Z0.
  assert (Pc : 0 < c).
  { apply Qle_lteq in Nc as [H|H]; [exact H|]. exfalso. apply Z0. now symmetry. }
  pose proof (ofQ_nonneg _ O0) as NO. pose proof (ofQ_leb _ _ OO) as LO.
  pose proof (ofQ_nonneg _ S0) as NS. pose proof (ofQ_leb _ _ SS) as LS.
  pose proof (ofQ_nonneg _ A0) as NA. pose proof (ofQ_leb _ _ AA) as LA.
  set (o := ofQ (valueOffered p)) in *. set (o' := ofQ (valueOffered p')) in *.
  set (s := ofQ (skillsTransferred p)) in *.
  set (s' := ofQ (skillsTransferred p')) in *.
  set (a := ofQ (autonomyPreserved p)) in *.
  set (a' := ofQ (autonomyPreserved p')) in *.
  clearbody o o' s s' a a'.
  set (half := ofQ 0.5).
  assert (Eh : exists h, half = finite h /\ 0 < h).
  { eexists. split; vm_compute; reflexivity. }
  clearbody half. destruct Eh as (h & -> & Ph).
  assert (P10 : 0 < 10) by reflexivity. assert (P100 : 0 < 100) by reflexivity.
  (* the three terms *)
  pose proof (divide_nonneg c o Pc NO) as N1.
  pose proof (divide_mono c o o' Pc LO) as L1.
  pose proof (scale_nonneg h _ Ph (divide_nonneg 10 s P10 NS)) as N2.
  pose proof (scale_mono h _ _ Ph (divide_mono 10 s s' P10 LS)) as L2.
  pose proof (scale_nonneg h a Ph NA) as N3.
  pose proof (scale_mono h a a' Ph LA) as L3.
  set (t1 := divide o (finite c)) in *. set (t1' := divide o' (finite c)) in *.
  set (t2 := times (divide s (finite 10)) (finite h)) in *.
  set (t2' := times (divide s' (finite 10)) (finite h)) in *.
  set (t3 := times a (finite h)) in *. set (t3' := times a' (finite h)) in *.
  clearbody t1 t1' t2 t2' t3 t3'.
  destruct (plus_mono t1 t1' t2 t2' N1 N2 L1 L2) as (N12 & L12).
  destruct (plus_mono _ _ t3 t3' N12 N3 L12 L3) as (N & L).
  set (v := plus (plus t1 t2) t3) in *. set (v' := plus (plus t1' t2') t3') in *.
  clearbody v v'. split.
  - apply divide_nonneg; [exact P100|].
    apply Math_round_nonneg, scale_nonneg; [exact P100|exact N].
  - apply divide_mono; [exact P100|].
    apply Math_round_mono, scale_mono; [exact P100|exact L].
Qed.

Lemma calculateVTR_monotone_witness :
  leb (finite 0)
      (calculateVTR {| valueOffered := 3; valueCaptured := 2;
                       skillsTransferred := 4; autonomyPreserved := 0.5 |}) = true
  /\ leb (calculateVTR {| valueOffered := 3; valueCaptured := 2;
                          skillsTransferred := 4; autonomyPreserved := 0.5 |})
         (calculateVTR {| valueOffered := 5; valueCaptured := 2;
                          skillsTransferred := 7; autonomyPreserved := 0.9 |}) = true.
Proof.
  apply calculateVTR_monotone.
  - reflexivity.
  - vm_compute. reflexivity.
  - vm_compute. discriminate.
  - split; vm_compute; discriminate.
  - split; vm_compute; discriminate.
  - split; vm_compute; discriminate.
Defined.

End TransferSpec.

(** ** Validation of addresses *)

Module ValidationSpec.
Import Validation ValidationVocab.

Lemma matches_never s : ~ matches never s.
Proof. intro H. inversion H. Qed.

Lemma matches_empty s : matches empty s <-> s = [].
Proof. split; [intro H; now inversion H|intros ->; constructor]. Qed.

Lemma matches_class f s : matches (class f) s <-> exists c, s = [c] /\ f c = true.
Proof.
  split.
  - intro H. inversion H; subst. eauto.
  - intros (c & -> & H). now constructor.
Qed.

Lemma matches_seq a b s :
  matches (seq a b) s <-> exists s1 s2, s = s1 ++ s2 /\ matches a s1 /\ matches b s2.
Proof.
  split.
  - intro H. inversion H; subst. eauto.
  - intros (s1 & s2 & -> & H1 & H2). now constructor.
Qed.

Lemma matches_alt a b s : matches (alt a b) s <-> matches a s \/ matches b s.
Proof.
  split.
  - intro H. inversion H; subst; auto.
  - intros [H|H]; [now apply m_alt_l|now apply m_alt_r].
Qed.

Lemma matches_star_cons a c s :
  matches (star a) (c :: s) ->
  exists s1 s2, s = s1 ++ s2 /\ matches a (c :: s1) /\ matches (star a) s2.
Proof.
  intro H. remember (star a) as r eqn:Er. remember (c :: s) as w eqn:Ew.
  revert c s Ew. induction H; try discriminate; intros c' s' Ew.
  injection Er as ->. destruct s as [|x s].
  - cbn in Ew. subst t. now apply IHmatches2.
  - cbn in Ew. injection Ew as -> <-. now exists s, t.
Qed.

Lemma nullable_spec r : nullable r = true <-> matches r [].
Proof.
  induction r; cbn [nullable].
  - split; [discriminate|intro H; inversion H].
  - split; [constructor|reflexivity].
  - split; [discriminate|intro H; inversion H].
  - rewrite andb_true_iff, IHr1, IHr2, matches_seq. split.
    + intros [H1 H2]. now exists [], [].
    + intros (s1 & s2 & E & H1 & H2). symmetry in E.
      apply app_eq_nil in E as [-> ->]. now split.
  - rewrite orb_true_iff, IHr1, IHr2, matches_alt. reflexivity.
  - split; [constructor|reflexivity].
Qed.

Lemma after_spec r : forall c s, matches (after c r) s <-> matches r (c :: s).
Proof.
  induction r; intros c s; cbn [after].
  - split; intro H; inversion H.
  - split; intro H; inversion H.
  - rewrite matches_class. split.
    + destruct (members c) eqn:E; intro H; [|inversion H].
      apply matches_empty in H as ->. now exists c.
    + intros (c' & [= <- ->] & E). rewrite E. constructor.
  - assert (G : matches (seq (after c r1) r2) s \/ (nullable r1 = true /\ matches (after c r2) s)
                <-> matches (seq r1 r2) (c :: s)).
    { rewrite !matches_seq. split.
      - intros [(s1 & s2 & -> & H1 & H2)|(N & H)].
        + exists (c :: s1), s2. split; [reflexivity|]. split; [now apply IHr1|exact H2].
        + exists [], (c :: s). split; [reflexivity|].
          split; [now apply nullable_spec|now apply IHr2].
      - intros (s1 & s2 & E & H1 & H2). destruct s1 as [|x s1].
        + cbn in E. subst s2. right. split; [now apply nullable_spec|now apply IHr2].
        + cbn in E. injection E as <- ->. left. exists s1, s2.
          split; [reflexivity|]. split; [now apply IHr1|exact H2]. }
    destruct (nullable r1) eqn:N.
    + rewrite matches_alt, <- G. intuition.
    + rewrite <- G. intuition discriminate.
  - rewrite !matches_alt, IHr1, IHr2. reflexivity.
  - rewrite matches_seq. split.
    + intros (s1 & s2 & -> & H1 & H2).
      change (c :: s1 ++ s2) with ((c :: s1) ++ s2).
      constructor; [now apply IHr|exact H2].
    + intro H. apply matches_star_cons in H as (s1 & s2 & -> & H1 & H2).
      exists s1, s2. split; [reflexivity|]. split; [now apply IHr|exact H2].
Qed.

(** The test decides the strings of the expression. *)
Lemma test_spec s : forall r, test r s = true <-> matches r s.
Proof.
  induction s as [|c s IH]; intro r; cbn [test].
  - apply nullable_spec.
  - rewrite IH. apply after_spec.
Qed.

Lemma matches_star_class f s : matches (star (class f)) s <-> forallb f s = true.
Proof.
  split.
  - induction s as [|c s IH]; [reflexivity|]. intro H.
    apply matches_star_cons in H as (s1 & s2 & -> & H1 & H2).
    apply matches_class in H1 as (c' & [= -> ->] & E). cbn. rewrite E. now apply IH.
  - induction s as [|c s IH]; [constructor|]. cbn. intro H.
    apply andb_true_iff in H as [E H]. change (c :: s) with ([c] ++ s).
    constructor; [now constructor|now apply IH].
Qed.

Lemma matches_plus_class f s :
  matches (plus (class f)) s <-> s <> [] /\ forallb f s = true.
Proof.
  unfold plus. rewrite matches_seq. split.
  - intros (s1 & s2 & -> & H1 & H2). apply matches_class in H1 as (c & -> & E).
    apply matches_star_class in H2. split; [discriminate|]. cbn. now rewrite E.
  - intros [N H]. destruct s as [|c s]; [congruence|]. cbn in H.
    apply andb_true_iff in H as [E H]. exists [c], s.
    split; [reflexivity|]. split; [now constructor|now apply matches_star_class].
Qed.

Lemma matches_one c s : matches (class (N.eqb c)) s <-> s = [c].
Proof.
  rewrite matches_class. split.
  - intros (c' & -> & E). apply N.eqb_eq in E. now subst.
  - intros ->. exists c. split; [reflexivity|apply N.eqb_refl].
Qed.

(** The strings of the pattern. *)
Lemma emailPattern_spec s :
  matches emailPattern s
  <-> exists l d t,
        s = l ++ [atSign] ++ d ++ [fullStop] ++ t
        /\ (l <> [] /\ forallb plain l = true)
        /\ (d <> [] /\ forallb plain d = true)
        /\ (t <> [] /\ forallb plain t = true).
Proof.
  unfold emailPattern. split.
  - intro H.
    apply matches_seq in H as (l & r1 & -> & Hl & H).
    apply matches_seq in H as (a & r2 & -> & Ha & H).
    apply matches_seq in H as (d & r3 & -> & Hd & H).
    apply matches_seq in H as (p & t & -> & Hp & Ht).
    apply matches_one in Ha as ->. apply matches_one in Hp as ->.
    apply matches_plus_class in Hl, Hd, Ht. now exists l, d, t.
  - intros (l & d & t & -> & Hl & Hd & Ht).
    apply matches_plus_class in Hl, Hd, Ht.
    repeat (constructor; try assumption); now apply matches_one.
Qed.

Lemma plain_spec c : plain c = true <-> whiteSpace c = false /\ c <> atSign.
Proof.
  unfold plain. rewrite negb_true_iff, orb_false_iff, N.eqb_neq. reflexivity.
Qed.

Lemma count_app (c : N) a b :
  count_occ N.eq_dec (a ++ b) c = (count_occ N.eq_dec a c + count_occ N.eq_dec b c)%nat.
Proof. apply count_occ_app. Qed.

Lemma plain_no_at s :
  forallb plain s = true -> count_occ N.eq_dec s atSign = 0%nat.
Proof.
  intro H. apply count_occ_not_In. intro I.
  rewrite forallb_forall in H. apply H, plain_spec in I. now destruct I.
Qed.

Lemma plain_no_space s :
  forallb plain s = true -> existsb whiteSpace s = false.
Proof.
  induction s as [|c s IH]; [reflexivity|]. cbn. intro H.
  apply andb_true_iff in H as [E H]. apply plain_spec in E as [E _].
  now rewrite E, IH.
Qed.

Lemma at_is_not_space : whiteSpace atSign = false.
Proof. reflexivity. Qed.

Lemma stop_is_plain : plain fullStop = true.
Proof. reflexivity. Qed.

(** X22. An address is valid exactly when it holds no white space
    and one at sign only, something stands before the at sign, and what
    follows it has a full stop that is neither its first nor its last
    character. *)
Theorem isValidEmail_shape (email : codeUnits) :
  isValidEmail email = true
  <-> existsb whiteSpace email = false
      /\ count_occ N.eq_dec email atSign = 1%nat
      /\ exists l d t,
           email = l ++ [atSign] ++ d ++ [fullStop] ++ t
           /\ l <> [] /\ d <> [] /\ t <> [].
Proof.
  unfold isValidEmail. rewrite test_spec, emailPattern_spec. split.
  - intros (l & d & t & -> & (Nl & Pl) & (Nd & Pd) & (Nt & Pt)).
    split; [|split].
    + rewrite !existsb_app. cbn [existsb].
      rewrite (plain_no_space _ Pl), (plain_no_space _ Pd), (plain_no_space _ Pt).
      reflexivity.
    + rewrite !count_app. cbn [count_occ].
      rewrite (plain_no_at _ Pl), (plain_no_at _ Pd), (plain_no_at _ Pt).
      destruct (N.eq_dec atSign atSign) as [_|N]; [|congruence].
      destruct (N.eq_dec fullStop atSign) as [E|_]; [discriminate|]. reflexivity.
    + now exists l, d, t.
  - intros (W & C & l & d & t & -> & Nl & Nd & Nt).
    rewrite !existsb_app in W. cbn [existsb] in W.
    rewrite !orb_false_iff in W. destruct W as (Wl & _ & Wd & _ & Wt).
    rewrite !count_app in C. cbn [count_occ] in C.
    destruct (N.eq_dec atSign atSign) as [_|N]; [|congruence].
    destruct (N.eq_dec fullStop atSign) as [E|_]; [discriminate|].
    assert (P : forall s, existsb whiteSpace s = false ->
                          count_occ N.eq_dec s atSign = 0%nat ->
                          forallb plain s = true).
    { intros s Ws Cs. apply forallb_forall. intros c I. apply plain_spec. split.
      - destruct (whiteSpace c) eqn:E; [|reflexivity].
        assert (X : existsb whiteSpace s = true) by (apply existsb_exists; eauto).
        congruence.
      - intros ->. apply (count_occ_not_In N.eq_dec) in Cs. now apply Cs. }
    exists l, d, t. split; [reflexivity|].
    repeat split; try assumption; apply P; try assumption; lia.
Qed.

(** Some addresses. *)
Lemma isValidEmail_examples :
  isValidEmail (unitsOf "a@b.c") = true
  /\ isValidEmail (unitsOf "first.last@mail.example.org") = true
  /\ isValidEmail (unitsOf "a@b") = false
  /\ isValidEmail (unitsOf "a@@b.c") = false
  /\ isValidEmail (unitsOf "a b@c.d") = false
  /\ isValidEmail (unitsOf "@b.c") = false
  /\ isValidEmail (unitsOf "a@.c") = false
  /\ isValidEmail (unitsOf "a@b.") = false.
Proof. repeat split; vm_compute; reflexivity. Qed.

End ValidationSpec.
